(** * local-image-analyst: the prompt execution engine

    A shallow embedding of [src/types.ts], [src/services/api.ts] and the
    engine part of [src/store.ts], followed by the properties of the
    engine that the specification states.

    Conventions of the embedding.
    - A JavaScript string is a [string] whose characters are the code
      units U+0000..U+00FF; the string built-ins used by the source
      ([trim], [trimStart], [toLowerCase], [includes], [startsWith],
      [indexOf], [substring]) are written out for that range.
    - A JavaScript number is an IEEE 754 binary64 value, [float].
    - A JavaScript value of type [any] (the [data] of a result, the
      value returned by [JSON.parse]) is a [JsValue].
    - The store is a record threaded through a small state monad; every
      [fetch] the code issues is appended to the ghost field
      [requests], and is answered by a function [server] that the
      development quantifies over. *)

From Stdlib Require Import Ascii String ZArith Floats.
From stdpp Require Import gmap strings list fin_maps pretty.

Open Scope string_scope.
Open Scope nat_scope.
Open Scope list_scope.

(** ** JavaScript string built-ins *)

Module JsString.

(** WhiteSpace and LineTerminator code units below U+0100: TAB, LF, VT,
    FF, CR, SP and NBSP. *)
Definition isWhiteSpace (c : ascii) : bool :=
  let n := nat_of_ascii c in
  ((9 <=? n) && (n <=? 13)) || (n =? 32) || (n =? 160).

Fixpoint trimStart (s : string) : string :=
  match s with
  | EmptyString => EmptyString
  | String c s' => if isWhiteSpace c then trimStart s' else s
  end.

Fixpoint trimEnd (s : string) : string :=
  match s with
  | EmptyString => EmptyString
  | String c s' =>
      match trimEnd s' with
      | EmptyString => if isWhiteSpace c then EmptyString else String c EmptyString
      | r => String c r
      end
  end.

Definition trim (s : string) : string := trimEnd (trimStart s).

(** [toLowerCase] on U+0000..U+00FF: A-Z, and the Latin-1 capitals
    U+00C0..U+00DE except the multiplication sign U+00D7. *)
Definition lowerChar (c : ascii) : ascii :=
  let n := nat_of_ascii c in
  if ((65 <=? n) && (n <=? 90)) || ((192 <=? n) && (n <=? 222) && negb (n =? 215))
  then ascii_of_nat (n + 32) else c.

Fixpoint toLowerCase (s : string) : string :=
  match s with
  | EmptyString => EmptyString
  | String c s' => String (lowerChar c) (toLowerCase s')
  end.

(** [s.startsWith(p)] *)
Definition startsWith (p s : string) : bool := String.prefix p s.

(** [s.indexOf(p)]; [None] stands for -1. *)
Fixpoint indexOf (p s : string) : option nat :=
  if startsWith p s then Some 0
  else match s with
       | EmptyString => None
       | String _ s' => S <$> indexOf p s'
       end.

(** [s.includes(p)] *)
Definition includes (p s : string) : bool :=
  match indexOf p s with Some _ => true | None => false end.

(** [s.substring(n)], for [n] at most the length of [s]. *)
Fixpoint substringFrom (n : nat) (s : string) : string :=
  match n, s with
  | 0, _ => s
  | S n', String _ s' => substringFrom n' s'
  | S _, EmptyString => EmptyString
  end.

(** A string used as a condition: the empty string is falsy. *)
Definition truthy (s : string) : bool :=
  match s with EmptyString => false | _ => true end.

Fixpoint concat (l : list string) : string :=
  match l with
  | [] => EmptyString
  | s :: l' => s +:+ concat l'
  end.

(** The last character of [p] exists and is not white space. *)
Fixpoint endsVisible (p : string) : bool :=
  match p with
  | EmptyString => false
  | String a EmptyString => negb (isWhiteSpace a)
  | String _ p' => endsVisible p'
  end.

End JsString.
Import JsString.

(** ** The streaming decoder of [fetchAnalysisStream] (api.ts, 151-212) *)

Inductive ParsingState := initial | skipping_think | streaming.

Record Decoder := {
  parsingState : ParsingState;
  accumulatedContent : string;
}.

Definition decoderStart : Decoder :=
  {| parsingState := initial; accumulatedContent := "" |}.

(** The tail shared by the two branches that look for the closing tag:
    with the tag at [i], switch to [streaming], clear the buffer and
    yield what follows the tag, left-trimmed, when it is not empty. *)
Definition closeThink (acc : string) (i : nat) : Decoder * list string :=
  let remainingContent := substringFrom (i + String.length "</think>") acc in
  ({| parsingState := streaming; accumulatedContent := "" |},
   if truthy remainingContent then [trimStart remainingContent] else []).

(** One non-empty [delta] through the state machine: the next state and
    the contents yielded as [{type: 'delta'}]. *)
Definition feedDelta (d : Decoder) (delta : string) : Decoder * list string :=
  match parsingState d with
  | initial =>
      let acc := accumulatedContent d +:+ delta in
      if 0 <? String.length (trim acc) then
        if startsWith "<think>" (trim acc) then
          match indexOf "</think>" acc with
          | Some i => closeThink acc i
          | None => ({| parsingState := skipping_think; accumulatedContent := acc |}, [])
          end
        else ({| parsingState := streaming; accumulatedContent := "" |}, [acc])
      else ({| parsingState := initial; accumulatedContent := acc |}, [])
  | skipping_think =>
      let acc := accumulatedContent d +:+ delta in
      match indexOf "</think>" acc with
      | Some i => closeThink acc i
      | None => ({| parsingState := skipping_think; accumulatedContent := acc |}, [])
      end
  | streaming => (d, [delta])
  end.

(** [stripThinking] (api.ts, 43-45): the one-shot removal used by the
    paths that do not stream. The pattern
    [/<think>[\s\S]*?<\/think>[\s\n]*/] matches at the first [<think>]
    that is followed somewhere by [</think>], lazily up to the first
    such closing tag, and then takes the white space after it. *)
Fixpoint stripThinkingFrom (s : string) : string :=
  if startsWith "<think>" s then
    match indexOf "</think>" (substringFrom 7 s) with
    | Some i => trimStart (substringFrom (7 + i + 8) s)
    | None => s
    end
  else match s with
       | EmptyString => EmptyString
       | String c s' => String c (stripThinkingFrom s')
       end.

Definition stripThinking (rawContent : string) : string :=
  trim (stripThinkingFrom rawContent).

(** ** The data model of [types.ts] *)

Module ResultType.
Inductive t := Text | BoundingBox | Score | Number | YesNo | Category | JSON.

(** The string value of each member of the enum. *)
Definition toString (ty : t) : string :=
  match ty with
  | Text => "text" | BoundingBox => "bbox" | Score => "score"
  | Number => "number" | YesNo => "yes/no" | Category => "category"
  | JSON => "json"
  end.

Definition eqb (a b : t) : bool :=
  match a, b with
  | Text, Text | BoundingBox, BoundingBox | Score, Score | Number, Number
  | YesNo, YesNo | Category, Category | JSON, JSON => true
  | _, _ => false
  end.
End ResultType.

Inductive Condition := yes | no.
Inductive ScoreConditionOperator := above | below.

Definition Condition_eqb (a b : Condition) : bool :=
  match a, b with yes, yes | no, no => true | _, _ => false end.

(** [Prompt]. The fields that only reach the request text ([scoreRange],
    [categories], [jsonSchema], [regionType], [regionCoords]) are left
    out; an absent optional field is [None]. *)
Record Prompt := {
  id : string;
  text : string;
  type : ResultType.t;
  parentId : option string;
  condition : option Condition;
  scoreConditionOperator : option ScoreConditionOperator;
  scoreConditionValue : option float;
}.

(** A value of type [any]. *)
#[local] Unset Elimination Schemes.
Inductive JsValue :=
| VNull
| VBool (b : bool)
| VNumber (x : float)
| VString (s : string)
| VArray (items : list JsValue)
| VObject (fields : list (string * JsValue)).
#[local] Set Elimination Schemes.

(** [{ box, label }] *)
Definition BoundingBox (box : list float) (label : string) : JsValue :=
  VObject [("box", VArray (VNumber <$> box)); ("label", VString label)].

(** [{ parentBox, resultData }] *)
Definition BboxChildResult (parentBox resultData : JsValue) : JsValue :=
  VObject [("parentBox", parentBox); ("resultData", resultData)].

Inductive AnalysisStatus := idle | loading | success | error.

(** [AnalysisResult]; [errorMessage] is the field [error]. The fields
    kept for inspection only ([conversationHistory], [requestPayload],
    [rawResponse]) are left out. *)
Record AnalysisResult := {
  promptId : string;
  status : AnalysisStatus;
  data : JsValue;
  errorMessage : option string;
}.

(** A status that ends an attempt. *)
Definition isTerminal (r : AnalysisResult) : bool :=
  match status r with success | error => true | _ => false end.

(** ** Exceptions and the model endpoint *)

(** A thrown value, seen through [(error as Error).name] and
    [(error as Error).message]; both are [undefined] for a thrown value
    that is not an object. *)
Record Thrown := {
  name : option string;
  message : option string;
}.

(** [new Error(msg)] *)
Definition Error (msg : string) : Thrown :=
  {| name := Some "Error"; message := Some msg |}.

Definition TypeError (msg : string) : Thrown :=
  {| name := Some "TypeError"; message := Some msg |}.

Definition SyntaxError (msg : string) : Thrown :=
  {| name := Some "SyntaxError"; message := Some msg |}.

Definition RangeError (msg : string) : Thrown :=
  {| name := Some "RangeError"; message := Some msg |}.

(** A thrown value inside a template literal. *)
Definition messageText (e : Thrown) : string :=
  match message e with Some m => m | None => "undefined" end.

Definition isAbortError (e : Thrown) : bool :=
  match name e with Some n => String.eqb n "AbortError" | None => false end.

(** One frame [data: {json}] of an event stream, after [JSON.parse]:
    its [choices[0].finish_reason] is ['length'], or it carries
    [choices[0].delta.content] (the empty string when absent); reading
    the stream can also fail. *)
Inductive Chunk :=
| ChunkLength
| ChunkDelta (content : string)
| ChunkFail (e : Thrown).

(** What a [fetch] comes to: it rejects, or reading the body does
    ([Rejected], which covers a network failure and an abort); the
    status is not a success; the body is a completion with its
    [choices[0].finish_reason] and [choices[0].message.content]; or the
    body is an event stream. *)
Inductive FetchOutcome :=
| Rejected (e : Thrown)
| NotOk (httpStatus : N)
| Completion (finish_reason : string) (content : string)
| EventStream (chunks : list Chunk).

(** A request, by what determines its text and its mode: the prompt, the
    image, the detected object of a fan-out call, and [stream]. *)
Record Request := {
  rq_prompt : Prompt;
  rq_imageId : string;
  rq_bbox : option JsValue;
  rq_stream : bool;
}.

(** The request of a fan-out call for one detected object. *)
Definition childRequest (prompt : Prompt) (bbox : JsValue) (imageId : string) : Request :=
  {| rq_prompt := prompt; rq_imageId := imageId; rq_bbox := Some bbox; rq_stream := false |}.

(** ** Response coercion (api.ts) *)

Definition isDigit (c : ascii) : bool :=
  let n := nat_of_ascii c in (48 <=? n) && (n <=? 57).

(** The longest run of digits at the head of [s], and what follows it. *)
Fixpoint takeDigits (s : string) : string * string :=
  match s with
  | String c s' =>
      if isDigit c then let '(ds, rest) := takeDigits s' in (String c ds, rest)
      else (EmptyString, s)
  | EmptyString => (EmptyString, EmptyString)
  end.

(** [\d+(\.\d+)?] anchored at the head of [s]. *)
Definition matchUnsigned (s : string) : option string :=
  match takeDigits s with
  | (EmptyString, _) => None
  | (ds, String "." rest) =>
      match takeDigits rest with
      | (EmptyString, _) => Some ds
      | (fs, _) => Some (ds +:+ "." +:+ fs)
      end
  | (ds, _) => Some ds
  end.

(** [-?\d+(\.\d+)?] anchored at the head of [s]. *)
Definition matchAt (s : string) : option string :=
  match s with
  | String "-" s' =>
      match matchUnsigned s' with
      | Some m => Some (String "-" m)
      | None => None
      end
  | _ => matchUnsigned s
  end.

(** [content.match(/-?\d+(\.\d+)?/)], the matched text: the leftmost
    position where the pattern matches. *)
Fixpoint matchNumber (content : string) : option string :=
  match matchAt content with
  | Some m => Some m
  | None =>
      match content with
      | EmptyString => None
      | String _ s' => matchNumber s'
      end
  end.

(** [content.replace(/```json\n?|```/g, '')]; [skip] counts the
    characters of the current match still to drop. *)
Fixpoint removeFencesFrom (skip : nat) (s : string) : string :=
  match s with
  | EmptyString => EmptyString
  | String c s' =>
      match skip with
      | S k => removeFencesFrom k s'
      | 0 =>
          if startsWith ("```json" +:+ String (ascii_of_nat 10) "") s then removeFencesFrom 7 s'
          else if startsWith "```json" s then removeFencesFrom 6 s'
          else if startsWith "```" s then removeFencesFrom 2 s'
          else String c (removeFencesFrom 0 s')
      end
  end.

Definition removeFences (content : string) : string := removeFencesFrom 0 content.

(** [obj[key]] on an object literal. *)
Fixpoint getField (key : string) (fields : list (string * JsValue)) : option JsValue :=
  match fields with
  | [] => None
  | (k, v) :: rest => if String.eqb k key then Some v else getField key rest
  end.

(** [bbox.box], for a [bbox] that is not [null]: the property of an
    object, and [undefined] for any other value. *)
Definition boxOf (bbox : JsValue) : option JsValue :=
  match bbox with
  | VObject fields => getField "box" fields
  | _ => None
  end.

(** [getFullPromptTextForBboxChild] reads [bbox.label] and calls
    [bbox.box.join]: for a [bbox] that is not [null] it returns when
    [bbox.box] is an array, and throws a [TypeError] otherwise. *)
Definition hasBox (bbox : JsValue) : bool :=
  match boxOf bbox with Some (VArray _) => true | _ => false end.

(** The message of that [TypeError], in the wording of V8, by the
    value of [bbox.box]. *)
Definition joinMessage (box : option JsValue) : string :=
  match box with
  | None => "Cannot read properties of undefined (reading 'join')"
  | Some VNull => "Cannot read properties of null (reading 'join')"
  | Some _ => "bbox.box.join is not a function"
  end.

(** Reading [bbox.label] of [null] throws; the [catch] of
    [fetchBboxChildAnalysis] reads it too (api.ts, 320). *)
Definition labelOfNull : Thrown :=
  TypeError "Cannot read properties of null (reading 'label')".

(** What the generator [fetchAnalysisStream] hands to its consumer: a
    yielded [{type: 'delta'}], a yielded [{type: 'error'}] after which
    it returns, or an exception thrown out of it. *)
Inductive Yield :=
| YDelta (content : string)
| YError (err : string)
| YThrow (e : Thrown).

(** The loop over the frames of the stream (api.ts, 155-219); a frame
    whose delta is empty is skipped ([if (!delta) continue]). *)
Fixpoint streamYields (d : Decoder) (chunks : list Chunk) : list Yield :=
  match chunks with
  | [] => []
  | ChunkLength :: _ => [YError "Response was truncated due to token limit."]
  | ChunkFail e :: _ => [YThrow e]
  | ChunkDelta delta :: rest =>
      if truthy delta then
        let '(d', out) := feedDelta d delta in
        (YDelta <$> out) ++ streamYields d' rest
      else streamYields d rest
  end.

(** [fetchAnalysisStream] once its [fetch] has come to [o]. A completion
    body has no line that starts with [data: ], so nothing is yielded
    for it. *)
Definition fetchAnalysisStream (o : FetchOutcome) : list Yield :=
  match o with
  | Rejected e => [YThrow e]
  | NotOk st => [YThrow (Error ("API request failed with status " +:+ pretty st))]
  | Completion _ _ => []
  | EventStream chunks => streamYields decoderStart chunks
  end.

(** The text a consumer has accumulated from the yielded deltas
    ([finalResultData += chunk.content]). *)
Fixpoint visibleText (ys : list Yield) : string :=
  match ys with
  | YDelta c :: rest => c +:+ visibleText rest
  | _ => EmptyString
  end.

(** The deltas of a stream, as frames. *)
Definition deltaFrames (deltas : list string) : FetchOutcome :=
  EventStream (ChunkDelta <$> deltas).

(** ** The store (store.ts) *)

(** The part of [AppState] the engine reads and writes. A controller is
    named by the number of controllers created before it;
    [abortedSignals] lists the controllers whose [abort] was called.
    [requests] is not a field of the source: it lists, oldest first, the
    requests handed to [fetch]. The image data is taken to be at hand
    (cached in [imageBase64s]), so no attempt suspends before its
    [fetch]; the display state ([overlayVisibility], [isAnalyzing],
    [analysisProgress], [runningSinglePrompts]) is left out.

    The records of [results] are plain objects. Where the engine tests
    whether a prompt has a history, the test is modelled as the source
    reads it, inherited properties included ([readSlot]). An attempt
    is modelled as reading and writing own keys, which is what it does
    for a prompt whose id is not the name of an inherited property
    ([ordinary]), as is every id that [addPrompt] and [generatePrompts]
    make. An image id holds a dash and is never such a name. *)
Record AppState := {
  prompts : list Prompt;
  selectedImageId : option string;
  results : gmap string (gmap string (list AnalysisResult));
  abortControllers : gmap string nat;
  abortedSignals : list nat;
  controllersCreated : nat;
  requests : list Request;
}.

Definition set_results (f : gmap string (gmap string (list AnalysisResult)) →
                            gmap string (gmap string (list AnalysisResult)))
    (s : AppState) : AppState :=
  {| prompts := prompts s; selectedImageId := selectedImageId s;
     results := f (results s);
     abortControllers := abortControllers s; abortedSignals := abortedSignals s;
     controllersCreated := controllersCreated s; requests := requests s |}.

Definition set_prompts (f : list Prompt → list Prompt) (s : AppState) : AppState :=
  {| prompts := f (prompts s); selectedImageId := selectedImageId s;
     results := results s;
     abortControllers := abortControllers s; abortedSignals := abortedSignals s;
     controllersCreated := controllersCreated s; requests := requests s |}.

Definition set_requests (f : list Request → list Request) (s : AppState) : AppState :=
  {| prompts := prompts s; selectedImageId := selectedImageId s;
     results := results s;
     abortControllers := abortControllers s; abortedSignals := abortedSignals s;
     controllersCreated := controllersCreated s; requests := f (requests s) |}.

(** [results[imageId] || {}] *)
Definition imageResults (s : AppState) (imageId : string) : gmap string (list AnalysisResult) :=
  default ∅ (results s !! imageId).

(** [results[imageId]?.[promptId] || []] *)
Definition historyOf (s : AppState) (imageId promptId : string) : list AnalysisResult :=
  default [] (imageResults s imageId !! promptId).

(** The names of the properties a plain object inherits from
    [Object.prototype], each with the [length] of its value: the
    number of parameters of a function, and none for [__proto__], whose
    value is the prototype itself. *)
Definition prototypeLength (key : string) : option (option nat) :=
  if String.eqb key "__proto__" then Some None
  else if existsb (String.eqb key) ["toString"; "valueOf"; "toLocaleString"]
  then Some (Some 0)
  else if existsb (String.eqb key)
            ["constructor"; "hasOwnProperty"; "isPrototypeOf"; "propertyIsEnumerable";
             "__lookupGetter__"; "__lookupSetter__"]
  then Some (Some 1)
  else if existsb (String.eqb key) ["__defineGetter__"; "__defineSetter__"]
  then Some (Some 2)
  else None.

(** A key under which a plain object has its own properties only. *)
Definition ordinary (key : string) : bool :=
  match prototypeLength key with None => true | Some _ => false end.

(** What [h[key]] gives on a record of histories [h], a plain object:
    the own property when there is one, else the inherited one, which
    is truthy and of which the code reads the [length], else
    [undefined]. *)
Inductive Slot :=
| Own (history : list AnalysisResult)
| Inherited (len : option nat)
| Undefined.

Definition readSlot (h : gmap string (list AnalysisResult)) (key : string) : Slot :=
  match h !! key with
  | Some history => Own history
  | None =>
      match prototypeLength key with
      | Some len => Inherited len
      | None => Undefined
      end
  end.

(** [!h[p] || h[p].length === 0] *)
Definition noHistory (h : gmap string (list AnalysisResult)) (promptId : string) : bool :=
  match readSlot h promptId with
  | Own (_ :: _) => false
  | Own [] => true
  | Inherited (Some 0) => true
  | Inherited _ => false
  | Undefined => true
  end.

(** [h[p] && h[p].length > 0] *)
Definition hasHistory (h : gmap string (list AnalysisResult)) (promptId : string) : bool :=
  match readSlot h promptId with
  | Own (_ :: _) => true
  | Inherited (Some (S _)) => true
  | _ => false
  end.

(** [results[imageId]?.[p]?.length > 0] *)
Definition settled (s : AppState) (imageId promptId : string) : bool :=
  match results s !! imageId with
  | Some h => hasHistory h promptId
  | None => false
  end.

(** [c.parentId === pid] *)
Definition parentIs (pid : string) (c : Prompt) : bool :=
  match parentId c with Some q => String.eqb q pid | None => false end.

(** [p.parentId] as a condition: absent and empty are both falsy. *)
Definition hasParent (p : Prompt) : bool :=
  match parentId p with Some q => truthy q | None => false end.

(** The state monad of the store: a computation reads and replaces the
    store, as [getState] and [setState] do. *)
Definition M (A : Type) : Type := AppState → A * AppState.

#[global] Instance M_ret : MRet M := λ A x s, (x, s).
#[global] Instance M_bind : MBind M := λ A B f m s, let '(a, s') := m s in f a s'.

Definition getState : M AppState := λ s, (s, s).
Definition setState (f : AppState → AppState) : M unit := λ s, (tt, f s).

(** [for (const x of l) { await body(x) }] *)
Fixpoint forEach {A} (l : list A) (body : A → M unit) : M unit :=
  match l with
  | [] => mret tt
  | x :: rest => body x ;; forEach rest body
  end.

(** The same loop over a body that may throw: the first exception
    ends the loop and is the exception of the loop. *)
Fixpoint forEachTry {A} (l : list A) (body : A → M (option Thrown)) : M (option Thrown) :=
  match l with
  | [] => mret None
  | x :: rest =>
      thrown ← body x;
      match thrown with
      | Some e => mret (Some e)
      | None => forEachTry rest body
      end
  end.

(** [l.map(f)] over an async [f]: the calls start in the order of [l],
    each running up to its [fetch], and every call comes to a value or
    to a rejection. *)
Fixpoint mapAll {A B} (f : A → M B) (l : list A) : M (list B) :=
  match l with
  | [] => mret []
  | x :: rest => y ← f x; ys ← mapAll f rest; mret (y :: ys)
  end.

(** [await Promise.all(promises)]: the values in the order of the
    promises, or the rejection of a promise that rejects; of several,
    the one that rejects first, which among calls that reject before
    their first [await] is the first in the list. *)
Fixpoint allFulfilled {A} (outcomes : list (Thrown + A)) : Thrown + list A :=
  match outcomes with
  | [] => inr []
  | inl e :: _ => inl e
  | inr y :: rest =>
      match allFulfilled rest with
      | inl e => inl e
      | inr ys => inr (y :: ys)
      end
  end.

(** The final state and the value of a computation. *)
Definition stateAfter {A} (m : M A) (s : AppState) : AppState := snd (m s).
Definition valueOf {A} (m : M A) (s : AppState) : A := fst (m s).

(** The platform the engine runs on: the built-ins [parseFloat] and
    [JSON.parse] ([None] when it throws a [SyntaxError]); the message
    of the [SyntaxError] that [response.json()] throws on a body that
    is an event stream, which the JavaScript engine words and which
    quotes the body; and the model endpoint, which says what the [n]-th request
    handed to [fetch] comes to. *)
Class Platform := {
  parseFloat : string → float;
  JSON_parse : string → option JsValue;
  notJsonMessage : list Chunk → string;
  server : nat → Request → FetchOutcome;
}.

Section Engine.

Context {platform : Platform}.

(** *** api.ts *)

(** [match ? parseFloat(match[0]) : NaN] *)
Definition coerceNumber (content : string) : float :=
  match matchNumber content with
  | Some m => parseFloat m
  | None => nan
  end.

(** [fetchAnalysis] (api.ts, 251-271) once its [fetch] has come to
    [o]: the parsed data, or the exception thrown. *)
Definition fetchAnalysis (prompt : Prompt) (o : FetchOutcome) : Thrown + JsValue :=
  match o with
  | Rejected e => inl e
  | NotOk st => inl (Error ("API request failed with status " +:+ pretty st))
  | EventStream chunks => inl (SyntaxError (notJsonMessage chunks))
  | Completion finish_reason rawContent =>
      if String.eqb finish_reason "length" then
        inl (Error "Response was truncated due to token limit.")
      else
        let content := stripThinking rawContent in
        match type prompt with
        | ResultType.BoundingBox | ResultType.JSON =>
            match JSON_parse (trim (removeFences content)) with
            | Some parsedData => inr parsedData
            | None => inl (Error ("Failed to parse JSON for "
                                    +:+ ResultType.toString (type prompt) +:+ "."))
            end
        | ResultType.Score | ResultType.Number => inr (VNumber (coerceNumber content))
        | _ => inr (VString content)
        end
  end.

(** The [resultData] of [fetchBboxChildAnalysis] (api.ts, 304-322)
    once its [fetch] has come to [o]; an exception becomes the marker
    [Error: ...]. *)
Definition bboxChildData (prompt : Prompt) (o : FetchOutcome) : JsValue :=
  match o with
  | Rejected e => VString ("Error: " +:+ messageText e)
  | NotOk st => VString ("Error: " +:+ "API failed: " +:+ pretty st)
  | EventStream chunks => VString ("Error: " +:+ notJsonMessage chunks)
  | Completion _ rawContent =>
      let content := stripThinking rawContent in
      match type prompt with
      | ResultType.Score | ResultType.Number => VNumber (coerceNumber content)
      | _ => VString content
      end
  end.

(** Handing a request to [fetch]: it is recorded, and its number is
    returned. *)
Definition issue (rq : Request) : M nat :=
  λ s, (length (requests s), set_requests (λ l, l ++ [rq]) s).

(** [await fetch(...)]: the request is issued and answered by the
    endpoint. *)
Definition fetch (rq : Request) : M FetchOutcome :=
  n ← issue rq; mret (server n rq).

(** [fetchBboxChildAnalysis] (api.ts, 274-323): the entry it returns,
    or the exception it rejects with. Building the request text throws
    before any [fetch] when [bbox] is [null] or has no [box] that is an
    array; the [catch] turns an exception into an entry, except that
    for [null] it throws itself, reading [bbox.label] for its log
    line. *)
Definition fetchBboxChildAnalysis (prompt : Prompt) (bbox : JsValue) (imageId : string)
  : M (Thrown + JsValue) :=
  match bbox with
  | VNull => mret (inl labelOfNull)
  | _ =>
      if hasBox bbox then
        o ← fetch (childRequest prompt bbox imageId);
        mret (inr (BboxChildResult bbox (bboxChildData prompt o)))
      else mret (inr (BboxChildResult bbox (VString ("Error: " +:+ joinMessage (boxOf bbox)))))
  end.

(** *** runSinglePrompt (store.ts, 511-680), without a follow-up *)

Definition abortKeyOf (imageId promptId : string) : string :=
  imageId +:+ "-" +:+ promptId.

(** Lines 516-520: abort the controller registered under the key, if
    any, and register a new one. *)
Definition registerController (abortKey : string) : M nat :=
  λ s, let c := controllersCreated s in
       (c, {| prompts := prompts s; selectedImageId := selectedImageId s;
              results := results s;
              abortControllers := <[abortKey := c]> (abortControllers s);
              abortedSignals :=
                match abortControllers s !! abortKey with
                | Some old => old :: abortedSignals s
                | None => abortedSignals s
                end;
              controllersCreated := S c; requests := requests s |}).

(** The [finally] block, lines 669-671. *)
Definition releaseController (abortKey : string) : M unit :=
  setState (λ s,
    {| prompts := prompts s; selectedImageId := selectedImageId s;
       results := results s;
       abortControllers := delete abortKey (abortControllers s);
       abortedSignals := abortedSignals s;
       controllersCreated := controllersCreated s; requests := requests s |}).

(** [updateResultHistory] (lines 522-536) *)
Definition updateResultHistory (imageId promptId : string)
    (updater : list AnalysisResult → list AnalysisResult) : M unit :=
  setState (λ s,
    set_results (λ r, <[imageId := <[promptId := updater (historyOf s imageId promptId)]>
                                      (imageResults s imageId)]> r) s).

(** [prev.slice(0, -1).concat(r)] *)
Definition replaceLast (r : AnalysisResult) (prev : list AnalysisResult)
  : list AnalysisResult :=
  removelast prev ++ [r].

(** The updater of lines 605-619: the latest entry takes the delta.
    The entry streamed into holds [null] or the text so far. *)
Definition dataText (v : JsValue) : string :=
  match v with VString t => t | _ => EmptyString end.

Definition appendDelta (content : string) (prev : list AnalysisResult)
  : list AnalysisResult :=
  match last prev with
  | None => prev
  | Some lastResult =>
      removelast prev ++
        [{| promptId := promptId lastResult; status := status lastResult;
            data := VString (dataText (data lastResult) +:+ content);
            errorMessage := errorMessage lastResult |}]
  end.

(** The entry written at lines 633-643. *)
Definition streamedResult (lastResult : AnalysisResult) (finalText : string)
  : AnalysisResult :=
  {| promptId := promptId lastResult; status := success;
     data := VString finalText; errorMessage := errorMessage lastResult |}.

Definition finishStream (finalText : string) (prev : list AnalysisResult)
  : list AnalysisResult :=
  match last prev with
  | None => prev
  | Some lastResult => removelast prev ++ [streamedResult lastResult finalText]
  end.

(** The loop [for await (const chunk of stream)] (lines 601-621): the
    accumulated text, or the exception that left the loop. *)
Fixpoint consumeStream (imageId promptId : string) (ys : list Yield)
    (finalResultData : string) : M (Thrown + string) :=
  match ys with
  | [] => mret (inr finalResultData)
  | YDelta content :: rest =>
      updateResultHistory imageId promptId (appendDelta content) ;;
      consumeStream imageId promptId rest (finalResultData +:+ content)
  | YError err :: _ => mret (inl (Error err))
  | YThrow e :: _ => mret (inl e)
  end.

(** The request of an attempt; [stream] is set for a Text prompt. *)
Definition attemptRequest (prompt : Prompt) (imageId : string) : Request :=
  {| rq_prompt := prompt; rq_imageId := imageId; rq_bbox := None;
     rq_stream := ResultType.eqb (type prompt) ResultType.Text |}.

(** The entry of line 591. *)
Definition loadingResult (prompt : Prompt) : AnalysisResult :=
  {| promptId := id prompt; status := loading; data := VNull; errorMessage := None |}.

(** An attempt up to the point where it suspends on its [fetch]: the
    controller is registered, the loading entry is appended to the
    history and the request is issued (lines 512-598). *)
Definition beginAttempt (prompt : Prompt) (imageId : string) : M nat :=
  registerController (abortKeyOf imageId (id prompt)) ;;
  updateResultHistory imageId (id prompt) (λ prev, prev ++ [loadingResult prompt]) ;;
  issue (attemptRequest prompt imageId).

(** Lines 658 and 665. *)
Definition successResult (prompt : Prompt) (resultData : JsValue) : AnalysisResult :=
  {| promptId := id prompt; status := success; data := resultData; errorMessage := None |}.

Definition errorResult (prompt : Prompt) (e : Thrown) : AnalysisResult :=
  {| promptId := id prompt; status := error; data := VNull; errorMessage := message e |}.

(** The body of the [try] once the [fetch] has come to [o] (lines
    595-661): the returned result, or the exception thrown. Reading
    [resultData.length] at line 655 throws on [null]. *)
Definition attemptBody (prompt : Prompt) (imageId : string) (o : FetchOutcome)
  : M (Thrown + option AnalysisResult) :=
  if ResultType.eqb (type prompt) ResultType.Text then
    r ← consumeStream imageId (id prompt) (fetchAnalysisStream o) EmptyString;
    match r with
    | inl e => mret (inl e)
    | inr finalResultData =>
        let finalResultDataTrimmed := trim finalResultData in
        s ← getState;
        updateResultHistory imageId (id prompt) (finishStream finalResultDataTrimmed) ;;
        mret (inr ((λ lastResult, streamedResult lastResult finalResultDataTrimmed)
                     <$> last (historyOf s imageId (id prompt))))
    end
  else
    match fetchAnalysis prompt o with
    | inl e => mret (inl e)
    | inr resultData =>
        match type prompt, resultData with
        | ResultType.BoundingBox, VNull =>
            mret (inl (TypeError "Cannot read properties of null (reading 'length')"))
        | _, _ =>
            updateResultHistory imageId (id prompt) (replaceLast (successResult prompt resultData)) ;;
            mret (inr (Some (successResult prompt resultData)))
        end
    end.

(** An attempt from the point where its [fetch] has come to [o]: the
    body, the [catch] (lines 662-667) and the [finally]. *)
Definition settleAttempt (prompt : Prompt) (imageId : string) (o : FetchOutcome)
  : M (option AnalysisResult) :=
  r ← attemptBody prompt imageId o;
  res ← match r with
        | inr res => mret res
        | inl e =>
            if isAbortError e then mret None
            else
              updateResultHistory imageId (id prompt) (replaceLast (errorResult prompt e)) ;;
              mret (Some (errorResult prompt e))
        end;
  releaseController (abortKeyOf imageId (id prompt)) ;;
  mret res.

(** [runSinglePrompt(prompt, imageId)] with nothing running in between. *)
Definition runSinglePrompt (prompt : Prompt) (imageId : string) : M (option AnalysisResult) :=
  n ← beginAttempt prompt imageId;
  settleAttempt prompt imageId (server n (attemptRequest prompt imageId)).

(** *** handlePromptCompletion (store.ts, 682-730) *)

Definition conditionIs (met : Condition) (c : Prompt) : bool :=
  match condition c with Some k => Condition_eqb k met | None => false end.

(** Line 688. *)
Definition conditionMet (answer : string) : Condition :=
  if includes "yes" answer then yes else no.

(** The filter of line 689. *)
Definition yesNoChildren (prompt : Prompt) (resultData : string) (s : AppState)
    (imageId : string) : list Prompt :=
  let answer := trim (toLowerCase resultData) in
  List.filter (λ c, parentIs (id prompt) c && conditionIs (conditionMet answer) c
                      && noHistory (imageResults s imageId) (id c))
              (prompts s).

(** The callback of lines 695-704. *)
Definition scoreChildRuns (prompt : Prompt) (score : float) (s : AppState)
    (imageId : string) (child : Prompt) : bool :=
  if negb (parentIs (id prompt) child) || hasHistory (imageResults s imageId) (id child)
  then false
  else
    match scoreConditionOperator child, scoreConditionValue child with
    | Some op, Some val =>
        match op with
        | above => PrimFloat.ltb val score
        | below => PrimFloat.ltb score val
        end
    | _, _ => false
    end.

Definition scoreChildren (prompt : Prompt) (score : float) (s : AppState)
    (imageId : string) : list Prompt :=
  List.filter (scoreChildRuns prompt score s imageId) (prompts s).

(** The filter of line 710. *)
Definition bboxChildren (prompt : Prompt) (s : AppState) (imageId : string) : list Prompt :=
  List.filter (λ c, parentIs (id prompt) c && noHistory (imageResults s imageId) (id c))
              (prompts s).

Definition isNull (v : JsValue) : bool :=
  match v with VNull => true | _ => false end.

(** The body of the loop of lines 718-728 for one child: the exception
    it ends with, if any. When a call rejects, [Promise.all] does, and
    the loading entry of the child is left as it is. *)
Definition fanOut (child : Prompt) (bboxes : list JsValue) (imageId : string)
  : M (option Thrown) :=
  updateResultHistory imageId (id child)
    (λ _, [{| promptId := id child; status := loading; data := VArray []; errorMessage := None |}]) ;;
  outcomes ← mapAll (λ bbox, fetchBboxChildAnalysis child bbox imageId) bboxes;
  match allFulfilled outcomes with
  | inl e => mret (Some e)
  | inr resolvedChildResults =>
      let finalChildData := List.filter (λ r, negb (isNull r)) resolvedChildResults in
      updateResultHistory imageId (id child) (λ _, [successResult child (VArray finalChildData)]) ;;
      mret None
  end.

(** [handlePromptCompletion]: the exception it rejects with, if any.
    The three blocks of the source are guarded by the type of the
    prompt, so at most one of them runs; the children are chosen from
    the store as it is when the function is entered. An attempt
    returns a result or nothing; a fan-out that throws ends the loop
    over the children. *)
Definition handlePromptCompletion (prompt : Prompt) (result : AnalysisResult)
    (imageId : string) : M (option Thrown) :=
  s0 ← getState;
  match type prompt, status result, data result with
  | ResultType.YesNo, success, VString resultData =>
      forEach (yesNoChildren prompt resultData s0 imageId)
              (λ child, runSinglePrompt child imageId ;; mret tt) ;;
      mret None
  | ResultType.Score, success, VNumber score =>
      forEach (scoreChildren prompt score s0 imageId)
              (λ child, runSinglePrompt child imageId ;; mret tt) ;;
      mret None
  | ResultType.BoundingBox, success, VArray (bbox :: rest) =>
      forEachTry (bboxChildren prompt s0 imageId)
                 (λ child, fanOut child (bbox :: rest) imageId)
  | _, _, _ => mret None
  end.

(** *** runSingleAnalysisFlow (store.ts, 360-407) *)

(** [selectedImageId], when it is truthy. *)
Definition selectedImage (s : AppState) : option string :=
  match selectedImageId s with
  | Some i => if truthy i then Some i else None
  | None => None
  end.

(** [findDescendants] (lines 365-372), the ids in the order they are
    added. The recursion of the source has no bound: it returns when
    no chain of children from [parent] comes back to an id it has
    passed, and otherwise calls itself until the stack overflows.
    [fuel] is the depth of calls allowed, and [None] says that it was
    used up. *)
Fixpoint findDescendants (fuel : nat) (ps : list Prompt) (parent : string)
  : option (list string) :=
  match fuel with
  | 0 => None
  | S fuel' =>
      (λ found, List.concat found) <$>
        mapM (λ p, if parentIs parent p
                   then cons (id p) <$> findDescendants fuel' ps (id p)
                   else Some [])
             ps
  end.

(** The call of line 373. A chain of children without a repeated id is
    not longer than the list of prompts, so one call more than there
    are prompts is deep enough for every recursion that returns
    ([findDescendants_enough_fuel]); a recursion that needs more never
    returns, and the source throws a [RangeError]. *)
Definition descendantsOf (ps : list Prompt) (parent : string) : option (list string) :=
  findDescendants (S (length ps)) ps parent.

Definition stackOverflow : Thrown := RangeError "Maximum call stack size exceeded".

(** The update of lines 375-399: the histories of the descendants are
    deleted for the image. *)
Definition clearHistories (imageId : string) (descendantsIds : list string)
    (s : AppState) : AppState :=
  match descendantsIds, results s !! imageId with
  | _ :: _, Some currentImageResults =>
      set_results (λ r, <[imageId := foldr delete currentImageResults descendantsIds]> r) s
  | _, _ => s
  end.

(** [runSingleAnalysisFlow]: the exception it rejects with, if any. *)
Definition runSingleAnalysisFlow (prompt : Prompt) : M (option Thrown) :=
  s ← getState;
  match selectedImage s with
  | None => mret None
  | Some imageId =>
      match descendantsOf (prompts s) (id prompt) with
      | None => mret (Some stackOverflow)
      | Some descendantsIds =>
          setState (clearHistories imageId descendantsIds) ;;
          result ← runSinglePrompt prompt imageId;
          match result with
          | Some r => handlePromptCompletion prompt r imageId
          | None => mret None
          end
      end
  end.

(** *** runPendingAnalysis (store.ts, 409-457) *)

(** [Map.prototype.set]: a key already present keeps its place. *)
Fixpoint mapSet (key : string) (v : Prompt) (m : list (string * Prompt))
  : list (string * Prompt) :=
  match m with
  | [] => [(key, v)]
  | (k, w) :: rest =>
      if String.eqb k key then (k, v) :: rest else (k, w) :: mapSet key v rest
  end.

Definition allPendingPrompts (s : AppState) (imageId : string) : list Prompt :=
  List.filter (λ p, noHistory (imageResults s imageId) (id p)) (prompts s).

Definition latestIsSuccess (parentResultHistory : list AnalysisResult) : bool :=
  match last parentResultHistory with
  | Some latestParentResult =>
      match status latestParentResult with success => true | _ => false end
  | None => false
  end.

(** The exception of line 433, where the latest entry is read off an
    inherited function: it has a [length] and no elements. *)
Definition statusOfUndefined : Thrown :=
  TypeError "Cannot read properties of undefined (reading 'status')".

(** The callback of lines 428-439 for one pending child: the tasks
    after it, or the exception it throws. *)
Definition queueParent (s : AppState) (imageId : string)
    (tasks : list (string * Prompt)) (child : Prompt) : Thrown + list (string * Prompt) :=
  match parentId child with
  | Some pid =>
      if truthy pid then
        match List.find (λ p, String.eqb (id p) pid) (prompts s) with
        | Some parentPrompt =>
            match readSlot (imageResults s imageId) pid with
            | Own parentResultHistory =>
                inr (if latestIsSuccess parentResultHistory
                     then mapSet (id parentPrompt) parentPrompt tasks else tasks)
            | Inherited (Some (S _)) => inl statusOfUndefined
            | _ => inr tasks
            end
        | None => inr tasks
        end
      else inr tasks
  | None => inr tasks
  end.

(** [children.forEach(queueParent)], which an exception leaves. *)
Fixpoint queueParents (s : AppState) (imageId : string) (children : list Prompt)
    (tasks : list (string * Prompt)) : Thrown + list (string * Prompt) :=
  match children with
  | [] => inr tasks
  | child :: rest =>
      match queueParent s imageId tasks child with
      | inl e => inl e
      | inr tasks' => queueParents s imageId rest tasks'
      end
  end.

(** [tasksToRun] (lines 420-439). *)
Definition tasksToRun (s : AppState) (imageId : string) : Thrown + list (string * Prompt) :=
  let pending := allPendingPrompts s imageId in
  let independent :=
    foldl (λ tasks p, mapSet (id p) p tasks) []
          (List.filter (λ p, negb (hasParent p)) pending) in
  queueParents s imageId (List.filter hasParent pending) independent.

(** [Array.from(tasksToRun.values())]; no task is run when collecting
    them throws. *)
Definition taskList (s : AppState) (imageId : string) : list Prompt :=
  match tasksToRun s imageId with
  | inr tasks => snd <$> tasks
  | inl _ => []
  end.

(** [runPendingAnalysis] with the loop of [runTasks], whose promise it
    does not await: the exception thrown while the tasks are
    collected, or the one the loop rejects with, if any. A flow that
    rejects ends the loop. *)
Definition runPendingAnalysis : M (option Thrown) :=
  s ← getState;
  match selectedImage s with
  | None => mret None
  | Some imageId =>
      match tasksToRun s imageId with
      | inl e => mret (Some e)
      | inr tasks => forEachTry (snd <$> tasks) runSingleAnalysisFlow
      end
  end.

(** *** deletePrompt (store.ts, 238-271) *)

Definition idsToDelete (s : AppState) (pid : string) : list string :=
  pid :: (id <$> List.filter (parentIs pid) (prompts s)).

Definition inIds (ids : list string) (k : string) : bool :=
  existsb (String.eqb k) ids.

(** [confirmed] is the answer [window.confirm] gives when it is asked. *)
Definition deletePrompt (confirmed : bool) (pid : string) : M unit :=
  setState (λ s,
    match List.filter (parentIs pid) (prompts s), confirmed with
    | _ :: _, false => s
    | _, _ =>
        let ids := idsToDelete s pid in
        set_prompts (List.filter (λ p, negb (inIds ids (id p))))
          (set_results (λ r, (λ imageResults, foldr delete imageResults ids) <$> r) s)
    end).
End Engine.


(** ** The actions of the store besides the engine (store.ts) *)

(** *** Editing the prompt list (lines 210-296) *)

(** [(min + max) / 2] over [parentPrompt.scoreRange || [0, 10]]. *)
Definition midpoint (scoreRange : option (float * float)) : float :=
  let '(min, max) := default (0, 10)%float scoreRange in ((min + max) / 2)%float.

(** [addPrompt] (lines 210-230). [now] is the reading of [Date.now()],
    and [parentScoreRange] the [scoreRange] of the parent prompt that
    is found, a field the record [Prompt] leaves out. *)
Definition addPrompt (now : N) (parentId : option string)
    (parentScoreRange : option (float * float)) : M unit :=
  setState (λ s,
    let parentPrompt :=
      match parentId with
      | Some pid => List.find (λ p, String.eqb (id p) pid) (prompts s)
      | None => None
      end in
    let newPrompt :=
      match parentId, parentPrompt with
      | Some pid, Some parentPrompt =>
          if truthy pid then
            {| id := pretty now; text := ""; type := ResultType.Text;
               parentId := Some pid;
               condition :=
                 match type parentPrompt with ResultType.YesNo => Some yes | _ => None end;
               scoreConditionOperator :=
                 match type parentPrompt with ResultType.Score => Some above | _ => None end;
               scoreConditionValue :=
                 match type parentPrompt with
                 | ResultType.Score => Some (midpoint parentScoreRange)
                 | _ => None
                 end |}
          else
            {| id := pretty now; text := ""; type := ResultType.Text; parentId := None;
               condition := None; scoreConditionOperator := None;
               scoreConditionValue := None |}
      | _, _ =>
          {| id := pretty now; text := ""; type := ResultType.Text; parentId := None;
             condition := None; scoreConditionOperator := None;
             scoreConditionValue := None |}
      end in
    set_prompts (λ prompts, prompts ++ [newPrompt]) s).

(** [Partial<Prompt>]: the keys that are present, with their values. *)
Record PartialPrompt := {
  new_id : option string;
  new_text : option string;
  new_type : option ResultType.t;
  new_parentId : option (option string);
  new_condition : option (option Condition);
  new_scoreConditionOperator : option (option ScoreConditionOperator);
  new_scoreConditionValue : option (option float);
}.

(** [{ ...p, ...newPrompt }] *)
Definition spread (p : Prompt) (newPrompt : PartialPrompt) : Prompt :=
  {| id := default (id p) (new_id newPrompt);
     text := default (text p) (new_text newPrompt);
     type := default (type p) (new_type newPrompt);
     parentId := default (parentId p) (new_parentId newPrompt);
     condition := default (condition p) (new_condition newPrompt);
     scoreConditionOperator :=
       default (scoreConditionOperator p) (new_scoreConditionOperator newPrompt);
     scoreConditionValue :=
       default (scoreConditionValue p) (new_scoreConditionValue newPrompt) |}.

(** [updatePrompt] (lines 232-236) *)
Definition updatePrompt (pid : string) (newPrompt : PartialPrompt) : M unit :=
  setState (set_prompts
    (List.map (λ p, if String.eqb (id p) pid then spread p newPrompt else p))).

(** [l.findIndex(f)]; [None] stands for -1. *)
Fixpoint findIndex {A} (f : A → bool) (l : list A) : option nat :=
  match l with
  | [] => None
  | x :: rest => if f x then Some 0 else S <$> findIndex f rest
  end.

(** [dropPrompt] (lines 273-294): the group of a dragged independent
    prompt, the prompt and its direct children, is cut out of the list
    and spliced in before the target. *)
Definition dropPrompt (draggedId targetId : string) : M unit :=
  setState (λ s,
    match List.find (λ p, String.eqb (id p) draggedId) (prompts s) with
    | None => s
    | Some draggedParent =>
        if hasParent draggedParent then s
        else
          let draggedChildren := List.filter (parentIs draggedId) (prompts s) in
          let draggedGroup := draggedParent :: draggedChildren in
          let draggedGroupIds := id <$> draggedGroup in
          let remainingPrompts :=
            List.filter (λ p, negb (inIds draggedGroupIds (id p))) (prompts s) in
          match findIndex (λ p, String.eqb (id p) targetId) remainingPrompts with
          | None => s
          | Some targetIndex =>
              set_prompts (λ _, take targetIndex remainingPrompts ++ draggedGroup
                                  ++ drop targetIndex remainingPrompts) s
          end
    end).

(** *** The images (lines 129-208) *)

Module File.
(** The part of a [File] the store reads; [lastModified] counts the
    milliseconds since the epoch and is negative for a time before
    it. *)
Record t := { name : string; lastModified : Z }.
End File.

Module Image.
(** [ImageObject]; the object URL of the image, which is created and
    revoked with it, is left out. *)
Record t := { id : string; file : File.t }.
End Image.

(** [{ id: `${file.name}-${file.lastModified}`, file, url }] *)
Definition imageObject (file : File.t) : Image.t :=
  {| Image.id := File.name file +:+ "-" +:+ pretty (File.lastModified file);
     Image.file := file |}.

(** The store with the image state next to the part the engine works
    on; [imageBase64s] and [overlayVisibility], which the actions clean
    up along with [results], are left out with the display state. *)
Record Workspace := {
  store : AppState;
  images : list Image.t;
  analysisStates : gmap string AnalysisStatus;
}.

Definition set_selectedImageId (f : option string → option string) (s : AppState)
  : AppState :=
  {| prompts := prompts s; selectedImageId := f (selectedImageId s);
     results := results s;
     abortControllers := abortControllers s; abortedSignals := abortedSignals s;
     controllersCreated := controllersCreated s; requests := requests s |}.

(** [reset] (lines 191-208). Its first branch is empty, so it clears
    the images and their results unless there is none of either. *)
Definition reset (silent : bool) (w : Workspace) : Workspace :=
  let cleared :=
    {| store := set_selectedImageId (λ _, None) (set_results (λ _, ∅) (store w));
       images := []; analysisStates := ∅ |} in
  if negb silent && negb (bool_decide (results (store w) = ∅)) then cleared
  else if bool_decide (images w = []) && bool_decide (results (store w) = ∅) then w
  else cleared.

(** [setInitialImages] (lines 129-142) *)
Definition setInitialImages (files : list File.t) (w : Workspace) : Workspace :=
  let w := reset true w in
  let newImageObjects := imageObject <$> files in
  let newAnalysisStates : gmap string AnalysisStatus :=
    foldl (λ m img, <[Image.id img := idle]> m) ∅ newImageObjects in
  {| store :=
       match newImageObjects with
       | first :: _ => set_selectedImageId (λ _, Some (Image.id first)) (store w)
       | [] => store w
       end;
     images := newImageObjects; analysisStates := newAnalysisStates |}.

(** [!selectedImageId] *)
Definition noSelection (s : AppState) : bool :=
  match selectedImageId s with Some i => negb (truthy i) | None => true end.

(** [appendImages] (lines 144-163) *)
Definition appendImages (files : list File.t) (w : Workspace) : Workspace :=
  let existingIds := Image.id <$> images w in
  let newImageObjects :=
    List.filter (λ imgObj, negb (inIds existingIds (Image.id imgObj)))
                (imageObject <$> files) in
  match newImageObjects with
  | [] => w
  | first :: _ =>
      {| store :=
           if noSelection (store w)
           then set_selectedImageId (λ _, Some (Image.id first)) (store w)
           else store w;
         images := images w ++ newImageObjects;
         analysisStates :=
           foldl (λ m img, <[Image.id img := idle]> m) (analysisStates w) newImageObjects |}
  end.

(** [removeImage] (lines 165-187) *)
Definition removeImage (imageIdToRemove : string) (w : Workspace) : Workspace :=
  let remainingImages :=
    List.filter (λ img, negb (String.eqb (Image.id img) imageIdToRemove)) (images w) in
  {| store :=
       set_selectedImageId
         (λ selectedImageId,
            match selectedImageId with
            | Some i =>
                if String.eqb i imageIdToRemove
                then match remainingImages with
                     | first :: _ => Some (Image.id first)
                     | [] => None
                     end
                else selectedImageId
            | None => None
            end)
         (set_results (delete imageIdToRemove) (store w));
     images := remainingImages;
     analysisStates := delete imageIdToRemove (analysisStates w) |}.

(** [setSelectedImageId] (line 189) *)
Definition setSelectedImageId (i : option string) (w : Workspace) : Workspace :=
  {| store := set_selectedImageId (λ _, i) (store w);
     images := images w; analysisStates := analysisStates w |}.

Section Actions.

Context {platform : Platform}.

(** *** runAnalysis (lines 732-760) *)

(** The loop of lines 747-753 over the independent prompts, for one
    image: a prompt that has a history is passed over; [imageHadError]
    is returned, or the exception that [handlePromptCompletion] rejects
    with, which ends the loop. *)
Fixpoint runIndependent (independentPrompts : list Prompt) (imageId : string)
    (imageHadError : bool) : M (Thrown + bool) :=
  match independentPrompts with
  | [] => mret (inr imageHadError)
  | p :: rest =>
      s ← getState;
      if settled s imageId (id p) then runIndependent rest imageId imageHadError
      else
        result ← runSinglePrompt p imageId;
        match result with
        | Some r =>
            thrown ← handlePromptCompletion p r imageId;
            match thrown with
            | Some e => mret (inl e)
            | None =>
                runIndependent rest imageId
                  (match status r with error => true | _ => imageHadError end)
            end
        | None => runIndependent rest imageId imageHadError
        end
  end.

(** [runAnalysis]: the workspace it leaves. An exception ends it in
    the middle of an image, whose analysis state stays [loading]; the
    images after it are not analysed. *)
Fixpoint runAnalysis (targetPrompts : list Prompt) (imageIds : list string)
    (w : Workspace) : Workspace :=
  match imageIds with
  | [] => w
  | imageId :: rest =>
      let '(outcome, s) :=
        runIndependent (List.filter (λ p, negb (hasParent p)) targetPrompts)
          imageId false (store w) in
      match outcome with
      | inl _ =>
          {| store := s; images := images w;
             analysisStates := <[imageId := loading]> (analysisStates w) |}
      | inr imageHadError =>
          runAnalysis targetPrompts rest
            {| store := s; images := images w;
               analysisStates :=
                 <[imageId := if imageHadError then error else success]>
                   (<[imageId := loading]> (analysisStates w)) |}
      end
  end.

(** [runAllImagesAnalysis] (lines 459-463) *)
Definition runAllImagesAnalysis (w : Workspace) : Workspace :=
  runAnalysis (prompts (store w)) (Image.id <$> images w) w.

(** *** generatePrompts (api.ts, 326-424) *)

(** [typeof v === 'string'], for the value of a property that may be
    absent. *)
Definition isString (v : option JsValue) : bool :=
  match v with Some (VString _) => true | _ => false end.

(** [typeof p.text === 'string' && typeof p.type === 'string']; reading
    a property of [null] throws, which [None] stands for. *)
Definition wellShaped (p : JsValue) : option bool :=
  match p with
  | VNull => None
  | VObject fields => Some (isString (getField "text" fields)
                            && isString (getField "type" fields))
  | _ => Some false
  end.

(** [parsedPrompts.every(...)], which stops at the first item that
    fails. *)
Fixpoint everyShaped (parsedPrompts : list JsValue) : Thrown + bool :=
  match parsedPrompts with
  | [] => inr true
  | p :: rest =>
      match wellShaped p with
      | None => inl (TypeError "Cannot read properties of null (reading 'text')")
      | Some false => inr false
      | Some true => everyShaped rest
      end
  end.

(** [{ ...obj, [key]: v }]: a key that is present keeps its place. *)
Fixpoint setField (key : string) (v : JsValue) (fields : list (string * JsValue))
  : list (string * JsValue) :=
  match fields with
  | [] => [(key, v)]
  | (k, w) :: rest =>
      if String.eqb k key then (k, v) :: rest else (k, w) :: setField key v rest
  end.

(** [{ ...p, id: `${Date.now()}-${index}` }] *)
Definition withId (now : nat → N) (index : nat) (p : JsValue) : JsValue :=
  let generatedId := VString (pretty (now index) +:+ "-" +:+ pretty index) in
  match p with
  | VObject fields => VObject (setField "id" generatedId fields)
  | _ => VObject [("id", generatedId)]
  end.

(** [generatePrompts] once its [fetch] has come to [o]: the prompts
    returned, or the exception thrown. [errorBody] is the text of a
    response that is not a success, and [now index] the reading of
    [Date.now()] when the item at [index] is given its id. *)
Definition generatePrompts (errorBody : string) (now : nat → N) (o : FetchOutcome)
  : Thrown + list JsValue :=
  match o with
  | Rejected e => inl e
  | NotOk st =>
      inl (Error ("API request failed with status " +:+ pretty st +:+ ": " +:+ errorBody))
  | EventStream chunks => inl (SyntaxError (notJsonMessage chunks))
  | Completion finish_reason responseContent =>
      if String.eqb finish_reason "length" then
        inl (Error ("Response truncated: The model hit the maximum token limit. "
                      +:+ "Consider increasing 'Max Tokens' in advanced settings."))
      else
        match JSON_parse (trim (removeFences (stripThinking responseContent))) with
        | None => inl (Error "The AI returned an invalid format. Please try again.")
        | Some (VArray parsedPrompts) =>
            match everyShaped parsedPrompts with
            | inl e => inl e
            | inr false => inl (Error "The AI returned data in an unexpected structure.")
            | inr true => inr (imap (withId now) parsedPrompts)
            end
        | Some _ => inl (Error "The AI returned data in an unexpected structure.")
        end
  end.

End Actions.

(** ** The messages of a request (store.ts, 538-555; api.ts, 105-123) *)

Inductive Role := user | assistant.

(** The content of a message: a text, or the two parts [text] and
    [image_url]. *)
Inductive MessageContent :=
| Plain (text : string)
| TextAndImage (text : string) (url : string).

Record Message := {
  role : Role;
  content : MessageContent;
}.

(** A turn of [conversationHistory]. *)
Record Turn := {
  question : string;
  answer : string;
}.

(** The callback of [conversationHistory.forEach]: the question of the
    first turn is left out when it is the text of the prompt, which the
    first message already carries. *)
Definition turnMessages (fullPromptText : string) (index : nat) (turn : Turn)
  : list Message :=
  (if (index =? 0) && String.eqb (question turn) fullPromptText then []
   else [{| role := user; content := Plain (question turn) |}])
  ++ [{| role := assistant; content := Plain (answer turn) |}].

(** [messages], as [getPayload] and [fetchAnalysisStream] both build
    it. *)
Definition chatMessages (fullPromptText imageBase64 : string)
    (conversationHistory : list Turn) (followUpQuestion : option string) : list Message :=
  {| role := user; content := TextAndImage fullPromptText imageBase64 |}
  :: match followUpQuestion with
     | Some q =>
         if truthy q then
           List.concat (imap (turnMessages fullPromptText) conversationHistory)
           ++ [{| role := user; content := Plain q |}]
         else []
     | None => []
     end.

(** ** Concrete prompts, stores and endpoints used by the examples *)

Module Scenario.

Definition mkPrompt (i : string) (ty : ResultType.t) (parent : option string) : Prompt :=
  {| id := i; text := "?"; type := ty; parentId := parent; condition := None;
     scoreConditionOperator := None; scoreConditionValue := None |}.

Definition onCondition (k : Condition) (p : Prompt) : Prompt :=
  {| id := id p; text := text p; type := type p; parentId := parentId p;
     condition := Some k; scoreConditionOperator := scoreConditionOperator p;
     scoreConditionValue := scoreConditionValue p |}.

Definition onScore (op : ScoreConditionOperator) (v : float) (p : Prompt) : Prompt :=
  {| id := id p; text := text p; type := type p; parentId := parentId p;
     condition := condition p; scoreConditionOperator := Some op;
     scoreConditionValue := Some v |}.

(** A store with the given prompts, the image [img] selected and no
    result yet. *)
Definition freshStore (ps : list Prompt) : AppState :=
  {| prompts := ps; selectedImageId := Some "img"; results := ∅;
     abortControllers := ∅; abortedSignals := []; controllersCreated := 0;
     requests := [] |}.

(** The store [s] with the history [h] recorded for [promptId] on
    [img]. *)
Definition withHistory (promptId : string) (h : list AnalysisResult) (s : AppState)
  : AppState :=
  set_results (λ r, <[ "img" := <[promptId := h]> (default ∅ (r !! "img")) ]> r) s.

Definition succeeded (promptId : string) (v : JsValue) : AnalysisResult :=
  {| promptId := promptId; status := success; data := v; errorMessage := None |}.

(** The message of V8 for a body that starts with a frame of an event
    stream. *)
Definition v8NotJson : string :=
  "Unexpected token 'd', "
    +:+ String "034" ("data: {" +:+ String "034" ("ch" +:+ String "034" "... is not valid JSON")).

(** A platform with the given endpoint; its [parseFloat] reads every
    numeral as 4 and its [JSON.parse] the text of an empty array
    only. *)
Definition platformOf (srv : nat → Request → FetchOutcome) : Platform :=
  {| parseFloat := λ _, 4%float;
     JSON_parse := λ t, if String.eqb t "[]" then Some (VArray []) else None;
     notJsonMessage := λ _, v8NotJson;
     server := srv |}.

(** An endpoint that answers every request with the same completion. *)
Definition always (content : string) : Platform :=
  platformOf (λ _ _, Completion "stop" content).

(** The deltas of the specification's decoder example. *)
Definition splitThink : list string :=
  ["<thi"; "nk>hidden reasoning</thi"; "nk> Hello"; ", world"].

(** A Yes/No parent with one child per answer. *)
Definition animals : Prompt := mkPrompt "yesno-1" ResultType.YesNo None.
Definition countThem : Prompt :=
  onCondition yes (mkPrompt "child-1" ResultType.Number (Some "yesno-1")).
Definition whyNot : Prompt :=
  onCondition no (mkPrompt "child-2" ResultType.YesNo (Some "yesno-1")).

(** A yes-child of the parent whose id is the name of a property that
    every plain object inherits. *)
Definition heir : Prompt :=
  onCondition yes (mkPrompt "constructor" ResultType.YesNo (Some "yesno-1")).

(** A chain of three prompts: parent, child, grandchild. *)
Definition species : Prompt :=
  onCondition yes (mkPrompt "grandchild-1" ResultType.YesNo (Some "child-1")).

(** Two prompts each of which names the other as its parent. *)
Definition cycle : list Prompt :=
  [mkPrompt "a" ResultType.YesNo (Some "b"); mkPrompt "b" ResultType.YesNo (Some "a")].

(** A score parent with a child on each side of 5. *)
Definition quality : Prompt := mkPrompt "2" ResultType.Score None.
Definition praise : Prompt :=
  onScore above 5%float (mkPrompt "hi" ResultType.YesNo (Some "2")).
Definition blame : Prompt :=
  onScore below 5%float (mkPrompt "lo" ResultType.YesNo (Some "2")).

(** A detector with one fan-out child, and two detections. *)
Definition detect : Prompt := mkPrompt "det" ResultType.BoundingBox None.
Definition describe : Prompt := mkPrompt "desc" ResultType.YesNo (Some "det").
Definition cat : JsValue := BoundingBox [10; 20; 300; 400]%float "cat".
Definition dog : JsValue := BoundingBox [500; 20; 900; 400]%float "dog".

(** An endpoint that refuses the call about the dog and answers the
    others. *)
Definition dogFails : Platform :=
  platformOf (λ _ rq,
    match rq_bbox rq with
    | Some (VObject [_; (_, VString "dog")]) => NotOk 500
    | _ => Completion "stop" "Yes"
    end).

(** The store after all pending prompts were run once for [img], with
    an endpoint that answers Yes: the parent and its yes-child have a
    result, the no-child has none. *)
Definition afterFirstRun : AppState :=
  stateAfter (@runPendingAnalysis (always "Yes")) (freshStore [animals; countThem; whyNot]).

Definition afterSecondRun : AppState :=
  stateAfter (@runPendingAnalysis (always "Yes")) afterFirstRun.

(** A parent and its two children, each with a result for [img]. *)
Definition familyDone : AppState :=
  withHistory "child-2" [succeeded "child-2" (VString "No")]
    (withHistory "child-1" [succeeded "child-1" (VNumber 2)]
       (withHistory "yesno-1" [succeeded "yesno-1" (VString "Yes")]
          (freshStore [animals; countThem; whyNot]))).

(** A parent, its child and its grandchild, each with a result. *)
Definition chainDone : AppState :=
  withHistory "grandchild-1" [succeeded "grandchild-1" (VString "Yes")]
    (withHistory "child-1" [succeeded "child-1" (VNumber 2)]
       (withHistory "yesno-1" [succeeded "yesno-1" (VString "Yes")]
          (freshStore [animals; countThem; species]))).

(** A score parent whose above-child already has a result. *)
Definition praised : AppState :=
  withHistory "hi" [succeeded "hi" (VString "Yes")] (freshStore [quality; praise; blame]).

End Scenario.

(** ** Concrete galleries, replies and conversations used by the examples *)

Module Gallery.

Import Scenario.


Definition failed (promptId : string) (msg : string) : AnalysisResult :=
  {| promptId := promptId; status := error; data := VNull; errorMessage := Some msg |}.

(** Two parents with two children each. *)
Definition forest : list Prompt := [animals; countThem; whyNot; quality; praise; blame].

(** An endpoint that streams the same deltas for every request, one
    that cuts every completion short, and one that refuses every
    request. *)
Definition streaming (deltas : list string) : Platform :=
  platformOf (λ _ _, deltaFrames deltas).



(** The store of [img] where the parent of the family failed. *)
Definition parentFailed : AppState :=
  withHistory "yesno-1" [failed "yesno-1" "API request failed with status 500"]
    (freshStore [animals; countThem; whyNot]).

(** Two files, a workspace without image, and the gallery of the first
    file. *)
Definition photo : File.t := {| File.name := "cat.png"; File.lastModified := 1700000000000 |}.
Definition scan : File.t := {| File.name := "scan.png"; File.lastModified := 1700000000001 |}.

Definition emptyWorkspace : Workspace :=
  {| store := {| prompts := forest; selectedImageId := None; results := ∅;
                 abortControllers := ∅; abortedSignals := []; controllersCreated := 0;
                 requests := [] |};
     images := []; analysisStates := ∅ |}.

Definition gallery : Workspace := setInitialImages [photo] emptyWorkspace.

(** A workspace whose store holds a result of its only prompt for
    [img]. *)
Definition analysed : Workspace :=
  {| store := withHistory "yesno-1" [succeeded "yesno-1" (VString "Yes")]
                (freshStore [animals]);
     images := []; analysisStates := ∅ |}.

(** A reply of the model to a request for prompts, and a platform whose
    [JSON.parse] reads it. *)
Definition quoted (t : string) : string := String "034" (t +:+ String "034" "").

Definition suggestion : string :=
  "[{" +:+ quoted "text" +:+ ": " +:+ quoted "Is there a dog?" +:+ ", "
       +:+ quoted "type" +:+ ": " +:+ quoted "yes/no" +:+ "}]".

Definition suggested : JsValue :=
  VObject [("text", VString "Is there a dog?"); ("type", VString "yes/no")].

Definition suggester : Platform :=
  {| parseFloat := λ _, 4%float;
     JSON_parse := λ t, if String.eqb t suggestion then Some (VArray [suggested]) else None;
     notJsonMessage := λ _, v8NotJson;
     server := λ _ _, Completion "stop" suggestion |}.

(** The first turn of a conversation about [caption]. *)
Definition firstTurn : Turn := {| question := "What is it?"; answer := "A dog." |}.

End Gallery.

(** ** Vocabulary of the statements *)

(** The requests issued between two stores, and the prompts they are
    for. *)
Definition issued (s s' : AppState) : list Request :=
  drop (length (requests s)) (requests s').

Definition executed (s s' : AppState) : list Prompt := rq_prompt <$> issued s s'.

(** From [s] to [s'] the prompts and the selection stay, exactly [rqs]
    is issued, and no history changes except, for the image, those of
    the prompts listed in [touched]. *)
Record Effect (imageId : string) (touched : list string) (rqs : list Request)
    (s s' : AppState) : Prop := {
  eff_prompts : prompts s' = prompts s;
  eff_selected : selectedImageId s' = selectedImageId s;
  eff_requests : requests s' = requests s ++ rqs;
  eff_frame : ∀ i p, i ≠ imageId ∨ p ∉ touched → historyOf s' i p = historyOf s i p;
}.

(** The message of the exception a fan-out call ends with, when it
    fails: the [fetch] rejects, the status is not a success, or the body
    is not JSON. *)
Definition failureOf {platform : Platform} (o : FetchOutcome) : option string :=
  match o with
  | Rejected e => Some (messageText e)
  | NotOk st => Some ("API failed: " +:+ pretty st)
  | EventStream chunks => Some (notJsonMessage chunks)
  | Completion _ _ => None
  end.

(** No detection of the array is [null]. *)
Definition noNull (bboxes : list JsValue) : bool := forallb (λ bbox, negb (isNull bbox)) bboxes.

(** The [resultData] of the fan-out calls of [child] over detections
    none of which is [null], when [n] requests were issued before: a
    detection with a [box] takes the next request, one without ends
    with a [TypeError] and takes none. *)
Fixpoint fanOutData {platform : Platform} (child : Prompt) (imageId : string)
    (n : nat) (bboxes : list JsValue) : list JsValue :=
  match bboxes with
  | [] => []
  | bbox :: rest =>
      if hasBox bbox
      then bboxChildData child (server n (childRequest child bbox imageId))
             :: fanOutData child imageId (S n) rest
      else VString ("Error: " +:+ joinMessage (boxOf bbox)) :: fanOutData child imageId n rest
  end.

(** The number of the request of the fan-out call for the [k]-th object,
    when [n] requests were issued before the fan-out. *)
Definition callNumber (n : nat) (bboxes : list JsValue) (k : nat) : nat :=
  n + length (List.filter hasBox (take k bboxes)).

(** The requests of one fan-out. *)
Definition fanOutRequests (child : Prompt) (imageId : string) (bboxes : list JsValue)
  : list Request :=
  (λ bbox, childRequest child bbox imageId) <$> List.filter hasBox bboxes.

(** What the [fetch] of a call rejects with once a later call for the
    same pair has aborted its controller: the reason handed to [abort]
    at line 517, a string, which has neither [name] nor [message]. *)
Definition newRequestInitiated : Thrown := {| name := None; message := None |}.

(** Two calls of [runSinglePrompt] for one pair, the second made while
    the first is suspended on its [fetch]: the second call aborts the
    controller of the first, whose [fetch] then rejects; the first call
    settles, through its [catch] and [finally], before the request of
    the second is answered. The results of the two calls. *)
Definition runTwice {platform : Platform} (prompt : Prompt) (imageId : string)
  : M (option AnalysisResult * option AnalysisResult) :=
  beginAttempt prompt imageId ;;
  n ← beginAttempt prompt imageId;
  first ← settleAttempt prompt imageId (Rejected newRequestInitiated);
  second ← settleAttempt prompt imageId (server n (attemptRequest prompt imageId));
  mret (first, second).

(** The [fetch] does not end with an [AbortError]. *)
Definition notAborted (o : FetchOutcome) : bool :=
  match o with
  | Rejected e => negb (isAbortError e)
  | EventStream chunks =>
      forallb (λ c, match c with ChunkFail e => negb (isAbortError e) | _ => true end) chunks
  | _ => true
  end.

(** A chain of children from [parent]: each prompt of the path is a
    prompt of the list, and its parent is the prompt before it. *)
Fixpoint chain (ps : list Prompt) (parent : string) (path : list Prompt) : Prop :=
  match path with
  | [] => True
  | p :: rest => p ∈ ps ∧ parentId p = Some parent ∧ chain ps (id p) rest
  end.

(** Where a chain from [parent] ends. *)
Fixpoint chainEnd (parent : string) (path : list Prompt) : string :=
  match path with
  | [] => parent
  | p :: rest => chainEnd (id p) rest
  end.

(** No character of [s] is a digit. *)
Fixpoint noDigit (s : string) : bool :=
  match s with
  | EmptyString => true
  | String c s' => negb (isDigit c) && noDigit s'
  end.

(** *** Vocabulary of the further properties *)

(** What holds of every entry of the task map: its key is the id of its
    prompt, and the prompt was queued for one of the two reasons. *)
Definition queued (s : AppState) (imageId : string) (p : Prompt) : Prop :=
  p ∈ prompts s
  ∧ ((hasParent p = false ∧ noHistory (imageResults s imageId) (id p) = true)
     ∨ (latestIsSuccess (historyOf s imageId (id p)) = true
        ∧ ∃ child, child ∈ prompts s ∧ noHistory (imageResults s imageId) (id child) = true
                   ∧ parentId child = Some (id p))).

Definition taskMap (s : AppState) (imageId : string) (m : list (string * Prompt)) : Prop :=
  NoDup (fst <$> m) ∧ ∀ k p, (k, p) ∈ m → k = id p ∧ queued s imageId p.

(** No history that holds an entry is emptied from [s] to [s']. *)
Definition keepsHistories (s s' : AppState) : Prop :=
  ∀ i p, historyOf s i p ≠ [] → historyOf s' i p ≠ [].

(** Every prompt that names a parent names, by an id that is not empty,
    an independent prompt of the list. *)
Definition flat (ps : list Prompt) : Prop :=
  ∀ c q, c ∈ ps → parentId c = Some q →
    q ≠ "" ∧ ∃ parent, parent ∈ ps ∧ id parent = q ∧ parentId parent = None.

(** The ids of the prompts are pairwise distinct, and the prompts form
    a forest of depth one. *)
Definition wellFormed (ps : list Prompt) : Prop := NoDup (id <$> ps) ∧ flat ps.

(** The parts of [dropPrompt]: the dragged prompt, its children, and
    the prompts outside the group. *)
Definition draggedGroup (ps : list Prompt) (draggedParent : Prompt) : list Prompt :=
  draggedParent :: List.filter (parentIs (id draggedParent)) ps.

Definition outsideGroup (ps : list Prompt) (draggedParent : Prompt) : list Prompt :=
  List.filter (λ p, negb (inIds (id <$> draggedGroup ps draggedParent) (id p))) ps.

(** The ids of the images of a workspace. *)
Definition imageIds (w : Workspace) : list string := Image.id <$> images w.

(** The selection, the results and the analysis states are about the
    images of the list: the selected image, if any, is listed, results
    are kept for listed images only, and the images that have an
    analysis state are the listed ones. *)
Definition consistent (w : Workspace) : Prop :=
  (∀ i, selectedImageId (store w) = Some i → i ∈ imageIds w)
  ∧ (∀ i, is_Some (results (store w) !! i) → i ∈ imageIds w)
  ∧ (∀ i, is_Some (analysisStates w !! i) ↔ i ∈ imageIds w).

(** The images [appendImages] adds. *)
Definition newImages (files : list File.t) (w : Workspace) : list Image.t :=
  List.filter (λ imgObj, negb (inIds (imageIds w) (Image.id imgObj))) (imageObject <$> files).

(** [p.id] *)
Definition idOf (p : JsValue) : option JsValue :=
  match p with VObject fields => getField "id" fields | _ => None end.

(** * Properties *)

(** ** Strings *)

Section StringFacts.

Lemma includes_unfold (p s : string) :
  includes p s =
    startsWith p s || match s with
                      | EmptyString => false
                      | String _ s' => includes p s'
                      end.
Proof.
  unfold includes. destruct s as [|c s']; cbn [indexOf];
    destruct (startsWith p _); try reflexivity.
  destruct (indexOf p s'); reflexivity.
Qed.

Lemma prefix_nil (s : string) : String.prefix EmptyString s = true.
Proof. destruct s; reflexivity. Qed.

Lemma prefix_cons (a c : ascii) (p s : string) :
  String.prefix (String a p) (String c s) =
    if Ascii.ascii_dec a c then String.prefix p s else false.
Proof. reflexivity. Qed.

Lemma startsWith_trimEnd (p s : string) :
  endsVisible p = true → startsWith p (trimEnd s) = startsWith p s.
Proof.
  unfold startsWith. revert p.
  induction s as [|c s IH]; intros p Hp; [reflexivity|].
  destruct p as [|a p]; [discriminate|].
  rewrite prefix_cons. cbn [trimEnd]. destruct p as [|b p].
  - cbn in Hp. rewrite prefix_nil.
    destruct (trimEnd s) eqn:He; [destruct (isWhiteSpace c) eqn:Hc|].
    + destruct (Ascii.ascii_dec a c) as [->|]; [|reflexivity].
      rewrite Hc in Hp. discriminate.
    + rewrite prefix_cons, prefix_nil. reflexivity.
    + rewrite prefix_cons, prefix_nil. reflexivity.
  - assert (Hp' : endsVisible (String b p) = true) by exact Hp.
    specialize (IH _ Hp').
    destruct (trimEnd s) eqn:He; [destruct (isWhiteSpace c)|].
    + rewrite <- IH. destruct (Ascii.ascii_dec a c); reflexivity.
    + rewrite prefix_cons, <- IH. reflexivity.
    + rewrite prefix_cons, IH. reflexivity.
Qed.

Lemma includes_trimEnd (p s : string) :
  endsVisible p = true → includes p (trimEnd s) = includes p s.
Proof.
  intros Hp. induction s as [|c s IH]; [reflexivity|].
  rewrite (includes_unfold p (String c s)).
  rewrite <- (startsWith_trimEnd p (String c s) Hp), <- IH.
  cbn [trimEnd]. destruct (trimEnd s) eqn:He; [destruct (isWhiteSpace c)|].
  - rewrite (includes_unfold p EmptyString).
    destruct (startsWith p EmptyString); reflexivity.
  - rewrite (includes_unfold p (String c EmptyString)). reflexivity.
  - rewrite (includes_unfold p (String c (String a s0))). reflexivity.
Qed.

Lemma includes_trimStart (a : ascii) (p s : string) :
  isWhiteSpace a = false →
  includes (String a p) (trimStart s) = includes (String a p) s.
Proof.
  intros Ha. induction s as [|c s IH]; [reflexivity|].
  cbn [trimStart]. destruct (isWhiteSpace c) eqn:Hc; [|reflexivity].
  rewrite IH, (includes_unfold _ (String c s)).
  unfold startsWith. cbn [String.prefix].
  destruct (Ascii.ascii_dec a c) as [->|]; [congruence|reflexivity].
Qed.

(** Trimming does not change whether ["yes"] occurs. *)
Lemma includes_yes_trim (s : string) : includes "yes" (trim s) = includes "yes" s.
Proof.
  unfold trim. rewrite includes_trimEnd by reflexivity.
  apply includes_trimStart. reflexivity.
Qed.

End StringFacts.

(** ** Numbers *)

Section FloatFacts.

Lemma SFcompare_Eq_sym (x y : spec_float) :
  SFcompare x y = Some Eq → SFcompare y x = Some Eq.
Proof.
  destruct x as [sx|sx| |sx mx ex], y as [sy|sy| |sy my ey]; cbn; try discriminate;
    try (destruct sx, sy; cbn; congruence); try (destruct sx; discriminate);
    try (destruct sy; discriminate).
  intros H.
  assert (ex = ey ∧ mx = my) as [-> ->].
  { destruct sx, sy; try discriminate;
      (destruct (ex ?= ey)%Z eqn:He; try discriminate;
       apply Z.compare_eq in He; split; [exact He|];
       apply Pos.compare_eq; unfold Pos.compare;
       destruct (Pos.compare_cont Eq mx my); cbn in H; congruence). }
  destruct sx, sy; try discriminate; exact H.
Qed.



(** Equal numbers are on neither side of each other. *)
Lemma eqb_not_ltb (d v : float) :
  PrimFloat.eqb d v = true → PrimFloat.ltb d v = false ∧ PrimFloat.ltb v d = false.
Proof.
  rewrite FloatAxioms.eqb_spec, !FloatAxioms.ltb_spec. unfold SFeqb, SFltb. intros H.
  destruct (SFcompare (Prim2SF d) (Prim2SF v)) as [[| |]|] eqn:E; try discriminate.
  rewrite (SFcompare_Eq_sym _ _ E). split; reflexivity.
Qed.

End FloatFacts.

(** ** The store: what each step reads and writes *)

Section StoreFacts.

Context {platform : Platform}.

Lemma stateAfter_bind {A B} (m : M A) (f : A → M B) (s : AppState) :
  stateAfter (m ≫= f) s = stateAfter (f (valueOf m s)) (stateAfter m s).
Proof.
  unfold stateAfter, valueOf, mbind, M_bind. destruct (m s); reflexivity.
Qed.

Lemma valueOf_bind {A B} (m : M A) (f : A → M B) (s : AppState) :
  valueOf (m ≫= f) s = valueOf (f (valueOf m s)) (stateAfter m s).
Proof.
  unfold stateAfter, valueOf, mbind, M_bind. destruct (m s); reflexivity.
Qed.

Lemma stateAfter_ret {A} (x : A) (s : AppState) : stateAfter (mret x) s = s.
Proof. reflexivity. Qed.

Lemma valueOf_ret {A} (x : A) (s : AppState) : valueOf (mret x) s = x.
Proof. reflexivity. Qed.

(** *** Reading a record of histories *)

Lemma readSlot_ordinary (h : gmap string (list AnalysisResult)) (key : string) :
  ordinary key = true →
  readSlot h key = match h !! key with Some history => Own history | None => Undefined end.
Proof.
  unfold ordinary, readSlot. destruct (h !! key); [done|].
  by destruct (prototypeLength key).
Qed.

(** A prompt that passes the test of the pending prompts has no entry
    in its history. *)
Lemma noHistory_empty (s : AppState) (imageId promptId : string) :
  noHistory (imageResults s imageId) promptId = true → historyOf s imageId promptId = [].
Proof.
  unfold noHistory, readSlot, historyOf.
  by destruct (imageResults s imageId !! promptId) as [[|]|].
Qed.

(** Under an ordinary id the test is that the history is empty. *)
Lemma noHistory_ordinary (s : AppState) (imageId promptId : string) :
  ordinary promptId = true →
  noHistory (imageResults s imageId) promptId = true ↔ historyOf s imageId promptId = [].
Proof.
  intros Ho. unfold noHistory, historyOf. rewrite (readSlot_ordinary _ _ Ho).
  by destruct (imageResults s imageId !! promptId) as [[|]|].
Qed.

Lemma noHistory_own (s : AppState) (imageId promptId : string) :
  historyOf s imageId promptId ≠ [] → noHistory (imageResults s imageId) promptId = false.
Proof.
  intros H. apply not_true_iff_false. by intros ?%noHistory_empty.
Qed.

(** A history that holds an entry is found by the guard of the Score
    children and by the test of [runAnalysis], whatever the id. *)
Lemma hasHistory_own (s : AppState) (imageId promptId : string) :
  historyOf s imageId promptId ≠ [] → hasHistory (imageResults s imageId) promptId = true.
Proof.
  unfold hasHistory, readSlot, historyOf.
  by destruct (imageResults s imageId !! promptId) as [[|]|].
Qed.

Lemma hasHistory_false (s : AppState) (imageId promptId : string) :
  hasHistory (imageResults s imageId) promptId = false → historyOf s imageId promptId = [].
Proof.
  intros H. destruct (historyOf s imageId promptId) eqn:E; [done|].
  rewrite hasHistory_own in H; [done|]. by rewrite E.
Qed.

Lemma hasHistory_ordinary (s : AppState) (imageId promptId : string) :
  ordinary promptId = true →
  hasHistory (imageResults s imageId) promptId = true ↔ historyOf s imageId promptId ≠ [].
Proof.
  intros Ho. unfold hasHistory, historyOf. rewrite (readSlot_ordinary _ _ Ho).
  by destruct (imageResults s imageId !! promptId) as [[|]|].
Qed.

Lemma settled_own (s : AppState) (imageId promptId : string) :
  historyOf s imageId promptId ≠ [] → settled s imageId promptId = true.
Proof.
  unfold settled, hasHistory, readSlot, historyOf, imageResults.
  destruct (results s !! imageId) as [h|]; cbn; [|by rewrite lookup_empty].
  by destruct (h !! promptId) as [[|]|].
Qed.

(** A prompt that [runAnalysis] does not pass over has no entry in its
    history. *)
Lemma settled_false (s : AppState) (imageId promptId : string) :
  settled s imageId promptId = false → historyOf s imageId promptId = [].
Proof.
  intros H. destruct (historyOf s imageId promptId) eqn:E; [done|].
  rewrite settled_own in H; [done|]. by rewrite E.
Qed.

Lemma historyOf_updateResultHistory (imageId promptId : string)
    (f : list AnalysisResult → list AnalysisResult) (s : AppState) (i p : string) :
  historyOf (stateAfter (updateResultHistory imageId promptId f) s) i p =
    if decide (i = imageId ∧ p = promptId)
    then f (historyOf s imageId promptId) else historyOf s i p.
Proof.
  unfold historyOf, imageResults, updateResultHistory, stateAfter, setState, set_results.
  cbn. rewrite lookup_insert.
  destruct (decide (imageId = i)) as [->|Hi].
  - cbn. rewrite lookup_insert.
    destruct (decide (promptId = p)) as [->|Hp].
    + rewrite decide_True by done. reflexivity.
    + rewrite decide_False by (intros [_ ?]; congruence). reflexivity.
  - rewrite decide_False by (intros [? _]; congruence). reflexivity.
Qed.

Lemma historyOf_update_same imageId promptId f s :
  historyOf (stateAfter (updateResultHistory imageId promptId f) s) imageId promptId =
    f (historyOf s imageId promptId).
Proof. rewrite historyOf_updateResultHistory, decide_True by done. reflexivity. Qed.

Lemma historyOf_update_other imageId promptId f s i p :
  i ≠ imageId ∨ p ≠ promptId →
  historyOf (stateAfter (updateResultHistory imageId promptId f) s) i p = historyOf s i p.
Proof.
  intros H. rewrite historyOf_updateResultHistory, decide_False; [reflexivity|].
  intros [? ?]. destruct H; contradiction.
Qed.


(** *** Composition of effects *)

(** Membership goals between lists of touched prompts. *)
Ltac touched :=
  intros ?; rewrite ?fmap_cons, ?elem_of_app, ?elem_of_cons, ?elem_of_nil; tauto.

Lemma Effect_refl imageId s : Effect imageId [] [] s s.
Proof. split; auto. by rewrite app_nil_r. Qed.

Lemma Effect_trans imageId T1 T2 l1 l2 s1 s2 s3 :
  Effect imageId T1 l1 s1 s2 → Effect imageId T2 l2 s2 s3 →
  Effect imageId (T1 ++ T2) (l1 ++ l2) s1 s3.
Proof.
  intros [P1 S1 R1 F1] [P2 S2 R2 F2]. split.
  - congruence.
  - congruence.
  - by rewrite R2, R1, app_assoc.
  - intros i p Hp. rewrite F2, F1; [done| |];
      (destruct Hp as [?|Hp]; [by left|right; set_solver]).
Qed.

Lemma Effect_weaken imageId T T' l s s' :
  (∀ p, p ∈ T → p ∈ T') → Effect imageId T l s s' → Effect imageId T' l s s'.
Proof.
  intros HT [P S R F]. split; auto.
  intros i p [?|Hp]; apply F; [by left|right; auto].
Qed.

Lemma Effect_seq imageId T T1 T2 l l1 l2 s1 s2 s3 :
  Effect imageId T1 l1 s1 s2 → Effect imageId T2 l2 s2 s3 →
  l = l1 ++ l2 → (∀ p, p ∈ T1 ++ T2 → p ∈ T) →
  Effect imageId T l s1 s3.
Proof.
  intros E1 E2 -> HT. eapply Effect_weaken; [exact HT|].
  eapply Effect_trans; eassumption.
Qed.

Lemma Effect_skip imageId T s : Effect imageId T [] s s.
Proof. apply Effect_weaken with (T := []); [set_solver|]. apply Effect_refl. Qed.

Lemma Effect_issued imageId T l s s' : Effect imageId T l s s' → issued s s' = l.
Proof.
  intros [_ _ R _]. unfold issued. by rewrite R, drop_app_length.
Qed.

Lemma Effect_update imageId promptId f s :
  Effect imageId [promptId] [] s (stateAfter (updateResultHistory imageId promptId f) s).
Proof.
  split; try reflexivity.
  - cbn. by rewrite app_nil_r.
  - intros i p Hp. apply historyOf_update_other.
    destruct Hp as [?|Hp]; [by left|right; set_solver].
Qed.

Lemma Effect_register imageId key s :
  Effect imageId [] [] s (stateAfter (registerController key) s).
Proof. split; try reflexivity. cbn. by rewrite app_nil_r. Qed.

Lemma Effect_release imageId key s :
  Effect imageId [] [] s (stateAfter (releaseController key) s).
Proof. split; try reflexivity. cbn. by rewrite app_nil_r. Qed.

Lemma Effect_issue imageId rq s : Effect imageId [] [rq] s (stateAfter (issue rq) s).
Proof. split; reflexivity. Qed.

Lemma Effect_fetch imageId rq s : Effect imageId [] [rq] s (stateAfter (fetch rq) s).
Proof. split; reflexivity. Qed.

Lemma valueOf_fetch rq s : valueOf (fetch rq) s = server (length (requests s)) rq.
Proof. reflexivity. Qed.

(** *** One attempt *)

Lemma replaceLast_snoc r h x : replaceLast r (h ++ [x]) = h ++ [r].
Proof. unfold replaceLast. by rewrite removelast_last. Qed.

Lemma appendDelta_snoc content h x :
  ∃ x', appendDelta content (h ++ [x]) = h ++ [x'].
Proof. unfold appendDelta. rewrite last_snoc, removelast_last. eauto. Qed.

Lemma finishStream_snoc finalText h x :
  finishStream finalText (h ++ [x]) = h ++ [streamedResult x finalText].
Proof. unfold finishStream. by rewrite last_snoc, removelast_last. Qed.

Lemma consumeStream_effect imageId promptId ys acc s :
  Effect imageId [promptId] [] s (stateAfter (consumeStream imageId promptId ys acc) s).
Proof.
  revert acc s. induction ys as [|y ys IH]; intros acc s.
  - apply Effect_skip.
  - destruct y as [content|err|e]; cbn [consumeStream].
    + rewrite stateAfter_bind.
      eapply Effect_seq; [apply Effect_update|apply IH|reflexivity|touched].
    + apply Effect_skip.
    + apply Effect_skip.
Qed.

Lemma consumeStream_history imageId promptId ys acc s h x :
  historyOf s imageId promptId = h ++ [x] →
  ∃ x', historyOf (stateAfter (consumeStream imageId promptId ys acc) s) imageId promptId
        = h ++ [x'].
Proof.
  revert acc s x. induction ys as [|y ys IH]; intros acc s x Hh.
  - exists x. exact Hh.
  - destruct y as [content|err|e]; cbn [consumeStream].
    + rewrite stateAfter_bind.
      destruct (appendDelta_snoc content h x) as [x' Hx'].
      eapply (IH _ _ x'). by rewrite historyOf_update_same, Hh.
    + exists x. exact Hh.
    + exists x. exact Hh.
Qed.

Lemma attemptBody_effect prompt imageId o s :
  Effect imageId [id prompt] [] s (stateAfter (attemptBody prompt imageId o) s).
Proof.
  unfold attemptBody. destruct (ResultType.eqb (type prompt) ResultType.Text).
  - rewrite stateAfter_bind.
    pose proof (consumeStream_effect imageId (id prompt) (fetchAnalysisStream o) EmptyString s) as E.
    destruct (valueOf (consumeStream _ _ _ _) s) as [e|txt]; [exact E|].
    rewrite stateAfter_bind, stateAfter_bind.
    eapply Effect_seq; [exact E|apply Effect_update|reflexivity|touched].
  - destruct (fetchAnalysis prompt o) as [e|resultData].
    + apply Effect_skip.
    + destruct (type prompt), resultData;
        first [ apply Effect_skip | rewrite stateAfter_bind; apply Effect_update ].
Qed.

Lemma attemptBody_history prompt imageId o s h x :
  historyOf s imageId (id prompt) = h ++ [x] →
  ∃ x', historyOf (stateAfter (attemptBody prompt imageId o) s) imageId (id prompt)
        = h ++ [x'].
Proof.
  intros Hh. unfold attemptBody. destruct (ResultType.eqb (type prompt) ResultType.Text).
  - rewrite stateAfter_bind.
    destruct (consumeStream_history imageId (id prompt) (fetchAnalysisStream o)
                EmptyString s h x Hh) as [x' Hx'].
    destruct (valueOf (consumeStream _ _ _ _) s) as [e|txt]; [eauto|].
    rewrite stateAfter_bind, stateAfter_bind.
    eexists. cbn [stateAfter getState snd mret M_ret].
    rewrite historyOf_update_same, Hx'. apply finishStream_snoc.
  - destruct (fetchAnalysis prompt o) as [e|resultData]; [eauto|].
    destruct (type prompt), resultData; eauto;
      rewrite stateAfter_bind; eexists;
      cbn [stateAfter mret M_ret snd];
      rewrite historyOf_update_same, Hh; apply replaceLast_snoc.
Qed.

Lemma settleAttempt_effect prompt imageId o s :
  Effect imageId [id prompt] [] s (stateAfter (settleAttempt prompt imageId o) s).
Proof.
  unfold settleAttempt. rewrite stateAfter_bind.
  pose proof (attemptBody_effect prompt imageId o s) as E.
  destruct (valueOf (attemptBody prompt imageId o) s) as [e|res].
  - destruct (isAbortError e).
    + rewrite !stateAfter_bind.
      eapply Effect_seq; [exact E|apply Effect_release|reflexivity|touched].
    + rewrite !stateAfter_bind.
      eapply Effect_seq;
        [exact E
        |eapply Effect_seq; [apply Effect_update|apply Effect_release|reflexivity|touched]
        |reflexivity|touched].
  - rewrite !stateAfter_bind.
    eapply Effect_seq; [exact E|apply Effect_release|reflexivity|touched].
Qed.

Lemma settleAttempt_history prompt imageId o s h x :
  historyOf s imageId (id prompt) = h ++ [x] →
  ∃ x', historyOf (stateAfter (settleAttempt prompt imageId o) s) imageId (id prompt)
        = h ++ [x'].
Proof.
  intros Hh. unfold settleAttempt. rewrite stateAfter_bind.
  destruct (attemptBody_history prompt imageId o s h x Hh) as [x' Hx'].
  destruct (valueOf (attemptBody prompt imageId o) s) as [e|res].
  - destruct (isAbortError e); rewrite !stateAfter_bind.
    + exists x'. exact Hx'.
    + eexists. cbn [stateAfter releaseController setState snd mret M_ret].
      change (historyOf ?a ?i ?p) with (historyOf
        (stateAfter (updateResultHistory imageId (id prompt)
           (replaceLast (errorResult prompt e)))
           (stateAfter (attemptBody prompt imageId o) s)) i p).
      rewrite historyOf_update_same, Hx'. apply replaceLast_snoc.
  - rewrite !stateAfter_bind. exists x'. exact Hx'.
Qed.

Lemma beginAttempt_effect prompt imageId s :
  Effect imageId [id prompt] [attemptRequest prompt imageId] s
    (stateAfter (beginAttempt prompt imageId) s).
Proof.
  unfold beginAttempt. rewrite !stateAfter_bind.
  eapply Effect_seq;
    [apply Effect_register
    |eapply Effect_seq; [apply Effect_update|apply Effect_issue|reflexivity|touched]
    |reflexivity|touched].
Qed.

Lemma beginAttempt_history prompt imageId s :
  historyOf (stateAfter (beginAttempt prompt imageId) s) imageId (id prompt) =
    historyOf s imageId (id prompt) ++ [loadingResult prompt].
Proof.
  unfold beginAttempt. rewrite !stateAfter_bind.
  change (historyOf (stateAfter (issue ?rq) ?t)) with (historyOf t).
  by rewrite historyOf_update_same.
Qed.

Lemma valueOf_beginAttempt prompt imageId s :
  valueOf (beginAttempt prompt imageId) s = length (requests s).
Proof. reflexivity. Qed.

(** An attempt issues one request, its own, and touches one history,
    to which it adds one entry. *)
Lemma runSinglePrompt_effect prompt imageId s :
  Effect imageId [id prompt] [attemptRequest prompt imageId] s
    (stateAfter (runSinglePrompt prompt imageId) s).
Proof.
  unfold runSinglePrompt. rewrite stateAfter_bind.
  eapply Effect_seq;
    [apply beginAttempt_effect|apply settleAttempt_effect|by rewrite app_nil_r|touched].
Qed.

Lemma runSinglePrompt_history prompt imageId s :
  ∃ r, historyOf (stateAfter (runSinglePrompt prompt imageId) s) imageId (id prompt)
       = historyOf s imageId (id prompt) ++ [r].
Proof.
  unfold runSinglePrompt. rewrite stateAfter_bind.
  eapply settleAttempt_history, beginAttempt_history.
Qed.

(** *** An attempt that is not aborted *)

Lemma streamYields_notAborted chunks d e :
  notAborted (EventStream chunks) = true →
  YThrow e ∈ streamYields d chunks → isAbortError e = false.
Proof.
  cbn [notAborted]. revert d. induction chunks as [|c l IH]; intros d Hok Hin.
  - by apply elem_of_nil in Hin.
  - cbn [forallb] in Hok. apply andb_true_iff in Hok as [Hc Hl].
    destruct c as [|delta|e']; cbn [streamYields] in Hin.
    + apply list_elem_of_singleton in Hin. discriminate.
    + destruct (truthy delta); [|by eapply (IH d)].
      destruct (feedDelta d delta) as [d' out].
      apply elem_of_app in Hin as [Hin|Hin]; [|by eapply (IH d')].
      apply list_elem_of_fmap in Hin as (? & ? & _). discriminate.
    + apply list_elem_of_singleton in Hin. injection Hin as ->.
      by apply negb_true_iff.
Qed.

Lemma fetchAnalysisStream_notAborted o e :
  notAborted o = true → YThrow e ∈ fetchAnalysisStream o → isAbortError e = false.
Proof.
  destruct o as [e'|st|fr content|chunks]; cbn [fetchAnalysisStream].
  - intros Hok Hin. apply list_elem_of_singleton in Hin. injection Hin as ->.
    by apply negb_true_iff.
  - intros _ Hin. apply list_elem_of_singleton in Hin. by injection Hin as ->.
  - by intros _ ?%elem_of_nil.
  - apply streamYields_notAborted.
Qed.

Lemma consumeStream_thrown imageId promptId ys acc s e :
  valueOf (consumeStream imageId promptId ys acc) s = inl e →
  YThrow e ∈ ys ∨ isAbortError e = false.
Proof.
  revert acc s. induction ys as [|y ys IH]; intros acc s; cbn [consumeStream].
  - discriminate.
  - destruct y as [content|err|e'].
    + rewrite valueOf_bind. intros H. destruct (IH _ _ H); [left; by right|by right].
    + rewrite valueOf_ret. intros [= <-]. by right.
    + rewrite valueOf_ret. intros [= <-]. left. by left.
Qed.

Lemma fetchAnalysis_thrown prompt o e :
  notAborted o = true → fetchAnalysis prompt o = inl e → isAbortError e = false.
Proof.
  unfold fetchAnalysis. destruct o as [e'|st|fr content|chunks]; cbn [notAborted].
  - intros Hok [= <-]. by apply negb_true_iff.
  - by intros _ [= <-].
  - intros _. destruct (String.eqb fr "length"); [by intros [= <-]|].
    destruct (type prompt); try discriminate;
      (destruct (JSON_parse _); [discriminate|by intros [= <-]]).
  - by intros _ [= <-].
Qed.

(** An attempt whose [fetch] does not end with an [AbortError] replaces
    the latest entry by a terminal one, which it returns. *)
Lemma settleAttempt_terminal prompt imageId o s h x :
  notAborted o = true → historyOf s imageId (id prompt) = h ++ [x] →
  ∃ r, valueOf (settleAttempt prompt imageId o) s = Some r
       ∧ isTerminal r = true
       ∧ historyOf (stateAfter (settleAttempt prompt imageId o) s) imageId (id prompt)
         = h ++ [r].
Proof.
  intros Hok Hh.
  assert (Hbody : match valueOf (attemptBody prompt imageId o) s with
                  | inl e => isAbortError e = false
                  | inr None => False
                  | inr (Some r) =>
                      isTerminal r = true
                      ∧ historyOf (stateAfter (attemptBody prompt imageId o) s)
                          imageId (id prompt) = h ++ [r]
                  end).
  { unfold attemptBody. destruct (ResultType.eqb (type prompt) ResultType.Text).
    - rewrite valueOf_bind, stateAfter_bind.
      destruct (consumeStream_history imageId (id prompt) (fetchAnalysisStream o)
                  EmptyString s h x Hh) as [x' Hx'].
      destruct (valueOf (consumeStream _ _ _ _) s) as [e|txt] eqn:Hv.
      + rewrite valueOf_ret.
        destruct (consumeStream_thrown _ _ _ _ _ _ Hv) as [Hin|?]; [|done].
        by apply (fetchAnalysisStream_notAborted o).
      + rewrite !valueOf_bind, !stateAfter_bind, valueOf_ret, stateAfter_ret.
        change (valueOf getState ?u) with u. change (stateAfter getState ?u) with u.
        rewrite Hx', last_snoc. cbn [fmap option_fmap option_map].
        split; [done|]. by rewrite historyOf_update_same, Hx', finishStream_snoc.
    - destruct (fetchAnalysis prompt o) as [e|resultData] eqn:Hf.
      + rewrite valueOf_ret. by apply (fetchAnalysis_thrown prompt o).
      + assert (Hupd : isTerminal (successResult prompt resultData) = true
                  ∧ historyOf (stateAfter
                       (updateResultHistory imageId (id prompt)
                          (replaceLast (successResult prompt resultData))) s)
                      imageId (id prompt) = h ++ [successResult prompt resultData]).
        { split; [done|]. by rewrite historyOf_update_same, Hh, replaceLast_snoc. }
        destruct (type prompt), resultData;
          first [ rewrite valueOf_bind, stateAfter_bind, valueOf_ret, stateAfter_ret;
                  exact Hupd
                | done ]. }
  unfold settleAttempt. rewrite !valueOf_bind, !stateAfter_bind.
  destruct (attemptBody_history prompt imageId o s h x Hh) as [x' Hx'].
  destruct (valueOf (attemptBody prompt imageId o) s) as [e|[r|]]; [|destruct Hbody as [? ?]|done].
  - rewrite Hbody. exists (errorResult prompt e).
    rewrite !valueOf_bind, !stateAfter_bind, !valueOf_ret, ?stateAfter_ret.
    split; [done|]. split; [done|].
    change (historyOf (stateAfter (releaseController ?k) ?u)) with (historyOf u).
    by rewrite historyOf_update_same, Hx', replaceLast_snoc.
  - exists r. rewrite !valueOf_ret, ?stateAfter_ret. split; [done|]. split; [done|].
    change (historyOf (stateAfter (releaseController ?k) ?u)) with (historyOf u).
    done.
Qed.

(** An attempt whose [fetch] is not aborted returns a terminal result,
    the one entry it adds to the history. *)
Lemma runSinglePrompt_terminal prompt imageId s :
  notAborted (server (length (requests s)) (attemptRequest prompt imageId)) = true →
  ∃ r, valueOf (runSinglePrompt prompt imageId) s = Some r
       ∧ isTerminal r = true
       ∧ historyOf (stateAfter (runSinglePrompt prompt imageId) s) imageId (id prompt)
         = historyOf s imageId (id prompt) ++ [r].
Proof.
  intros Hok. unfold runSinglePrompt.
  rewrite valueOf_bind, stateAfter_bind, valueOf_beginAttempt.
  destruct (settleAttempt_terminal prompt imageId _ _ _ _ Hok
              (beginAttempt_history prompt imageId s)) as (r & V & T & H).
  exists r. by rewrite V.
Qed.

(** *** Children run one after the other *)

Lemma forEach_runSinglePrompt_effect (children : list Prompt) imageId s :
  Effect imageId (id <$> children) ((λ c, attemptRequest c imageId) <$> children) s
    (stateAfter (forEach children (λ child, runSinglePrompt child imageId ;; mret tt)) s).
Proof.
  revert s. induction children as [|c children IH]; intros s.
  - apply Effect_refl.
  - cbn [forEach]. rewrite !stateAfter_bind.
    eapply Effect_seq; [apply runSinglePrompt_effect|apply IH|reflexivity|touched].
Qed.

(** When no request is aborted, the latest entry of every child that
    was run is a terminal one. *)
Lemma forEach_attempts_settle (children : list Prompt) imageId s p :
  (∀ n rq, notAborted (server n rq) = true) →
  (∃ r, last (historyOf s imageId p) = Some r ∧ isTerminal r = true)
  ∨ p ∈ id <$> children →
  ∃ r, last (historyOf
               (stateAfter (forEach children (λ child, runSinglePrompt child imageId ;; mret tt)) s)
               imageId p) = Some r
       ∧ isTerminal r = true.
Proof.
  intros Hok. revert s. induction children as [|c children IH]; intros s Hp.
  - destruct Hp as [Hp|Hp%elem_of_nil]; done.
  - cbn [forEach]. rewrite !stateAfter_bind, stateAfter_ret. apply IH.
    destruct (runSinglePrompt_terminal c imageId s (Hok _ _)) as (r & _ & Hr & Hh).
    destruct (decide (p = id c)) as [->|Hne].
    + left. exists r. by rewrite Hh, last_snoc.
    + rewrite (eff_frame _ _ _ _ _ (runSinglePrompt_effect c imageId s));
        [|right; by intros ?%list_elem_of_singleton].
      destruct Hp as [Hp|Hp]; [by left|right].
      rewrite fmap_cons in Hp. by apply elem_of_cons in Hp as [?|?].
Qed.

Lemma executed_attempts (children : list Prompt) imageId :
  rq_prompt <$> ((λ c, attemptRequest c imageId) <$> children) = children.
Proof. induction children as [|c l IH]; [done|]. cbn. by rewrite IH. Qed.

Lemma parentIs_spec pid c : parentIs pid c = true ↔ parentId c = Some pid.
Proof.
  unfold parentIs. destruct (parentId c) as [q|]; [|split; discriminate].
  rewrite String.eqb_eq. split; congruence.
Qed.

Lemma conditionIs_spec met c : conditionIs met c = true ↔ condition c = Some met.
Proof.
  unfold conditionIs. destruct (condition c) as [k|]; [|split; discriminate].
  destruct k, met; cbn; split; congruence.
Qed.

Lemma conditionMet_trim (resultData : string) :
  conditionMet (trim (toLowerCase resultData)) =
    if includes "yes" (toLowerCase resultData) then yes else no.
Proof. unfold conditionMet. by rewrite includes_yes_trim. Qed.

Lemma elem_of_filter_iff {A} (f : A → bool) (l : list A) (x : A) :
  x ∈ List.filter f l ↔ x ∈ l ∧ f x = true.
Proof. by rewrite list_elem_of_In, filter_In, <- list_elem_of_In. Qed.

(** *** Yes/No children *)

Lemma handle_yesNo s prompt result imageId resultData :
  type prompt = ResultType.YesNo → status result = success →
  data result = VString resultData →
  valueOf (handlePromptCompletion prompt result imageId) s = None
  ∧ stateAfter (handlePromptCompletion prompt result imageId) s
    = stateAfter (forEach (yesNoChildren prompt resultData s imageId)
                          (λ child, runSinglePrompt child imageId ;; mret tt)) s.
Proof.
  intros Hty Hst Hd. unfold handlePromptCompletion.
  rewrite valueOf_bind, stateAfter_bind.
  cbn [valueOf getState fst stateAfter snd]. rewrite Hty, Hst, Hd.
  by rewrite valueOf_bind, stateAfter_bind, valueOf_ret, stateAfter_ret.
Qed.

(** X30. When a Yes/No prompt has completed with a text and its direct
    children have ordinary ids, the prompts then executed are, in the
    order of the prompt list and once each, exactly the direct
    children whose condition is the one met, [yes] if the lowercased
    text contains yes and [no] otherwise, and whose history for the
    image is empty; and when no request is aborted, each of them ends
    with a terminal entry as the latest of its history. *)
Theorem yesNo_children_executed (s : AppState) (prompt : Prompt)
    (result : AnalysisResult) (imageId resultData : string) :
  type prompt = ResultType.YesNo → status result = success →
  data result = VString resultData →
  (∀ c, c ∈ prompts s → parentId c = Some (id prompt) → ordinary (id c) = true) →
  let met := if includes "yes" (toLowerCase resultData) then yes else no in
  let s' := stateAfter (handlePromptCompletion prompt result imageId) s in
  (∀ c, c ∈ executed s s' ↔
        c ∈ prompts s ∧ parentId c = Some (id prompt) ∧ condition c = Some met
        ∧ historyOf s imageId (id c) = [])
  ∧ executed s s' =
      List.filter (λ c, parentIs (id prompt) c && conditionIs met c
                          && noHistory (imageResults s imageId) (id c)) (prompts s)
  ∧ issued s s' = (λ c, attemptRequest c imageId) <$> executed s s'
  ∧ ((∀ n rq, notAborted (server n rq) = true) →
     ∀ c, c ∈ executed s s' →
       ∃ r, last (historyOf s' imageId (id c)) = Some r ∧ isTerminal r = true).
Proof.
  intros Hty Hst Hd Hord met s'.
  destruct (handle_yesNo s prompt result imageId resultData Hty Hst Hd) as [_ Hs'].
  pose proof (forEach_runSinglePrompt_effect (yesNoChildren prompt resultData s imageId)
                imageId s) as E.
  rewrite <- Hs' in E. fold s' in E.
  assert (X : executed s s' =
                List.filter (λ c, parentIs (id prompt) c && conditionIs met c
                                    && noHistory (imageResults s imageId) (id c)) (prompts s)).
  { unfold executed. rewrite (Effect_issued _ _ _ _ _ E), executed_attempts.
    unfold yesNoChildren. by rewrite conditionMet_trim. }
  assert (Hiff : ∀ c, c ∈ executed s s' ↔
                      c ∈ prompts s ∧ parentId c = Some (id prompt)
                      ∧ condition c = Some met ∧ historyOf s imageId (id c) = []).
  { intros c. rewrite X, elem_of_filter_iff, !andb_true_iff, parentIs_spec, conditionIs_spec.
    split.
    - intros (Hc & (Hp & Hk) & Hn). by apply noHistory_empty in Hn.
    - intros (Hc & Hp & Hk & Hh). split; [done|]. split; [done|].
      by apply noHistory_ordinary; [apply Hord|]. }
  split; [exact Hiff|]. split; [exact X|]. split.
  - rewrite (Effect_issued _ _ _ _ _ E). f_equal. rewrite X.
    unfold yesNoChildren. by rewrite conditionMet_trim.
  - intros Hok c Hc. subst s'. rewrite Hs'. apply forEach_attempts_settle; [done|].
    right. apply list_elem_of_fmap. exists c. split; [done|].
    unfold yesNoChildren. rewrite conditionMet_trim. fold met. by rewrite <- X.
Qed.

(** *** Score children *)

Lemma handle_score s prompt result imageId d :
  type prompt = ResultType.Score → status result = success → data result = VNumber d →
  valueOf (handlePromptCompletion prompt result imageId) s = None
  ∧ stateAfter (handlePromptCompletion prompt result imageId) s
    = stateAfter (forEach (scoreChildren prompt d s imageId)
                          (λ child, runSinglePrompt child imageId ;; mret tt)) s.
Proof.
  intros Hty Hst Hd. unfold handlePromptCompletion.
  rewrite valueOf_bind, stateAfter_bind.
  cbn [valueOf getState fst stateAfter snd]. rewrite Hty, Hst, Hd.
  by rewrite valueOf_bind, stateAfter_bind, valueOf_ret, stateAfter_ret.
Qed.

Lemma handle_score_effect s prompt result imageId d :
  type prompt = ResultType.Score → status result = success → data result = VNumber d →
  Effect imageId (id <$> scoreChildren prompt d s imageId)
    ((λ c, attemptRequest c imageId) <$> scoreChildren prompt d s imageId)
    s (stateAfter (handlePromptCompletion prompt result imageId) s).
Proof.
  intros Hty Hst Hd. destruct (handle_score s prompt result imageId d Hty Hst Hd) as [_ ->].
  apply forEach_runSinglePrompt_effect.
Qed.

Lemma scoreChildRuns_spec prompt d s imageId c :
  scoreChildRuns prompt d s imageId c = true ↔
    parentId c = Some (id prompt) ∧ hasHistory (imageResults s imageId) (id c) = false ∧
    ∃ v, scoreConditionValue c = Some v ∧
         (scoreConditionOperator c = Some above ∧ PrimFloat.ltb v d = true
          ∨ scoreConditionOperator c = Some below ∧ PrimFloat.ltb d v = true).
Proof.
  unfold scoreChildRuns.
  pose proof (parentIs_spec (id prompt) c) as HP.
  destruct (parentIs (id prompt) c), (hasHistory (imageResults s imageId) (id c)); cbn;
    try (split; [discriminate|]; intros (Hp & Hh & _);
         first [apply HP in Hp; discriminate | discriminate]).
  destruct (scoreConditionOperator c) as [[|]|], (scoreConditionValue c) as [v|];
    (split;
     [ intros H; first [discriminate|split; [by apply HP|]; split; [done|]; eauto]
     | intros (_ & _ & v' & Hv & [[Ho Hl]|[Ho Hl]]); congruence ]).
Qed.

(** C4. When a Score prompt has completed with the number [d], a
    direct child that already has a history for the image is not
    executed, and neither is a child whose value equals [d], whatever
    its operator; the requests issued are the attempts of the children
    executed. When the direct children have ordinary ids, a child with
    operator above and value [v] is executed iff its history for the
    image is empty and [d > v], and one with operator below iff its
    history is empty and [d < v]; and when in addition no request is
    aborted, each child executed ends with a terminal entry as the
    latest of its history. *)
Theorem score_children_executed (s : AppState) (prompt : Prompt)
    (result : AnalysisResult) (imageId : string) (d : float) :
  type prompt = ResultType.Score → status result = success →
  data result = VNumber d →
  let s' := stateAfter (handlePromptCompletion prompt result imageId) s in
  issued s s' = (λ c, attemptRequest c imageId) <$> executed s s'
  ∧ (∀ c, historyOf s imageId (id c) ≠ [] → c ∉ executed s s')
  ∧ (∀ c v, scoreConditionValue c = Some v → PrimFloat.eqb d v = true →
            c ∉ executed s s')
  ∧ ((∀ c, c ∈ prompts s → parentId c = Some (id prompt) → ordinary (id c) = true) →
     (∀ c v, c ∈ prompts s → parentId c = Some (id prompt) →
             scoreConditionValue c = Some v →
        (scoreConditionOperator c = Some above →
           (c ∈ executed s s' ↔
              historyOf s imageId (id c) = [] ∧ PrimFloat.ltb v d = true))
        ∧ (scoreConditionOperator c = Some below →
             (c ∈ executed s s' ↔
                historyOf s imageId (id c) = [] ∧ PrimFloat.ltb d v = true)))
     ∧ ((∀ n rq, notAborted (server n rq) = true) →
        ∀ c, c ∈ executed s s' →
          ∃ r, last (historyOf s' imageId (id c)) = Some r ∧ isTerminal r = true)).
Proof.
  intros Hty Hst Hd s'.
  pose proof (handle_score_effect s prompt result imageId d Hty Hst Hd) as E.
  destruct (handle_score s prompt result imageId d Hty Hst Hd) as [_ Hs'].
  assert (X : executed s s' = scoreChildren prompt d s imageId).
  { unfold executed. subst s'. by rewrite (Effect_issued _ _ _ _ _ E), executed_attempts. }
  assert (In_iff : ∀ c, c ∈ executed s s'
                        ↔ c ∈ prompts s ∧ scoreChildRuns prompt d s imageId c = true).
  { intros c. rewrite X. apply elem_of_filter_iff. }
  split; [|split; [|split; [|intros Hord; split]]].
  - subst s'. by rewrite X, (Effect_issued _ _ _ _ _ E).
  - intros c Hh [_ (_ & Hn & _)%scoreChildRuns_spec]%In_iff.
    by rewrite (hasHistory_own _ _ _ Hh) in Hn.
  - intros c v Hv Heq [_ (_ & _ & v' & Hv' & Hor)%scoreChildRuns_spec]%In_iff.
    destruct (eqb_not_ltb d v Heq) as [H1 H2].
    assert (v' = v) as -> by congruence.
    destruct Hor as [[_ Hl]|[_ Hl]]; congruence.
  - intros c v Hc Hp Hv.
    assert (Hn : hasHistory (imageResults s imageId) (id c) = false
                 ↔ historyOf s imageId (id c) = []).
    { rewrite <- not_true_iff_false, (hasHistory_ordinary _ _ _ (Hord c Hc Hp)).
      destruct (historyOf s imageId (id c));
        [split; [done|by intros _ ?]|split; [intros H; exfalso; by apply H|done]]. }
    rewrite In_iff, scoreChildRuns_spec, Hn. split.
    + intros Ho. split.
      * intros (_ & _ & Hh & v' & Hv' & [[_ Hl]|[Ho' _]]); [|congruence].
        split; [done|]. congruence.
      * intros [Hh Hl]. split; [done|]. split; [done|]. split; [done|]. exists v. tauto.
    + intros Ho. split.
      * intros (_ & _ & Hh & v' & Hv' & [[Ho' _]|[_ Hl]]); [congruence|].
        split; [done|]. congruence.
      * intros [Hh Hl]. split; [done|]. split; [done|]. split; [done|]. exists v. tauto.
  - intros Hok c Hc. subst s'. rewrite Hs'. apply forEach_attempts_settle; [done|].
    right. apply list_elem_of_fmap. exists c. split; [done|]. by rewrite <- X.
Qed.

(** *** Replies without a numeral *)

Lemma noDigit_trimStart s : noDigit s = true → noDigit (trimStart s) = true.
Proof.
  induction s as [|c s IH]; [done|]. cbn [trimStart noDigit].
  intros [Hc Hs]%andb_true_iff. destruct (isWhiteSpace c); [auto|].
  cbn. by rewrite Hc, Hs.
Qed.

Lemma noDigit_trimEnd s : noDigit s = true → noDigit (trimEnd s) = true.
Proof.
  induction s as [|c s IH]; [done|]. cbn [trimEnd noDigit].
  intros [Hc Hs]%andb_true_iff. specialize (IH Hs).
  destruct (trimEnd s); [destruct (isWhiteSpace c)|]; cbn [noDigit] in *;
    rewrite ?Hc, ?IH; reflexivity.
Qed.

Lemma noDigit_substringFrom n s : noDigit s = true → noDigit (substringFrom n s) = true.
Proof.
  revert s. induction n as [|n IH]; intros [|c s]; cbn; try done.
  intros [_ Hs]%andb_true_iff. auto.
Qed.

Lemma noDigit_stripThinking s : noDigit s = true → noDigit (stripThinking s) = true.
Proof.
  intros H. unfold stripThinking, trim.
  apply noDigit_trimEnd, noDigit_trimStart.
  induction s as [|c s IH]; cbn [stripThinkingFrom].
  - destruct (startsWith "<think>" EmptyString); [|done].
    destruct (indexOf _ _); [|done].
    by apply noDigit_trimStart, noDigit_substringFrom.
  - destruct (startsWith "<think>" (String c s)).
    + destruct (indexOf _ _); [|done].
      by apply noDigit_trimStart, noDigit_substringFrom.
    + cbn [noDigit] in *. apply andb_true_iff in H as [Hc Hs].
      by rewrite Hc, IH.
Qed.

Lemma matchUnsigned_noDigit s : noDigit s = true → matchUnsigned s = None.
Proof.
  unfold matchUnsigned. destruct s as [|c s]; [done|]. cbn [noDigit takeDigits].
  intros [Hc _]%andb_true_iff. apply negb_true_iff in Hc. by rewrite Hc.
Qed.

Lemma matchNumber_noDigit s : noDigit s = true → matchNumber s = None.
Proof.
  induction s as [|c s IH]; [done|]. intros H.
  assert (Hs : noDigit s = true) by (cbn in H; by apply andb_true_iff in H as [_ ?]).
  cbn [matchNumber]. rewrite (IH Hs).
  assert (matchAt (String c s) = None) as ->; [|done].
  unfold matchAt.
  rewrite (matchUnsigned_noDigit _ H), (matchUnsigned_noDigit _ Hs).
  destruct c as [[] [] [] [] [] [] [] []]; reflexivity.
Qed.

Lemma coerceNumber_noDigit content :
  noDigit content = true → coerceNumber (stripThinking content) = nan.
Proof.
  intros H. unfold coerceNumber.
  by rewrite (matchNumber_noDigit _ (noDigit_stripThinking _ H)).
Qed.



(** *** Fan-out *)

Lemma fanOutData_length child imageId n bboxes :
  length (fanOutData child imageId n bboxes) = length bboxes.
Proof.
  revert n. induction bboxes as [|b l IH]; intros n; [done|].
  cbn [fanOutData]. destruct (hasBox b); cbn; by rewrite IH.
Qed.

Lemma fanOutData_lookup child imageId n bboxes k bbox :
  bboxes !! k = Some bbox →
  fanOutData child imageId n bboxes !! k =
    Some (if hasBox bbox
          then bboxChildData child
                 (server (callNumber n bboxes k) (childRequest child bbox imageId))
          else VString ("Error: " +:+ joinMessage (boxOf bbox))).
Proof.
  unfold callNumber. revert n k.
  induction bboxes as [|b l IH]; intros n k Hk; [done|].
  destruct k as [|k].
  - cbn in Hk. injection Hk as ->. cbn [fanOutData take List.filter length].
    rewrite Nat.add_0_r. by destruct (hasBox bbox).
  - cbn in Hk. cbn [fanOutData take List.filter]. destruct (hasBox b).
    + rewrite lookup_cons, (IH (S n) k Hk). cbn [length].
      by rewrite Nat.add_succ_r.
    + by rewrite lookup_cons, (IH n k Hk).
Qed.

Lemma valueOf_fetchBboxChildAnalysis child bbox imageId s :
  isNull bbox = false →
  valueOf (fetchBboxChildAnalysis child bbox imageId) s =
    inr (BboxChildResult bbox
           (if hasBox bbox
            then bboxChildData child
                   (server (length (requests s)) (childRequest child bbox imageId))
            else VString ("Error: " +:+ joinMessage (boxOf bbox)))).
Proof.
  intros Hb. unfold fetchBboxChildAnalysis.
  destruct bbox; [done|..]; by destruct (hasBox _).
Qed.

Lemma stateAfter_fetchBboxChildAnalysis child bbox imageId s :
  stateAfter (fetchBboxChildAnalysis child bbox imageId) s =
    if hasBox bbox then stateAfter (fetch (childRequest child bbox imageId)) s else s.
Proof.
  unfold fetchBboxChildAnalysis. destruct bbox; [done|..]; by destruct (hasBox _).
Qed.

(** The calls of a fan-out hand to [fetch] the requests of the
    detections that have a [box], whether or not a call rejects. *)
Lemma mapAll_fetchBboxChildAnalysis_effect child imageId bboxes s :
  Effect imageId [] (fanOutRequests child imageId bboxes) s
    (stateAfter (mapAll (λ bbox, fetchBboxChildAnalysis child bbox imageId) bboxes) s).
Proof.
  unfold fanOutRequests. revert s. induction bboxes as [|b l IH]; intros s.
  - apply Effect_refl.
  - cbn [mapAll List.filter]. rewrite !stateAfter_bind, stateAfter_ret.
    rewrite stateAfter_fetchBboxChildAnalysis. destruct (hasBox b).
    + eapply Effect_seq; [apply Effect_fetch|apply IH|reflexivity|touched].
    + apply IH.
Qed.

Lemma mapAll_fetchBboxChildAnalysis child imageId bboxes s :
  noNull bboxes = true →
  valueOf (mapAll (λ bbox, fetchBboxChildAnalysis child bbox imageId) bboxes) s
    = (λ r, inr r) <$> zip_with BboxChildResult bboxes
                         (fanOutData child imageId (length (requests s)) bboxes).
Proof.
  revert s. induction bboxes as [|b l IH]; intros s Hnn; [done|].
  cbn [noNull forallb] in Hnn. apply andb_true_iff in Hnn as [Hb%negb_true_iff Hl].
  cbn [mapAll fanOutData].
  rewrite !valueOf_bind, ?stateAfter_bind, valueOf_ret.
  rewrite (valueOf_fetchBboxChildAnalysis _ _ _ _ Hb), stateAfter_fetchBboxChildAnalysis.
  destruct (hasBox b).
  - rewrite (IH _ Hl). cbn [zip_with fmap list_fmap]. do 4 f_equal.
    change (requests (stateAfter (fetch ?rq) s)) with (requests s ++ [rq]).
    rewrite length_app. cbn. lia.
  - by rewrite (IH _ Hl).
Qed.

Lemma allFulfilled_inr {A} (l : list A) :
  allFulfilled ((λ y, inr y) <$> l) = inr l.
Proof. induction l as [|y l IH]; [done|]. cbn. by rewrite IH. Qed.

Lemma filter_BboxChildResult bboxes rds :
  List.filter (λ r, negb (isNull r)) (zip_with BboxChildResult bboxes rds)
    = zip_with BboxChildResult bboxes rds.
Proof.
  revert rds. induction bboxes as [|b l IH]; intros [|r rds]; cbn; try done.
  by rewrite IH.
Qed.

Lemma fanOut_effect child bboxes imageId s :
  Effect imageId [id child] (fanOutRequests child imageId bboxes) s
    (stateAfter (fanOut child bboxes imageId) s).
Proof.
  unfold fanOut. rewrite !stateAfter_bind.
  set (s1 := stateAfter (updateResultHistory imageId (id child) _) s).
  assert (E1 : Effect imageId [id child] [] s s1) by apply Effect_update.
  pose proof (mapAll_fetchBboxChildAnalysis_effect child imageId bboxes s1) as E2.
  destruct (allFulfilled _) as [e|resolved].
  - rewrite stateAfter_ret. eapply Effect_seq; [exact E1|exact E2|done|touched].
  - rewrite stateAfter_bind, stateAfter_ret.
    eapply Effect_seq;
      [exact E1
      |eapply Effect_seq; [exact E2|apply Effect_update|reflexivity|touched]
      |by rewrite app_nil_r|touched].
Qed.

(** Over detections none of which is [null] a fan-out does not throw,
    and it leaves one success entry. *)
Lemma fanOut_fulfilled child bboxes imageId s :
  noNull bboxes = true →
  valueOf (fanOut child bboxes imageId) s = None
  ∧ historyOf (stateAfter (fanOut child bboxes imageId) s) imageId (id child)
    = [successResult child
         (VArray (zip_with BboxChildResult bboxes
                    (fanOutData child imageId (length (requests s)) bboxes)))].
Proof.
  intros Hnn. unfold fanOut. rewrite !valueOf_bind, !stateAfter_bind.
  rewrite (mapAll_fetchBboxChildAnalysis _ _ _ _ Hnn), allFulfilled_inr.
  rewrite valueOf_bind, stateAfter_bind, valueOf_ret, stateAfter_ret.
  split; [done|]. by rewrite historyOf_update_same, filter_BboxChildResult.
Qed.

(** Thrown or not, a fan-out leaves an entry in the history of its
    child. *)
Lemma fanOut_entry child bboxes imageId s :
  historyOf (stateAfter (fanOut child bboxes imageId) s) imageId (id child) ≠ [].
Proof.
  unfold fanOut. rewrite !stateAfter_bind.
  set (s1 := stateAfter (updateResultHistory imageId (id child) _) s).
  pose proof (mapAll_fetchBboxChildAnalysis_effect child imageId bboxes s1) as E2.
  destruct (allFulfilled _) as [e|resolved].
  - rewrite stateAfter_ret, (eff_frame _ _ _ _ _ E2); [|right; by intros ?%elem_of_nil].
    subst s1. by rewrite historyOf_update_same.
  - rewrite stateAfter_bind, stateAfter_ret. by rewrite historyOf_update_same.
Qed.

Lemma bboxChildData_failure child o msg :
  failureOf o = Some msg → bboxChildData child o = VString ("Error: " +:+ msg).
Proof. destruct o; cbn; intros [= <-]; reflexivity. Qed.

(** X32. In the fan-out of a child over detections none of which is
    [null], a detection whose call fails is recorded as the entry of
    that detection with the marker [Error: ...] as its result; the
    entries of the detections whose call is answered hold the coerced
    answers; and the fan-out does not throw: the child ends with
    status success and one entry per detection, in the order of the
    detections. *)
Theorem fanOut_captures_failures (s : AppState) (child : Prompt)
    (bboxes : list JsValue) (imageId : string) (k : nat) (bbox : JsValue)
    (msg : string) :
  noNull bboxes = true →
  bboxes !! k = Some bbox → hasBox bbox = true →
  failureOf (server (callNumber (length (requests s)) bboxes k)
               (childRequest child bbox imageId)) = Some msg →
  let s' := stateAfter (fanOut child bboxes imageId) s in
  valueOf (fanOut child bboxes imageId) s = None
  ∧ ∃ rds : list JsValue,
      length rds = length bboxes
      ∧ historyOf s' imageId (id child)
        = [{| promptId := id child; status := success;
              data := VArray (zip_with BboxChildResult bboxes rds);
              errorMessage := None |}]
      ∧ rds !! k = Some (VString ("Error: " +:+ msg))
      ∧ ∀ j other finish_reason content,
          bboxes !! j = Some other → hasBox other = true →
          server (callNumber (length (requests s)) bboxes j)
            (childRequest child other imageId) = Completion finish_reason content →
          rds !! j =
            Some (match type child with
                  | ResultType.Score | ResultType.Number =>
                      VNumber (coerceNumber (stripThinking content))
                  | _ => VString (stripThinking content)
                  end).
Proof.
  intros Hnn Hk Hb Hfail s'.
  destruct (fanOut_fulfilled child bboxes imageId s Hnn) as [V H].
  split; [exact V|].
  exists (fanOutData child imageId (length (requests s)) bboxes).
  split; [apply fanOutData_length|]. split; [exact H|]. split.
  - rewrite (fanOutData_lookup _ _ _ _ _ _ Hk), Hb.
    by rewrite (bboxChildData_failure _ _ _ Hfail).
  - intros j other fr content Hj Ho Hsrv.
    by rewrite (fanOutData_lookup _ _ _ _ _ _ Hj), Ho, Hsrv.
Qed.

(** The loop over the children ends at the first fan-out that throws:
    the children before it, and it, are the ones that were run. *)
Lemma forEachTry_fanOut_effect (children : list Prompt) bboxes imageId s :
  ∃ ran : list Prompt,
    (∀ c, c ∈ ran → c ∈ children)
    ∧ Effect imageId (id <$> ran) (flat_map (λ c, fanOutRequests c imageId bboxes) ran) s
        (stateAfter (forEachTry children (λ child, fanOut child bboxes imageId)) s).
Proof.
  revert s. induction children as [|c children IH]; intros s.
  - exists []. split; [done|apply Effect_refl].
  - cbn [forEachTry]. rewrite stateAfter_bind.
    pose proof (fanOut_effect c bboxes imageId s) as E1.
    destruct (valueOf (fanOut c bboxes imageId) s) as [e|].
    + exists [c]. split; [by intros ? ->%list_elem_of_singleton; left|].
      rewrite stateAfter_ret. cbn [flat_map]. by rewrite app_nil_r.
    + destruct (IH (stateAfter (fanOut c bboxes imageId) s)) as (ran & Hran & E2).
      exists (c :: ran). split.
      * intros x [->|Hx]%elem_of_cons; [by left|right; auto].
      * cbn [flat_map]. eapply Effect_seq; [exact E1|exact E2|reflexivity|touched].
Qed.

Lemma forEachTry_fanOut_fulfilled (children : list Prompt) bboxes imageId s :
  noNull bboxes = true →
  valueOf (forEachTry children (λ child, fanOut child bboxes imageId)) s = None
  ∧ Effect imageId (id <$> children)
      (flat_map (λ c, fanOutRequests c imageId bboxes) children) s
      (stateAfter (forEachTry children (λ child, fanOut child bboxes imageId)) s)
  ∧ ∀ c, c ∈ children →
      ∃ rds : list JsValue,
        length rds = length bboxes
        ∧ historyOf (stateAfter (forEachTry children (λ child, fanOut child bboxes imageId)) s)
            imageId (id c)
          = [{| promptId := id c; status := success;
                data := VArray (zip_with BboxChildResult bboxes rds);
                errorMessage := None |}].
Proof.
  intros Hnn. revert s. induction children as [|c0 children IH]; intros s.
  - split; [done|]. split; [apply Effect_refl|]. by intros c ?%elem_of_nil.
  - cbn [forEachTry]. rewrite valueOf_bind, stateAfter_bind.
    destruct (fanOut_fulfilled c0 bboxes imageId s Hnn) as [-> Hh].
    set (s1 := stateAfter (fanOut c0 bboxes imageId) s) in *.
    destruct (IH s1) as (V & E & Hall).
    split; [exact V|]. split.
    + cbn [flat_map].
      eapply Effect_seq; [apply fanOut_effect|exact E|reflexivity|touched].
    + intros c Hc.
      destruct (decide (id c ∈ id <$> children)) as [Hin|Hout].
      * apply list_elem_of_fmap in Hin as (c' & Hid & Hc').
        destruct (Hall c' Hc') as (rds & Hlen & Hh').
        exists rds. split; [exact Hlen|]. by rewrite Hid, Hh', <- Hid.
      * assert (c = c0) as ->.
        { apply elem_of_cons in Hc as [?|Hc]; [done|].
          exfalso. apply Hout, list_elem_of_fmap. eauto. }
        exists (fanOutData c0 imageId (length (requests s)) bboxes).
        split; [apply fanOutData_length|].
        rewrite (eff_frame _ _ _ _ _ E); [exact Hh|by right].
Qed.

(** X31. When a BoundingBox prompt has completed with an array of
    detections: with no detection the store is left as it is, so no
    child is executed; with [N > 0] detections, none of them [null],
    nothing is thrown, the requests issued are those of one fan-out per
    direct child that passes the test of the pending prompts, in the
    order of the prompt list, and each such child ends with a history
    of one success entry whose data is an array of [N] entries, the
    [k]-th of which has the [k]-th detection as its [parentBox]. A
    direct child with an ordinary id passes the test when its history
    for the image is empty. *)
Theorem bbox_children_fan_out (s : AppState) (prompt : Prompt)
    (result : AnalysisResult) (imageId : string) (bboxes : list JsValue) :
  type prompt = ResultType.BoundingBox → status result = success →
  data result = VArray bboxes →
  let s' := stateAfter (handlePromptCompletion prompt result imageId) s in
  (bboxes = [] → s' = s)
  ∧ (bboxes ≠ [] → noNull bboxes = true →
     valueOf (handlePromptCompletion prompt result imageId) s = None
     ∧ issued s s' =
         flat_map (λ c, fanOutRequests c imageId bboxes)
           (List.filter (λ c, parentIs (id prompt) c
                                && noHistory (imageResults s imageId) (id c)) (prompts s))
     ∧ (∀ c, c ∈ prompts s → parentId c = Some (id prompt) →
             noHistory (imageResults s imageId) (id c) = true →
        ∃ rds : list JsValue,
          length rds = length bboxes
          ∧ historyOf s' imageId (id c)
            = [{| promptId := id c; status := success;
                  data := VArray (zip_with BboxChildResult bboxes rds);
                  errorMessage := None |}])
     ∧ (∀ c, ordinary (id c) = true → historyOf s imageId (id c) = [] →
             noHistory (imageResults s imageId) (id c) = true)).
Proof.
  intros Hty Hst Hd s'. subst s'.
  unfold handlePromptCompletion. rewrite valueOf_bind, stateAfter_bind.
  cbn [valueOf getState fst stateAfter snd]. rewrite Hty, Hst, Hd.
  split; [by intros ->|]. intros Hne Hnn.
  destruct bboxes as [|bbox rest]; [done|].
  destruct (forEachTry_fanOut_fulfilled (bboxChildren prompt s imageId) (bbox :: rest)
              imageId s Hnn) as (V & E & Hall).
  split; [exact V|]. split; [|split].
  - apply (Effect_issued _ _ _ _ _ E).
  - intros c Hc Hp Hh. apply Hall.
    unfold bboxChildren. rewrite elem_of_filter_iff.
    split; [done|]. by rewrite andb_true_iff, parentIs_spec.
  - intros c Ho Hh. by apply noHistory_ordinary.
Qed.

(** *** Deleting a prompt *)

Lemma lookup_foldr_delete {V} (m : gmap string V) (ids : list string) (p : string) :
  foldr delete m ids !! p = if decide (p ∈ ids) then None else m !! p.
Proof.
  induction ids as [|k ids IH]; cbn [foldr].
  - rewrite decide_False; [done|]. by intros ?%elem_of_nil.
  - rewrite lookup_delete. destruct (decide (k = p)) as [->|Hk].
    + rewrite decide_True; [done|]. by left.
    + rewrite IH. destruct (decide (p ∈ ids)) as [Hin|Hout].
      * rewrite decide_True; [done|]. by right.
      * rewrite decide_False; [done|]. intros [?|?]%elem_of_cons; congruence.
Qed.

Lemma elem_of_idsToDelete s pid p :
  p ∈ idsToDelete s pid ↔
    p = pid ∨ ∃ c, c ∈ prompts s ∧ parentId c = Some pid ∧ id c = p.
Proof.
  unfold idsToDelete. rewrite elem_of_cons, list_elem_of_fmap. split.
  - intros [?|(c & -> & Hc)]; [by left|right].
    apply list_elem_of_In, filter_In in Hc as [Hc Hp].
    exists c. by rewrite list_elem_of_In, <- parentIs_spec.
  - intros [?|(c & Hc & Hp & <-)]; [by left|right].
    exists c. split; [done|].
    apply list_elem_of_In, filter_In. by rewrite <- list_elem_of_In, parentIs_spec.
Qed.

Lemma inIds_spec ids k : inIds ids k = true ↔ k ∈ ids.
Proof.
  unfold inIds. rewrite existsb_exists. split.
  - intros (x & Hx & ->%String.eqb_eq). by apply list_elem_of_In.
  - intros Hk. exists k. by rewrite <- list_elem_of_In, String.eqb_refl.
Qed.

Lemma historyOf_deleted s ids imageId p :
  historyOf (set_results (λ r, (λ m, foldr delete m ids) <$> r) s) imageId p =
    if decide (p ∈ ids) then [] else historyOf s imageId p.
Proof.
  unfold historyOf, imageResults. cbn. rewrite lookup_fmap.
  destruct (results s !! imageId) as [m|]; cbn.
  - rewrite lookup_foldr_delete. by destruct (decide (p ∈ ids)).
  - rewrite lookup_empty. by destruct (decide (p ∈ ids)).
Qed.

Lemma deletePrompt_goes_ahead s confirmed pid :
  (∀ c, c ∈ prompts s → parentId c ≠ Some pid) ∨ confirmed = true →
  stateAfter (deletePrompt confirmed pid) s =
    set_prompts (List.filter (λ p, negb (inIds (idsToDelete s pid) (id p))))
      (set_results (λ r, (λ m, foldr delete m (idsToDelete s pid)) <$> r) s).
Proof.
  intros H. unfold deletePrompt, stateAfter, setState. cbn [snd].
  destruct (List.filter (parentIs pid) (prompts s)) as [|c l] eqn:Hf; [done|].
  destruct confirmed; [done|]. exfalso. destruct H as [H|H]; [|done].
  assert (Hc : In c (List.filter (parentIs pid) (prompts s))) by (rewrite Hf; by left).
  apply filter_In in Hc as [Hc Hp]. apply (H c); [by apply list_elem_of_In|].
  by apply parentIs_spec.
Qed.

(** C7. Deleting a prompt that has no child, or whose deletion is
    confirmed, empties for every image the history of that prompt and
    of each of its direct children, leaves every other history as it
    was, and removes those prompts from the list; so deleting a parent
    with two children removes the histories of all three. *)
Theorem deletePrompt_cascade (s : AppState) (confirmed : bool) (pid : string) :
  (∀ c, c ∈ prompts s → parentId c ≠ Some pid) ∨ confirmed = true →
  let s' := stateAfter (deletePrompt confirmed pid) s in
  (∀ imageId, historyOf s' imageId pid = [])
  ∧ (∀ imageId c, c ∈ prompts s → parentId c = Some pid →
                  historyOf s' imageId (id c) = [])
  ∧ (∀ imageId p, p ≠ pid →
       (∀ c, c ∈ prompts s → parentId c = Some pid → id c ≠ p) →
       historyOf s' imageId p = historyOf s imageId p)
  ∧ (∀ p, p ∈ prompts s' ↔
          p ∈ prompts s ∧ id p ≠ pid
          ∧ ∀ c, c ∈ prompts s → parentId c = Some pid → id c ≠ id p).
Proof.
  intros H s'. subst s'. rewrite (deletePrompt_goes_ahead _ _ _ H).
  change (historyOf (set_prompts ?f ?t)) with (historyOf t).
  assert (Hkept : ∀ p, inIds (idsToDelete s pid) (id p) = false ↔
                       id p ≠ pid
                       ∧ ∀ c, c ∈ prompts s → parentId c = Some pid → id c ≠ id p).
  { intros p. rewrite <- not_true_iff_false, inIds_spec, elem_of_idsToDelete. split.
    - intros Hn. split; [tauto|]. intros c Hc Hp Hid. apply Hn. right. eauto.
    - intros [Hne Hch] [?|(c & Hc & Hp & Hid)]; [done|]. by apply (Hch c). }
  split; [|split; [|split]].
  - intros imageId. rewrite historyOf_deleted, decide_True; [done|].
    apply elem_of_idsToDelete. by left.
  - intros imageId c Hc Hp. rewrite historyOf_deleted, decide_True; [done|].
    apply elem_of_idsToDelete. right. eauto.
  - intros imageId p Hne Hch. rewrite historyOf_deleted, decide_False; [done|].
    intros [?|(c & Hc & Hp & Hid)]%elem_of_idsToDelete; [done|]. by apply (Hch c).
  - intros p. cbn [prompts set_prompts].
    rewrite list_elem_of_In, filter_In, <- list_elem_of_In, negb_true_iff, Hkept.
    tauto.
Qed.

(** *** The flow of one task *)

Lemma mapM_None {A B} (f : A → option B) (l : list A) :
  mapM f l = None ↔ ∃ x, x ∈ l ∧ f x = None.
Proof.
  induction l as [|a l IH]; cbn [mapM].
  - split; [done|]. by intros (x & ?%elem_of_nil & _).
  - destruct (f a) as [b|] eqn:Ha; cbn.
    + destruct (mapM f l) as [k|]; cbn.
      * split; [done|]. intros (x & [->|Hx]%elem_of_cons & Hfx); [congruence|].
        assert (Some k = None) as Hk by (apply IH; eauto). done.
      * split; [|done]. intros _. destruct (proj1 IH eq_refl) as (x & Hx & Hfx).
        exists x. split; [by right|done].
    + split; [|done]. intros _. exists a. split; [by left|done].
Qed.

Lemma mapM_agree {A B} (f g : A → option B) (l : list A) (k : list B) :
  (∀ x y, x ∈ l → f x = Some y → g x = Some y) → mapM f l = Some k → mapM g l = Some k.
Proof.
  revert k. induction l as [|a l IH]; intros k H; cbn [mapM]; [done|].
  destruct (f a) as [b|] eqn:Ha; [|done]. cbn.
  destruct (mapM f l) as [k'|] eqn:Hk; [|done]. cbn. intros [= <-].
  rewrite (H a b); [|by left|done]. cbn.
  rewrite (IH k'); [done| |done]. intros x y Hx. apply H. by right.
Qed.

(** A recursion that returns within some depth returns the same ids
    within any greater depth. *)
Lemma findDescendants_S fuel ps parent ids :
  findDescendants fuel ps parent = Some ids →
  findDescendants (S fuel) ps parent = Some ids.
Proof.
  revert parent ids. induction fuel as [|fuel IH]; intros parent ids; [done|].
  intros H. change (findDescendants (S (S fuel)) ps parent)
    with ((λ found, List.concat found) <$>
            mapM (λ p, if parentIs parent p
                       then cons (id p) <$> findDescendants (S fuel) ps (id p)
                       else Some []) ps).
  cbn [findDescendants] in H.
  destruct (mapM _ ps) as [found|] eqn:Hm in H; [|done].
  rewrite (mapM_agree _ _ _ found) with (2 := Hm); [done|].
  intros p y _. destruct (parentIs parent p); [|done].
  destruct (findDescendants fuel ps (id p)) as [l|] eqn:Hl; [|done].
  by rewrite (IH _ _ Hl).
Qed.

Lemma findDescendants_le fuel fuel' ps parent ids :
  fuel ≤ fuel' → findDescendants fuel ps parent = Some ids →
  findDescendants fuel' ps parent = Some ids.
Proof. induction 1; [done|]. intros Hf. by apply findDescendants_S, IHle. Qed.

Lemma findDescendants_None_le fuel fuel' ps parent :
  fuel ≤ fuel' → findDescendants fuel' ps parent = None →
  findDescendants fuel ps parent = None.
Proof.
  intros Hle H. destruct (findDescendants fuel ps parent) as [ids|] eqn:E; [|done].
  by rewrite (findDescendants_le _ _ _ _ _ Hle E) in H.
Qed.

(** A chain of length [k] is what keeps the recursion from returning
    within depth [k]. *)
Lemma findDescendants_None fuel ps parent :
  findDescendants fuel ps parent = None ↔
  ∃ path, length path = fuel ∧ chain ps parent path.
Proof.
  revert parent. induction fuel as [|fuel IH]; intros parent.
  - split; [by exists []|done].
  - cbn [findDescendants]. rewrite fmap_None, mapM_None. split.
    + intros (p & Hp & Hf). destruct (parentIs parent p) eqn:Hpar; [|done].
      apply fmap_None, IH in Hf as (path & Hlen & Hch).
      exists (p :: path). split; [by rewrite <- Hlen|].
      split; [done|]. split; [by apply parentIs_spec|done].
    + intros ([|p path] & Hlen & Hch); [done|].
      destruct Hch as (Hp & Hpar & Hch). exists p. split; [done|].
      apply parentIs_spec in Hpar. rewrite Hpar.
      apply fmap_None, IH. exists path. split; [|done]. cbn in Hlen. lia.
Qed.

Lemma chain_app ps parent path path' :
  chain ps parent (path ++ path') ↔
  chain ps parent path ∧ chain ps (chainEnd parent path) path'.
Proof.
  revert parent. induction path as [|p path IH]; intros parent; cbn.
  - tauto.
  - rewrite IH. tauto.
Qed.

Lemma chainEnd_app parent path path' :
  chainEnd parent (path ++ path') = chainEnd (chainEnd parent path) path'.
Proof. revert parent. induction path as [|p path IH]; intros parent; cbn; auto. Qed.

(** A chain that comes back to where it started can be walked any
    number of times. *)
Lemma chain_round ps parent cycle n :
  chain ps parent cycle → chainEnd parent cycle = parent →
  chain ps parent (mjoin (replicate n cycle))
  ∧ chainEnd parent (mjoin (replicate n cycle)) = parent.
Proof.
  intros Hch Hend. induction n as [|n [IH1 IH2]]; [done|].
  cbn [replicate mjoin list_join]. rewrite chain_app, chainEnd_app, Hend. auto.
Qed.

Lemma not_NoDup_split (l : list string) :
  ¬ NoDup l → ∃ a x b c, l = a ++ x :: b ++ x :: c.
Proof.
  induction l as [|x l IH]; intros H.
  - destruct H. constructor.
  - destruct (decide (x ∈ l)) as [Hx|Hx].
    + apply list_elem_of_split in Hx as (b & c & ->). by exists [], x, b, c.
    + destruct IH as (a & y & b & c & ->).
      { intros Hnd. apply H. by constructor. }
      by exists (x :: a), y, b, c.
Qed.

Lemma chain_in ps parent path p : chain ps parent path → p ∈ path → p ∈ ps.
Proof.
  revert parent. induction path as [|q path IH]; intros parent; [by intros _ ?%elem_of_nil|].
  intros (Hq & _ & Hch) [->|Hp]%elem_of_cons; [done|]. by eapply IH.
Qed.

(** A chain longer than the list visits an id twice, so it holds a
    round, and there are chains of every length. *)
Lemma chain_pump ps parent path n :
  chain ps parent path → length ps < length path →
  ∃ path', chain ps parent path' ∧ n ≤ length path'.
Proof.
  intros Hch Hlen.
  destruct (not_NoDup_split (id <$> path)) as (a & x & b & c & Hsplit).
  { intros Hnd.
    assert (length (id <$> path) ≤ length (id <$> ps)); [|rewrite !length_fmap in *; lia].
    apply submseteq_length, NoDup_submseteq; [done|].
    intros k (p & -> & Hp)%list_elem_of_fmap.
    apply list_elem_of_fmap. exists p. split; [done|]. by eapply chain_in. }
  apply fmap_app_inv in Hsplit as (pa & rest & Ha & Hrest & ->).
  symmetry in Hrest. apply fmap_cons_inv in Hrest as (px & rest' & Hx & Hrest' & ->).
  symmetry in Hrest'. apply fmap_app_inv in Hrest' as (pb & rest'' & Hb & Hrest'' & ->).
  symmetry in Hrest''. apply fmap_cons_inv in Hrest'' as (py & pc & Hy & Hc & ->).
  replace (pa ++ px :: pb ++ py :: pc) with ((pa ++ [px]) ++ (pb ++ [py]) ++ pc) in Hch
    by (by rewrite <- !app_assoc).
  apply chain_app in Hch as [Hhead Hch]. apply chain_app in Hch as [Hcycle _].
  assert (Hstart : chainEnd parent (pa ++ [px]) = x).
  { rewrite chainEnd_app. cbn. congruence. }
  rewrite Hstart in Hcycle.
  assert (Hend : chainEnd x (pb ++ [py]) = x).
  { rewrite chainEnd_app. cbn. congruence. }
  destruct (chain_round ps x (pb ++ [py]) n Hcycle Hend) as [Hround _].
  exists ((pa ++ [px]) ++ mjoin (replicate n (pb ++ [py]))). split.
  - apply chain_app. by rewrite Hstart.
  - rewrite length_app.
    assert (n ≤ length (mjoin (replicate n (pb ++ [py])))); [|lia].
    clear. generalize (pb ++ [py]) (length_app pb [py]). intros cycle Hc.
    induction n as [|n IH]; [done|].
    change (mjoin (replicate (S n) cycle)) with (cycle ++ mjoin (replicate n cycle)).
    rewrite length_app, Hc. cbn [length]. lia.
Qed.

(** The depth [descendantsOf] allows is enough: a recursion that
    returns at all returns within it, with the same ids. *)
Lemma findDescendants_enough_fuel fuel ps parent ids :
  findDescendants fuel ps parent = Some ids → descendantsOf ps parent = Some ids.
Proof.
  intros H. unfold descendantsOf.
  destruct (findDescendants (S (length ps)) ps parent) as [ids'|] eqn:E.
  - destruct (Nat.le_ge_cases fuel (S (length ps))) as [Hle|Hle].
    + by rewrite (findDescendants_le _ _ _ _ _ Hle H) in E.
    + by rewrite (findDescendants_le _ _ _ _ _ Hle E) in H.
  - apply findDescendants_None in E as (path & Hlen & Hch).
    destruct (chain_pump ps parent path fuel Hch) as (path' & Hch' & Hlen'); [lia|].
    assert (findDescendants (length path') ps parent = None) as Hn
      by (apply findDescendants_None; eauto).
    by rewrite (findDescendants_None_le _ _ _ _ Hlen' Hn) in H.
Qed.

Lemma historyOf_set_image imageId (m : gmap string (list AnalysisResult)) s i p :
  historyOf (set_results (λ r, <[imageId := m]> r) s) i p =
    if decide (i = imageId) then default [] (m !! p) else historyOf s i p.
Proof.
  unfold historyOf, imageResults. cbn. rewrite lookup_insert.
  destruct (decide (imageId = i)) as [->|Hi].
  - by rewrite decide_True.
  - rewrite decide_False; [done|]. congruence.
Qed.

Lemma historyOf_clearHistories imageId ids s i p :
  historyOf (clearHistories imageId ids s) i p =
    if decide (i = imageId ∧ p ∈ ids) then [] else historyOf s i p.
Proof.
  unfold clearHistories. destruct ids as [|k ids].
  { rewrite decide_False; [done|]. by intros [_ ?%elem_of_nil]. }
  destruct (results s !! imageId) as [m|] eqn:Hm.
  - rewrite historyOf_set_image, lookup_foldr_delete.
    destruct (decide (i = imageId)) as [->|Hi].
    + destruct (decide (p ∈ k :: ids)).
      * by rewrite decide_True.
      * rewrite decide_False; [|by intros [_ ?]].
        unfold historyOf, imageResults. by rewrite Hm.
    + rewrite decide_False; [done|]. by intros [? _].
  - destruct (decide (i = imageId ∧ p ∈ k :: ids)) as [[-> _]|]; [|done].
    unfold historyOf, imageResults. by rewrite Hm.
Qed.

Lemma find_id_spec (ps : list Prompt) pid parent :
  List.find (λ p, String.eqb (id p) pid) ps = Some parent → id parent = pid.
Proof. intros [_ H]%find_some. by apply String.eqb_eq. Qed.

Lemma runPendingAnalysis_tasks s imageId :
  selectedImage s = Some imageId →
  stateAfter runPendingAnalysis s
    = stateAfter (forEachTry (taskList s imageId) runSingleAnalysisFlow) s.
Proof.
  intros Hs. unfold runPendingAnalysis, taskList. rewrite stateAfter_bind.
  change (valueOf getState s) with s. change (stateAfter getState s) with s.
  rewrite Hs. by destruct (tasksToRun s imageId).
Qed.
End StoreFacts.

(** ** Further properties of the decoder, the store and the gallery *)

Section MoreStrings.

Lemma append_cons (c : ascii) (a b : string) : String c a +:+ b = String c (a +:+ b).
Proof. reflexivity. Qed.

Lemma append_nil_l (b : string) : "" +:+ b = b.
Proof. reflexivity. Qed.

Lemma append_nil_r (s : string) : s +:+ "" = s.
Proof. induction s as [|c s IH]; [done|]. by rewrite append_cons, IH. Qed.

Lemma append_assoc (a b c : string) : (a +:+ b) +:+ c = a +:+ (b +:+ c).
Proof. induction a as [|x a IH]; [done|]. by rewrite !append_cons, IH. Qed.

Lemma truthy_false (s : string) : truthy s = false ↔ s = "".
Proof. destruct s; cbn; split; congruence. Qed.

Lemma trimStart_head (s : string) :
  trimStart s = "" ∨ ∃ c r, trimStart s = String c r ∧ isWhiteSpace c = false.
Proof.
  induction s as [|c s IH]; [by left|]. cbn [trimStart].
  destruct (isWhiteSpace c) eqn:Hc; [exact IH|]. right. eauto.
Qed.

Lemma trimEnd_visible (c : ascii) (r : string) :
  isWhiteSpace c = false → trimEnd (String c r) ≠ "".
Proof. intros Hc. cbn [trimEnd]. destruct (trimEnd r); [by rewrite Hc|done]. Qed.

Lemma trim_empty (s : string) : trim s = "" ↔ trimStart s = "".
Proof.
  unfold trim. split; [|by intros ->].
  destruct (trimStart_head s) as [?|(c & r & -> & Hc)]; [done|].
  intros H. by destruct (trimEnd_visible c r Hc).
Qed.

Lemma trimStart_app_blank (a b : string) :
  trimStart a = "" → trimStart (a +:+ b) = trimStart b.
Proof.
  induction a as [|c a IH]; [done|]. rewrite append_cons. cbn [trimStart].
  destruct (isWhiteSpace c); [exact IH|discriminate].
Qed.

Lemma trimStart_app_visible (a b : string) :
  trimStart a ≠ "" → trimStart (a +:+ b) = trimStart a +:+ b.
Proof.
  induction a as [|c a IH]; [done|]. rewrite append_cons. cbn [trimStart].
  destruct (isWhiteSpace c); [exact IH|done].
Qed.

Lemma trimStart_idem (s : string) : trimStart (trimStart s) = trimStart s.
Proof.
  destruct (trimStart_head s) as [->|(c & r & -> & Hc)]; [done|].
  cbn [trimStart]. by rewrite Hc.
Qed.

Lemma trim_trimStart_app (x y : string) : trim (trimStart x +:+ y) = trim (x +:+ y).
Proof.
  unfold trim. f_equal.
  destruct (trimStart x) as [|c r] eqn:Hx.
  - by rewrite (trimStart_app_blank x y Hx).
  - rewrite (trimStart_app_visible x y) by congruence. rewrite Hx.
    destruct (trimStart_head x) as [H|(c' & r' & H & Hc)]; [congruence|].
    rewrite Hx in H. injection H as -> ->. rewrite append_cons. cbn [trimStart]. by rewrite Hc.
Qed.

Lemma startsWith_app (p a b : string) :
  startsWith p a = true → startsWith p (a +:+ b) = true.
Proof.
  unfold startsWith. revert a. induction p as [|x p IH]; intros a.
  - intros _. apply prefix_nil.
  - destruct a as [|c a]; [discriminate|]. rewrite append_cons, !prefix_cons.
    destruct (Ascii.ascii_dec x c); [apply IH|done].
Qed.

Lemma startsWith_split (p s : string) :
  startsWith p s = true → ∃ r, s = p +:+ r.
Proof.
  unfold startsWith. revert s. induction p as [|x p IH]; intros s.
  - exists s. done.
  - destruct s as [|c s]; [discriminate|]. rewrite prefix_cons.
    destruct (Ascii.ascii_dec x c) as [->|]; [|discriminate].
    intros [r ->]%IH. by exists r.
Qed.

Lemma startsWith_length (p a : string) :
  startsWith p a = true → String.length p ≤ String.length a.
Proof.
  unfold startsWith. revert a. induction p as [|x p IH]; intros a; [cbn; lia|].
  destruct a as [|c a]; [discriminate|]. rewrite prefix_cons.
  destruct (Ascii.ascii_dec x c); [|discriminate]. intros ?%IH. cbn. lia.
Qed.

Lemma startsWith_app_within (p a b : string) :
  String.length p ≤ String.length a → startsWith p (a +:+ b) = startsWith p a.
Proof.
  unfold startsWith. revert a. induction p as [|x p IH]; intros a Hl.
  - by rewrite !prefix_nil.
  - destruct a as [|c a]; [cbn in Hl; lia|]. rewrite append_cons, !prefix_cons.
    destruct (Ascii.ascii_dec x c); [|done]. apply IH. cbn in Hl. lia.
Qed.

Lemma indexOf_bound (p a : string) (i : nat) :
  indexOf p a = Some i → i + String.length p ≤ String.length a.
Proof.
  revert i. induction a as [|c a IH]; intros i; cbn [indexOf].
  - destruct (startsWith p "") eqn:Hp; [|discriminate].
    intros [= <-]. by apply startsWith_length.
  - destruct (startsWith p (String c a)) eqn:Hp.
    + intros [= <-]. by apply startsWith_length.
    + destruct (indexOf p a) as [j|]; [|discriminate].
      intros [= <-]. specialize (IH j eq_refl). cbn. lia.
Qed.

Lemma indexOf_app (p a b : string) (i : nat) :
  indexOf p a = Some i → indexOf p (a +:+ b) = Some i.
Proof.
  revert i. induction a as [|c a IH]; intros i Hi.
  - pose proof (indexOf_bound _ _ _ Hi) as Hb. cbn in Hb.
    assert (p = "") as -> by (destruct p; [done|cbn in Hb; lia]).
    assert (i = 0) as -> by lia. by destruct b.
  - pose proof (indexOf_bound _ _ _ Hi) as Hb.
    rewrite append_cons. cbn [indexOf] in *. rewrite <- append_cons.
    destruct (startsWith p (String c a)) eqn:Hp.
    + by rewrite (startsWith_app _ _ _ Hp).
    + destruct (indexOf p a) as [j|] eqn:Hj; [|discriminate].
      injection Hi as <-. rewrite startsWith_app_within, Hp, (IH j); [done..|].
      cbn in Hb. cbn. lia.
Qed.

Lemma substringFrom_app (n : nat) (a b : string) :
  n ≤ String.length a → substringFrom n (a +:+ b) = substringFrom n a +:+ b.
Proof.
  revert a. induction n as [|n IH]; intros a Hn; [by destruct a|].
  destruct a as [|c a]; [cbn in Hn; lia|]. rewrite append_cons. cbn [substringFrom].
  apply IH. cbn in Hn. lia.
Qed.

End MoreStrings.

Section DecoderFacts.

Lemma visibleText_deltas (out : list string) (ys : list Yield) :
  visibleText ((YDelta <$> out) ++ ys) = concat out +:+ visibleText ys.
Proof.
  induction out as [|c out IH]; [done|]. cbn [fmap list_fmap app visibleText concat].
  change (visibleText (list_fmap _ _ YDelta out ++ ys)) with (visibleText ((YDelta <$> out) ++ ys)).
  by rewrite IH, append_assoc.
Qed.

Lemma streaming_passes (d : Decoder) (l : list string) :
  parsingState d = streaming →
  visibleText (streamYields d (ChunkDelta <$> l)) = concat l.
Proof.
  intros Hd. induction l as [|c l IH]; [done|]. cbn [fmap list_fmap streamYields concat].
  change (list_fmap _ _ ChunkDelta l) with (ChunkDelta <$> l).
  destruct (truthy c) eqn:Hc.
  - unfold feedDelta. rewrite Hd.
    rewrite (visibleText_deltas [c]). cbn [concat]. by rewrite IH, append_nil_r.
  - apply truthy_false in Hc as ->. by rewrite IH.
Qed.

Lemma length_pos_truthy (s : string) : (0 <? String.length s) = truthy s.
Proof. by destruct s. Qed.

Lemma truthy_trim (s : string) : truthy (trim s) = truthy (trimStart s).
Proof.
  destruct (trimStart s) as [|c r] eqn:Hs.
  - by rewrite (proj2 (trim_empty s) Hs).
  - destruct (trim s) eqn:Ht; [|done]. apply trim_empty in Ht. congruence.
Qed.

Lemma startsWith_think_trim (s : string) :
  startsWith "<think>" (trim s) = startsWith "<think>" (trimStart s).
Proof. unfold trim. by apply startsWith_trimEnd. Qed.

(** From [initial] with a blank buffer, a stream that does not begin
    with the opening tag is yielded whole, buffer included. *)
Lemma initial_passes (acc : string) (l : list string) :
  trimStart acc = "" →
  startsWith "<think>" (trimStart (acc +:+ concat l)) = false →
  visibleText (streamYields {| parsingState := initial; accumulatedContent := acc |}
                 (ChunkDelta <$> l))
    = if truthy (trimStart (acc +:+ concat l)) then acc +:+ concat l else "".
Proof.
  revert acc. induction l as [|c l IH]; intros acc Hacc Hno.
  - cbn [concat]. by rewrite append_nil_r, Hacc.
  - cbn [fmap list_fmap streamYields concat] in *.
    change (list_fmap _ _ ChunkDelta l) with (ChunkDelta <$> l).
    destruct (truthy c) eqn:Hc.
    + unfold feedDelta. cbn [parsingState accumulatedContent].
      rewrite length_pos_truthy, truthy_trim, startsWith_think_trim.
      rewrite <- append_assoc in Hno |- *.
      destruct (trimStart (acc +:+ c)) as [|x r] eqn:Hx; cbn [truthy].
      * cbn [fmap list_fmap app]. by apply IH.
      * rewrite trimStart_app_visible in Hno |- * by congruence. rewrite Hx in Hno |- *.
        destruct (startsWith "<think>" (String x r)) eqn:Hst.
        { by rewrite (startsWith_app _ _ _ Hst) in Hno. }
        rewrite (visibleText_deltas [acc +:+ c]). cbn [concat truthy].
        by rewrite streaming_passes, append_nil_r.
    + apply truthy_false in Hc as ->. rewrite append_nil_l in *. by apply IH.
Qed.

Lemma indexOf_app_None (p a b : string) :
  indexOf p (a +:+ b) = None → indexOf p a = None.
Proof.
  intros H. destruct (indexOf p a) as [i|] eqn:Hi; [|done].
  by rewrite (indexOf_app _ _ _ _ Hi) in H.
Qed.

(** While it skips the block, the decoder yields nothing until the
    closing tag is in its buffer, and then what follows the tag. *)
Lemma skipping_silent (acc : string) (l : list string) :
  indexOf "</think>" (acc +:+ concat l) = None →
  streamYields {| parsingState := skipping_think; accumulatedContent := acc |}
    (ChunkDelta <$> l) = [].
Proof.
  revert acc. induction l as [|c l IH]; intros acc Hno; [done|].
  cbn [fmap list_fmap streamYields concat] in *.
  change (list_fmap _ _ ChunkDelta l) with (ChunkDelta <$> l).
  destruct (truthy c) eqn:Hc.
  - unfold feedDelta. cbn [parsingState accumulatedContent].
    rewrite <- (append_assoc acc c (concat l)) in Hno. rewrite (indexOf_app_None _ _ _ Hno).
    cbn [fmap list_fmap app]. by apply IH.
  - apply truthy_false in Hc as ->. by apply IH.
Qed.

Lemma skipping_result (acc : string) (l : list string) (i : nat) :
  indexOf "</think>" acc = None →
  indexOf "</think>" (acc +:+ concat l) = Some i →
  trim (visibleText (streamYields
          {| parsingState := skipping_think; accumulatedContent := acc |} (ChunkDelta <$> l)))
    = trim (substringFrom (i + 8) (acc +:+ concat l)).
Proof.
  revert acc. induction l as [|c l IH]; intros acc Hacc Hi.
  { cbn [concat] in Hi. rewrite append_nil_r in Hi. congruence. }
  cbn [fmap list_fmap streamYields concat] in *.
  change (list_fmap _ _ ChunkDelta l) with (ChunkDelta <$> l).
  destruct (truthy c) eqn:Hc.
  - unfold feedDelta. cbn [parsingState accumulatedContent].
    rewrite <- (append_assoc acc c (concat l)) in Hi |- *.
    destruct (indexOf "</think>" (acc +:+ c)) as [j|] eqn:Hj.
    + rewrite (indexOf_app _ _ _ _ Hj) in Hi. injection Hi as <-.
      pose proof (indexOf_bound _ _ _ Hj) as Hb.
      change (String.length "</think>") with 8 in *.
      unfold closeThink. change (String.length "</think>") with 8.
      rewrite (substringFrom_app (j + 8) (acc +:+ c) (concat l)) by exact Hb.
      set (rem := substringFrom (j + 8) (acc +:+ c)).
      assert (Hvis : ∀ out, concat out = trimStart rem →
                 trim (visibleText ((YDelta <$> out) ++ streamYields
                         {| parsingState := streaming; accumulatedContent := "" |}
                         (ChunkDelta <$> l)))
                 = trim (rem +:+ concat l)).
      { intros out Hout. rewrite visibleText_deltas, streaming_passes by done.
        rewrite Hout. apply trim_trimStart_app. }
      destruct (truthy rem) eqn:Hrem.
      * apply Hvis. cbn [concat]. by rewrite append_nil_r.
      * apply Hvis. apply truthy_false in Hrem. by rewrite Hrem.
    + cbn [fmap list_fmap app]. by apply IH.
  - apply truthy_false in Hc as ->. by apply IH.
Qed.

Lemma think_open (r : string) :
  "<think>" +:+ r = String "<" (String "t" (String "h" (String "i" (String "n"
                      (String "k" (String ">" r)))))).
Proof. reflexivity. Qed.

Lemma trim_trimStart (s : string) : trim (trimStart s) = trim s.
Proof. unfold trim. by rewrite trimStart_idem. Qed.

Lemma white_not_lt (c : ascii) : isWhiteSpace c = true → c ≠ "<"%char.
Proof. intros H ->. discriminate. Qed.

Lemma startsWith_think_open (r : string) : startsWith "<think>" ("<think>" +:+ r) = true.
Proof. rewrite think_open. unfold startsWith. cbn. apply prefix_nil. Qed.

Lemma stripThinkingFrom_think_open (r : string) :
  stripThinkingFrom ("<think>" +:+ r)
    = match indexOf "</think>" r with
      | Some i => trimStart (substringFrom (7 + i + 8) ("<think>" +:+ r))
      | None => "<think>" +:+ r
      end.
Proof.
  pose proof (startsWith_think_open r) as H. rewrite think_open in *.
  cbn [stripThinkingFrom]. rewrite H. reflexivity.
Qed.

Lemma indexOf_close_skip (c : ascii) (s : string) :
  c ≠ "<"%char → indexOf "</think>" (String c s) = S <$> indexOf "</think>" s.
Proof.
  intros Hc. cbn [indexOf]. unfold startsWith. rewrite prefix_cons.
  destruct (Ascii.ascii_dec "<" c) as [E|_]; [congruence|done].
Qed.

Lemma indexOf_close_skip2 (d : ascii) (s : string) :
  d ≠ "/"%char →
  indexOf "</think>" (String "<" (String d s)) = S <$> indexOf "</think>" (String d s).
Proof.
  intros Hd. cbn [indexOf]. unfold startsWith. rewrite !prefix_cons.
  destruct (Ascii.ascii_dec "<" "<") as [_|E]; [|done].
  destruct (Ascii.ascii_dec "/" d) as [E|_]; [congruence|done].
Qed.

Lemma indexOf_think_open (r : string) :
  indexOf "</think>" ("<think>" +:+ r) = (λ i, 7 + i) <$> indexOf "</think>" r.
Proof.
  rewrite think_open, indexOf_close_skip2 by discriminate.
  rewrite !indexOf_close_skip by discriminate.
  destruct (indexOf "</think>" r); reflexivity.
Qed.

(** On a text that begins with the opening tag, [stripThinking] cuts at
    the first closing tag of the text. *)
Lemma stripThinking_leading (t : string) :
  startsWith "<think>" (trimStart t) = true →
  stripThinking t = match indexOf "</think>" t with
                    | Some i => trim (substringFrom (i + 8) t)
                    | None => trim t
                    end.
Proof.
  induction t as [|c t IH]; [discriminate|]. cbn [trimStart].
  destruct (isWhiteSpace c) eqn:Hc.
  - intros H. specialize (IH H). pose proof (white_not_lt c Hc) as Hne.
    unfold stripThinking in *. cbn [stripThinkingFrom indexOf]. unfold startsWith.
    rewrite !prefix_cons.
    destruct (Ascii.ascii_dec "<" c) as [<-|_]; [done|].
    assert (Htrim : ∀ x, trim (String c x) = trim x).
    { intros x. unfold trim. cbn [trimStart]. by rewrite Hc. }
    rewrite Htrim, IH.
    destruct (indexOf "</think>" t) as [i|]; cbn [fmap option_fmap option_map]; [done|].
    by rewrite Htrim.
  - intros [r Hr]%startsWith_split. rewrite Hr.
    rewrite (indexOf_think_open r). unfold stripThinking.
    rewrite (stripThinkingFrom_think_open r).
    destruct (indexOf "</think>" r) as [j|]; cbn [fmap option_fmap option_map].
    + by rewrite trim_trimStart.
    + done.
Qed.

Lemma blank_no_close (a : string) : trimStart a = "" → indexOf "</think>" a = None.
Proof.
  induction a as [|c a IH]; [done|]. cbn [trimStart].
  destruct (isWhiteSpace c) eqn:Hc; [|discriminate]. intros H.
  rewrite indexOf_close_skip by (by apply white_not_lt). by rewrite (IH H).
Qed.

(** With a blank buffer, the delta that brings the opening tag is read
    as it would be while skipping. *)
Lemma initial_enters_block (acc d : string) (l : list string) :
  trimStart acc = "" → startsWith "<think>" (trimStart (acc +:+ d)) = true →
  streamYields {| parsingState := initial; accumulatedContent := acc |}
    (ChunkDelta <$> d :: l)
  = streamYields {| parsingState := skipping_think; accumulatedContent := acc |}
      (ChunkDelta <$> d :: l).
Proof.
  intros Hacc Hst. cbn [fmap list_fmap streamYields].
  destruct (truthy d) eqn:Hd.
  - unfold feedDelta. cbn [parsingState accumulatedContent].
    rewrite length_pos_truthy, truthy_trim, startsWith_think_trim, Hst.
    destruct (trimStart (acc +:+ d)); [discriminate|done].
  - apply truthy_false in Hd as ->. rewrite append_nil_r, Hacc in Hst. discriminate.
Qed.

Lemma initial_waits (acc : string) (pre rest : list string) :
  trimStart (acc +:+ concat pre) = "" →
  streamYields {| parsingState := initial; accumulatedContent := acc |}
    (ChunkDelta <$> pre ++ rest)
  = streamYields {| parsingState := initial; accumulatedContent := acc +:+ concat pre |}
      (ChunkDelta <$> rest).
Proof.
  revert acc. induction pre as [|c pre IH]; intros acc Hb.
  { cbn [concat app]. by rewrite append_nil_r. }
  cbn [concat app fmap list_fmap streamYields] in *.
  change (list_fmap _ _ ChunkDelta (pre ++ rest)) with (ChunkDelta <$> pre ++ rest).
  rewrite <- (append_assoc acc c (concat pre)) in Hb |- *.
  destruct (truthy c) eqn:Hc.
  - unfold feedDelta. cbn [parsingState accumulatedContent].
    rewrite length_pos_truthy, truthy_trim.
    assert (trimStart (acc +:+ c) = "") as ->.
    { destruct (trimStart (acc +:+ c)) eqn:E; [done|].
      rewrite trimStart_app_visible, E in Hb by congruence. discriminate. }
    cbn [truthy fmap list_fmap app]. by apply IH.
  - apply truthy_false in Hc as ->. rewrite append_nil_r in *. by apply IH.
Qed.

Lemma concat_app (a b : list string) : concat (a ++ b) = concat a +:+ concat b.
Proof.
  induction a as [|x a IH]; [done|]. cbn [app concat]. by rewrite IH, append_assoc.
Qed.

Lemma includes_indexOf (p s : string) :
  includes p s = match indexOf p s with Some _ => true | None => false end.
Proof. reflexivity. Qed.

(** X2. When a stream begins with blank deltas, the opening tag of a
    thinking block is complete at the first delta that is not blank,
    and the closing tag arrives, the deltas yielded add up, once
    trimmed, to what [stripThinking] makes of the whole text. *)
Theorem leading_block_is_skipped (pre : list string) (d : string) (post : list string) :
  trim (concat pre) = "" →
  startsWith "<think>" (trim (concat pre +:+ d)) = true →
  includes "</think>" (concat (pre ++ d :: post)) = true →
  trim (visibleText (streamYields decoderStart (ChunkDelta <$> pre ++ d :: post)))
    = stripThinking (concat (pre ++ d :: post)).
Proof.
  rewrite trim_empty, startsWith_think_trim, includes_indexOf. intros Hpre Hst Hin.
  unfold decoderStart.
  rewrite initial_waits by (by rewrite append_nil_l).
  rewrite append_nil_l, initial_enters_block by done.
  rewrite concat_app in *. cbn [concat] in *.
  destruct (indexOf "</think>" (concat pre +:+ d +:+ concat post)) as [i|] eqn:Hi; [|done].
  change (d :: post) with ([d] ++ post) at 1.
  rewrite (skipping_result _ _ i); [|by apply blank_no_close|done].
  rewrite stripThinking_leading, Hi; [done|].
  rewrite <- append_assoc, trimStart_app_visible; [by apply startsWith_app|].
  by destruct (trimStart (concat pre +:+ d)).
Qed.

(** X3. When a stream begins, blank deltas apart, with the opening tag
    of a thinking block and the closing tag never arrives, the stream
    yields nothing. *)
Theorem open_block_yields_nothing (pre : list string) (d : string) (post : list string) :
  trim (concat pre) = "" →
  startsWith "<think>" (trim (concat pre +:+ d)) = true →
  includes "</think>" (concat (pre ++ d :: post)) = false →
  streamYields decoderStart (ChunkDelta <$> pre ++ d :: post) = [].
Proof.
  rewrite trim_empty, startsWith_think_trim, includes_indexOf. intros Hpre Hst Hin.
  unfold decoderStart.
  rewrite initial_waits by (by rewrite append_nil_l).
  rewrite append_nil_l, initial_enters_block by done.
  apply skipping_silent. rewrite concat_app in Hin.
  by destruct (indexOf _ _).
Qed.

(** X1. A stream whose text does not begin, blanks apart, with the
    opening tag of a thinking block is passed through as it comes: the
    deltas yielded add up to the text received, and to nothing when
    that text is blank. *)
Theorem stream_without_block_is_passed (deltas : list string) :
  startsWith "<think>" (trim (concat deltas)) = false →
  visibleText (streamYields decoderStart (ChunkDelta <$> deltas))
    = if truthy (trim (concat deltas)) then concat deltas else "".
Proof.
  rewrite startsWith_think_trim, truthy_trim. intros H. unfold decoderStart.
  by rewrite initial_passes.
Qed.

End DecoderFacts.

Section BlockFacts.

Lemma includes_cons (p : string) (c : ascii) (s : string) :
  includes p (String c s) = false →
  startsWith p (String c s) = false ∧ includes p s = false.
Proof. rewrite includes_unfold. by intros [? ?]%orb_false_iff. Qed.

(** A pattern whose first character does not occur again in it does not
    overlap itself. *)
Lemma prefix_within (q x : string) (c0 : ascii) (t : string) :
  includes (String c0 "") q = false →
  String.prefix q (x +:+ String c0 t) = true → String.prefix q x = true.
Proof.
  revert x. induction q as [|a q IH]; intros x Hq H; [apply prefix_nil|].
  apply includes_cons in Hq as [Ha Hq]. unfold startsWith in Ha.
  rewrite prefix_cons, prefix_nil in Ha.
  destruct x as [|y x].
  - rewrite append_nil_l, prefix_cons in H.
    destruct (Ascii.ascii_dec a c0) as [->|]; [|done].
    by destruct (Ascii.ascii_dec c0 c0).
  - rewrite append_cons, prefix_cons in H. rewrite prefix_cons.
    destruct (Ascii.ascii_dec a y); [by apply IH|done].
Qed.

Lemma no_overlap (c0 : ascii) (p x rest : string) :
  includes (String c0 "") p = false → x ≠ "" →
  startsWith (String c0 p) x = false →
  startsWith (String c0 p) (x +:+ String c0 p +:+ rest) = false.
Proof.
  intros Hp Hx H. destruct x as [|y x]; [done|]. unfold startsWith in *.
  rewrite append_cons, prefix_cons in *.
  destruct (Ascii.ascii_dec c0 y); [|done].
  destruct (String.prefix p (x +:+ String c0 p +:+ rest)) eqn:E; [|done].
  rewrite append_cons in E. apply prefix_within in E; [congruence|done].
Qed.

Lemma startsWith_self (p r : string) : startsWith p (p +:+ r) = true.
Proof.
  unfold startsWith. induction p as [|c p IH]; [apply prefix_nil|].
  rewrite append_cons, prefix_cons. by destruct (Ascii.ascii_dec c c).
Qed.

Lemma indexOf_head (p s : string) : startsWith p s = true → indexOf p s = Some 0.
Proof. intros H. destruct s; cbn [indexOf]; by rewrite H. Qed.

Lemma stripThinkingFrom_before (a rest : string) :
  includes "<think>" a = false →
  stripThinkingFrom (a +:+ "<think>" +:+ rest) = a +:+ stripThinkingFrom ("<think>" +:+ rest).
Proof.
  induction a as [|c a IH]; [done|]. intros [Hc Ha]%includes_cons.
  rewrite (append_cons c a). cbn [stripThinkingFrom].
  rewrite <- (append_cons c a). rewrite (no_overlap "<" "think>"); [|done..].
  rewrite (append_cons c a). by rewrite IH.
Qed.

Lemma indexOf_close_after (b c : string) :
  includes "</think>" b = false →
  indexOf "</think>" (b +:+ "</think>" +:+ c) = Some (String.length b).
Proof.
  induction b as [|x b IH].
  { intros _. rewrite append_nil_l. apply indexOf_head, startsWith_self. }
  intros [Hx Hb]%includes_cons.
  rewrite (append_cons x b). cbn [indexOf].
  rewrite <- (append_cons x b). rewrite (no_overlap "<" "/think>"); [|done..].
  by rewrite IH.
Qed.

Lemma substringFrom_length (a b : string) : substringFrom (String.length a) (a +:+ b) = b.
Proof. induction a as [|c a IH]; [by destruct b|]. by rewrite append_cons. Qed.

Lemma length_append (a b : string) :
  String.length (a +:+ b) = String.length a + String.length b.
Proof. induction a as [|c a IH]; [done|]. rewrite append_cons. cbn. by rewrite IH. Qed.

(** X4. [stripThinking] removes the first thinking block together with
    the blanks that follow it, and trims what is left. *)
Theorem stripThinking_removes_first_block (a b c : string) :
  includes "<think>" a = false → includes "</think>" b = false →
  stripThinking (a +:+ "<think>" +:+ b +:+ "</think>" +:+ c) = trim (a +:+ trimStart c).
Proof.
  intros Ha Hb. unfold stripThinking.
  rewrite stripThinkingFrom_before, stripThinkingFrom_think_open by done.
  rewrite indexOf_close_after by done. do 3 f_equal.
  replace (7 + String.length b + 8)
    with (String.length ("<think>" +:+ b +:+ "</think>"))
    by (rewrite !length_append; cbn; lia).
  rewrite <- (substringFrom_length ("<think>" +:+ b +:+ "</think>") c) at 2.
  by rewrite !append_assoc.
Qed.

Lemma stripThinkingFrom_none (s : string) :
  includes "<think>" s = false → stripThinkingFrom s = s.
Proof.
  induction s as [|c s IH]; [done|]. intros [Hc Hs]%includes_cons.
  cbn [stripThinkingFrom]. by rewrite Hc, IH.
Qed.

(** X5. [stripThinking] only trims a text without an opening tag, and
    it keeps an opening tag that is never closed, with the text after
    it. *)
Theorem stripThinking_keeps_other_text (a b : string) :
  includes "<think>" a = false →
  stripThinking a = trim a
  ∧ (includes "</think>" b = false →
     stripThinking (a +:+ "<think>" +:+ b) = trim (a +:+ "<think>" +:+ b)).
Proof.
  intros Ha. unfold stripThinking. split.
  - by rewrite stripThinkingFrom_none.
  - intros Hb. rewrite stripThinkingFrom_before, stripThinkingFrom_think_open by done.
    unfold includes in Hb. by destruct (indexOf "</think>" b).
Qed.

End BlockFacts.

Section NumeralFacts.

Lemma takeDigits_spec (s ds rest : string) :
  takeDigits s = (ds, rest) →
  s = ds +:+ rest ∧ takeDigits ds = (ds, "")
  ∧ match rest with String c _ => isDigit c = false | EmptyString => True end.
Proof.
  revert ds rest. induction s as [|c s IH]; intros ds rest; cbn [takeDigits].
  - by intros [= <- <-].
  - destruct (isDigit c) eqn:Hc.
    + destruct (takeDigits s) as [ds' rest'] eqn:E. intros [= <- <-].
      destruct (IH ds' rest' eq_refl) as (-> & Hds & Hrest).
      split; [done|]. split; [|done]. cbn [takeDigits]. by rewrite Hc, Hds.
    + intros [= <- <-]. by rewrite Hc.
Qed.

Lemma takeDigits_app (ds rest : string) :
  takeDigits ds = (ds, "") →
  match rest with String c _ => isDigit c = false | EmptyString => True end →
  takeDigits (ds +:+ rest) = (ds, rest).
Proof.
  induction ds as [|c ds IH]; intros Hds Hrest.
  - rewrite append_nil_l. destruct rest as [|x r]; [done|]. cbn [takeDigits]. by rewrite Hrest.
  - rewrite append_cons. cbn [takeDigits] in *. destruct (isDigit c); [|done].
    destruct (takeDigits ds) as [ds' r'] eqn:E. injection Hds as -> ->.
    by rewrite IH.
Qed.

Lemma isDigit_dot : isDigit "." = false.
Proof. reflexivity. Qed.

(** What the anchored pattern matches is a prefix of the text, and is
    matched whole when it stands alone. *)
Lemma matchUnsigned_fix (s m : string) :
  matchUnsigned s = Some m → matchUnsigned m = Some m ∧ startsWith m s = true.
Proof.
  unfold matchUnsigned.
  destruct (takeDigits s) as [ds rest] eqn:E.
  destruct (takeDigits_spec _ _ _ E) as (-> & Hds & Hrest).
  destruct ds as [|d ds]; [discriminate|].
  assert (Hplain : matchUnsigned (String d ds) = Some (String d ds)
                   ∧ startsWith (String d ds) (String d ds +:+ rest) = true).
  { split; [|apply startsWith_self]. unfold matchUnsigned. by rewrite Hds. }
  unfold matchUnsigned in Hplain.
  destruct rest as [|x rest]; [by intros [= <-]|].
  destruct (Ascii.ascii_dec x ".") as [->|Hx].
  - destruct (takeDigits rest) as [fs rest'] eqn:F.
    destruct (takeDigits_spec _ _ _ F) as (-> & Hfs & Hrest').
    destruct fs as [|f fs]; [by intros [= <-]|].
    intros [= <-]. split.
    + rewrite (takeDigits_app (String d ds) ("." +:+ String f fs)) by done.
      change ("." +:+ String f fs) with (String "." (String f fs)). cbv beta iota.
      by rewrite Hfs.
    + rewrite <- (append_assoc (String d ds) "." (String f fs)).
      change (String "." (String f fs +:+ rest')) with ("." +:+ (String f fs +:+ rest')).
      rewrite <- !append_assoc. apply startsWith_self.
  - assert (∀ A (a b : A), match x with "."%char => a | _ => b end = b) as Hm.
    { intros A a b. destruct x as [[] [] [] [] [] [] [] []]; try reflexivity. done. }
    rewrite Hm. by intros [= <-].
Qed.

Lemma matchAt_unsigned (c : ascii) (s : string) :
  c ≠ "-"%char → matchAt (String c s) = matchUnsigned (String c s).
Proof.
  intros Hc. unfold matchAt.
  destruct c as [[] [] [] [] [] [] [] []]; try reflexivity. done.
Qed.

Lemma matchUnsigned_head (s m : string) :
  matchUnsigned s = Some m → ∃ d r, s = String d r ∧ isDigit d = true.
Proof.
  unfold matchUnsigned. destruct s as [|d r]; [done|]. cbn [takeDigits].
  destruct (isDigit d) eqn:Hd; [eauto|done].
Qed.

Lemma matchAt_fix (s m : string) :
  matchAt s = Some m → matchAt m = Some m ∧ startsWith m s = true.
Proof.
  destruct s as [|c s]; [done|].
  destruct (Ascii.ascii_dec c "-") as [->|Hc].
  - cbn [matchAt]. destruct (matchUnsigned s) as [m'|] eqn:E; [|done].
    intros [= <-]. destruct (matchUnsigned_fix _ _ E) as [Hm Hp].
    cbn [matchAt]. rewrite Hm. split; [done|].
    unfold startsWith in *. rewrite prefix_cons.
    by destruct (Ascii.ascii_dec "-" "-").
  - rewrite matchAt_unsigned by done. intros E.
    destruct (matchUnsigned_fix _ _ E) as [Hm Hp]. split; [|done].
    destruct (matchUnsigned_head _ _ Hm) as (d & r & -> & Hd).
    rewrite matchAt_unsigned; [done|]. by intros ->.
Qed.

Lemma isDigit_matchAt (c : ascii) (s : string) :
  isDigit c = true → ∃ m, matchAt (String c s) = Some m.
Proof.
  intros Hc. rewrite matchAt_unsigned by (by intros ->).
  unfold matchUnsigned. cbn [takeDigits]. rewrite Hc.
  destruct (takeDigits s) as [ds rest].
  destruct rest as [|x rest]; [eauto|].
  destruct (Ascii.ascii_dec x ".") as [->|Hx].
  - destruct (takeDigits rest) as [[|f fs] ?]; eauto.
  - destruct x as [[] [] [] [] [] [] [] []]; eauto. done.
Qed.

(** X6. The pattern of the numbers matches nothing exactly in the
    contents without a digit; what it matches is a numeral, matched by
    the pattern as a whole, that occurs in the content. *)
Theorem matchNumber_finds_a_numeral (content : string) :
  (matchNumber content = None ↔ noDigit content = true)
  ∧ ∀ m, matchNumber content = Some m → matchAt m = Some m ∧ includes m content = true.
Proof.
  split.
  - split; [|apply matchNumber_noDigit].
    induction content as [|c s IH]; [done|]. cbn [matchNumber noDigit].
    destruct (isDigit c) eqn:Hc.
    + destruct (isDigit_matchAt c s Hc) as [m ->]. discriminate.
    + destruct (matchAt (String c s)); [discriminate|]. exact IH.
  - induction content as [|c s IH]; intros m; cbn [matchNumber].
    + discriminate.
    + destruct (matchAt (String c s)) as [m'|] eqn:E.
      * intros [= <-]. destruct (matchAt_fix _ _ E) as [Hm Hp].
        split; [done|]. by rewrite includes_unfold, Hp.
      * intros H. destruct (IH m H) as [Hm Hin]. split; [done|].
        rewrite includes_unfold, Hin. apply orb_true_r.
Qed.

End NumeralFacts.

Section AttemptFacts.

Context {platform : Platform}.




Lemma valueOf_bind_raw {A B} (m : M A) (f : A → M B) (s : AppState) :
  fst ((m ≫= f) s) = fst (f (valueOf m s) (stateAfter m s)).
Proof. apply valueOf_bind. Qed.










End AttemptFacts.

(** Membership goals between lists of touched prompts. *)

Ltac listed :=
  intros ?; rewrite ?fmap_cons, ?elem_of_app, ?elem_of_cons, ?elem_of_nil; tauto.

Section FlowFacts.

Context {platform : Platform}.


(** Whatever the result, the prompts [handlePromptCompletion] runs are
    direct children of the prompt that had no history. *)
Lemma handlePromptCompletion_children prompt result imageId s :
  ∃ (children : list Prompt) (rqs : list Request),
    (∀ c, c ∈ children →
       c ∈ prompts s ∧ parentId c = Some (id prompt) ∧ historyOf s imageId (id c) = [])
    ∧ (∀ rq, rq ∈ rqs → rq_prompt rq ∈ children ∧ rq_imageId rq = imageId)
    ∧ Effect imageId (id <$> children) rqs s
        (stateAfter (handlePromptCompletion prompt result imageId) s).
Proof.
  assert (Hnone : ∃ (children : list Prompt) (rqs : list Request),
             (∀ c, c ∈ children →
                c ∈ prompts s ∧ parentId c = Some (id prompt)
                ∧ historyOf s imageId (id c) = [])
             ∧ (∀ rq, rq ∈ rqs → rq_prompt rq ∈ children ∧ rq_imageId rq = imageId)
             ∧ Effect imageId (id <$> children) rqs s s).
  { exists [], []. split; [by intros c ?%elem_of_nil|].
    split; [by intros c ?%elem_of_nil|apply Effect_refl]. }
  assert (Hsel : ∀ (f : Prompt → bool) c,
             (∀ x, f x = true → parentId x = Some (id prompt)
                                ∧ historyOf s imageId (id x) = []) →
             c ∈ List.filter f (prompts s) →
             c ∈ prompts s ∧ parentId c = Some (id prompt)
             ∧ historyOf s imageId (id c) = []).
  { intros f c Hf Hc. apply list_elem_of_In, filter_In in Hc as [Hc Hfc].
    split; [by apply list_elem_of_In|]. by apply Hf. }
  assert (Hrun : ∀ (children : list Prompt) rq,
             rq ∈ (λ c, attemptRequest c imageId) <$> children →
             rq_prompt rq ∈ children ∧ rq_imageId rq = imageId).
  { intros children rq (c & -> & Hc)%list_elem_of_fmap. by split. }
  unfold handlePromptCompletion. rewrite stateAfter_bind.
  cbn [valueOf getState fst stateAfter snd].
  destruct (type prompt), (status result), (data result) as [| | | |[|bbox rest]|];
    rewrite ?stateAfter_bind, ?stateAfter_ret; try exact Hnone.
  - destruct (forEachTry_fanOut_effect (bboxChildren prompt s imageId) (bbox :: rest)
                imageId s) as (ran & Hran & E).
    eexists ran, _. split; [|split; [|exact E]].
    + intros c Hc%Hran. unfold bboxChildren in Hc. revert Hc. apply Hsel.
      intros q [Hp Hh]%andb_true_iff.
      split; [by apply parentIs_spec|by apply noHistory_empty].
    + intros rq (c & Hc & Hrq)%list_elem_of_In%in_flat_map.
      apply list_elem_of_In in Hc. apply list_elem_of_In in Hrq.
      unfold fanOutRequests in Hrq. by apply list_elem_of_fmap in Hrq as (b & -> & _).
  - eexists _, _. split; [|split; [apply Hrun|apply forEach_runSinglePrompt_effect]].
    intros c. apply Hsel. intros q Hq.
    apply scoreChildRuns_spec in Hq as (? & ? & _). split; [done|by apply hasHistory_false].
  - eexists _, _. split; [|split; [apply Hrun|apply forEach_runSinglePrompt_effect]].
    intros c. apply Hsel. intros q [[Hp _]%andb_true_iff Hh]%andb_true_iff.
    split; [by apply parentIs_spec|by apply noHistory_empty].
Qed.

Lemma clearHistories_keeps imageId ids s :
  prompts (clearHistories imageId ids s) = prompts s
  ∧ selectedImageId (clearHistories imageId ids s) = selectedImageId s
  ∧ requests (clearHistories imageId ids s) = requests s.
Proof.
  unfold clearHistories. destruct ids; [done|]. by destruct (results s !! imageId).
Qed.

(** A flow whose recursion over the descendants does not return
    throws, and leaves the store as it is. *)
Lemma runSingleAnalysisFlow_overflow prompt imageId s :
  selectedImage s = Some imageId → descendantsOf (prompts s) (id prompt) = None →
  runSingleAnalysisFlow prompt s = (Some stackOverflow, s).
Proof.
  intros Hsel Hd. unfold runSingleAnalysisFlow, mbind, M_bind, getState.
  by rewrite Hsel, Hd.
Qed.

Lemma runSingleAnalysisFlow_steps prompt imageId ids s :
  selectedImage s = Some imageId → descendantsOf (prompts s) (id prompt) = Some ids →
  let s1 := clearHistories imageId ids s in
  stateAfter (runSingleAnalysisFlow prompt) s
  = stateAfter match valueOf (runSinglePrompt prompt imageId) s1 with
               | Some r => handlePromptCompletion prompt r imageId
               | None => mret None
               end (stateAfter (runSinglePrompt prompt imageId) s1).
Proof.
  intros Hsel Hd s1. unfold runSingleAnalysisFlow. rewrite stateAfter_bind.
  change (valueOf getState s) with s. change (stateAfter getState s) with s.
  by rewrite Hsel, Hd, !stateAfter_bind.
Qed.

(** The requests of a flow are for its prompt or for direct children of
    it, and a flow touches, besides the histories it clears, those of
    its prompt and of the children it runs. *)
Lemma runSingleAnalysisFlow_children prompt imageId ids s :
  selectedImage s = Some imageId → descendantsOf (prompts s) (id prompt) = Some ids →
  let s1 := clearHistories imageId ids s in
  ∃ (children : list Prompt) (rqs : list Request),
    (∀ c, c ∈ children → c ∈ prompts s ∧ parentId c = Some (id prompt))
    ∧ (∀ rq, rq ∈ rqs → rq_prompt rq ∈ children ∧ rq_imageId rq = imageId)
    ∧ Effect imageId (id prompt :: (id <$> children))
        (attemptRequest prompt imageId :: rqs) s1
        (stateAfter (runSingleAnalysisFlow prompt) s).
Proof.
  intros Hsel Hd s1. rewrite (runSingleAnalysisFlow_steps prompt imageId ids s Hsel Hd).
  fold s1.
  destruct (clearHistories_keeps imageId ids s) as (P1 & _ & _). fold s1 in P1.
  pose proof (runSinglePrompt_effect prompt imageId s1) as E2.
  set (s2 := stateAfter (runSinglePrompt prompt imageId) s1) in *.
  destruct (valueOf (runSinglePrompt prompt imageId) s1) as [r|].
  - destruct (handlePromptCompletion_children prompt r imageId s2)
      as (children & rqs & Hch & Hrq & E3).
    exists children, rqs. split; [|split; [done|]].
    + intros c Hc. destruct (Hch c Hc) as (Hin & Hp & _).
      rewrite (eff_prompts _ _ _ _ _ E2), P1 in Hin. done.
    + eapply Effect_seq; [exact E2|exact E3|done|listed].
  - exists [], []. split; [by intros c ?%elem_of_nil|]. split; [by intros c ?%elem_of_nil|].
    rewrite stateAfter_ret. eapply Effect_weaken; [|exact E2]. listed.
Qed.

(** X10. When the recursion that collects the descendants of its
    prompt returns, [runSingleAnalysisFlow] sends requests for its
    prompt and for direct children of it only, and it leaves the
    descendants that are not direct children with an empty history
    for the selected image. When the recursion does not return, as
    on a parent relation with a cycle through a child of the prompt,
    the flow throws a [RangeError] and leaves the store as it is. *)
Theorem flow_runs_prompt_and_children (s : AppState) (prompt : Prompt) (imageId : string) :
  selectedImage s = Some imageId →
  let s' := stateAfter (runSingleAnalysisFlow prompt) s in
  match descendantsOf (prompts s) (id prompt) with
  | Some descendantsIds =>
      (∀ rq, rq ∈ issued s s' →
         rq_prompt rq = prompt
         ∨ (rq_prompt rq ∈ prompts s ∧ parentId (rq_prompt rq) = Some (id prompt)))
      ∧ (∀ d, d ∈ descendantsIds → d ≠ id prompt →
           (∀ c, c ∈ prompts s → parentId c = Some (id prompt) → id c ≠ d) →
           historyOf s' imageId d = [])
  | None =>
      s' = s ∧ valueOf (runSingleAnalysisFlow prompt) s = Some stackOverflow
  end.
Proof.
  intros Hsel s'. destruct (descendantsOf (prompts s) (id prompt)) as [ids|] eqn:Hd.
  2: { subst s'. unfold stateAfter, valueOf.
       by rewrite (runSingleAnalysisFlow_overflow prompt imageId s Hsel Hd). }
  destruct (runSingleAnalysisFlow_children prompt imageId ids s Hsel Hd)
    as (children & rqs & Hch & Hrq & E). fold s' in E.
  destruct (clearHistories_keeps imageId ids s) as (_ & _ & R1).
  split.
  - intros rq Hin. unfold issued in Hin.
    rewrite (eff_requests _ _ _ _ _ E), R1, drop_app_length in Hin.
    apply elem_of_cons in Hin as [->|Hin]; [by left|right]. by apply Hch, Hrq.
  - intros d Hd' Hne Hnc. rewrite (eff_frame _ _ _ _ _ E).
    + rewrite historyOf_clearHistories, decide_True; done.
    + right. intros [?|(c & Hid & Hc)%list_elem_of_fmap]%elem_of_cons; [done|].
      destruct (Hch c Hc) as [Hin Hp]. by apply (Hnc c).
Qed.




End FlowFacts.

Section TaskFacts.

Context {platform : Platform}.

Lemma mapSet_elem key v m k w :
  (k, w) ∈ mapSet key v m → (k, w) = (key, v) ∨ (k, w) ∈ m.
Proof.
  induction m as [|[k0 w0] m IH]; cbn [mapSet].
  - intros ->%list_elem_of_singleton. by left.
  - destruct (String.eqb k0 key) eqn:Hk.
    + apply String.eqb_eq in Hk as ->.
      intros [->|Hin]%elem_of_cons; [by left|right; by right].
    + intros [->|Hin]%elem_of_cons; [right; by left|].
      destruct (IH Hin); [by left|right; by right].
Qed.

Lemma mapSet_keys key v m :
  fst <$> mapSet key v m
  = if decide (key ∈ fst <$> m) then fst <$> m else (fst <$> m) ++ [key].
Proof.
  induction m as [|[k0 w0] m IH]; cbn [mapSet].
  - rewrite decide_False; [done|]. by intros ?%elem_of_nil.
  - destruct (String.eqb k0 key) eqn:Hk.
    + apply String.eqb_eq in Hk as ->. rewrite decide_True; [done|]. by left.
    + apply String.eqb_neq in Hk. rewrite !fmap_cons, IH. cbn [fst].
      destruct (decide (key ∈ fst <$> m)) as [Hin|Hout].
      * rewrite decide_True; [done|]. by right.
      * rewrite decide_False; [done|]. intros [?|?]%elem_of_cons; congruence.
Qed.

Lemma taskMap_set s imageId m p :
  taskMap s imageId m → queued s imageId p → taskMap s imageId (mapSet (id p) p m).
Proof.
  intros [Hnd Hall] Hp. split.
  - rewrite mapSet_keys. destruct (decide (id p ∈ fst <$> m)); [done|].
    apply NoDup_app. split; [done|]. split; [|apply NoDup_singleton].
    by intros k Hk ->%list_elem_of_singleton.
  - intros k q [Heq|Hin]%mapSet_elem; [by injection Heq as -> ->|by apply Hall].
Qed.

Lemma readSlot_Own (h : gmap string (list AnalysisResult)) key history :
  readSlot h key = Own history → h !! key = Some history.
Proof.
  unfold readSlot. destruct (h !! key); [congruence|]. by destruct (prototypeLength key).
Qed.

Lemma taskMap_queueParent s imageId m m' child :
  child ∈ prompts s → noHistory (imageResults s imageId) (id child) = true →
  taskMap s imageId m → queueParent s imageId m child = inr m' → taskMap s imageId m'.
Proof.
  intros Hc Hh Hm. unfold queueParent.
  destruct (parentId child) as [pid|] eqn:Hp; [|by intros [= <-]].
  destruct (truthy pid); [|by intros [= <-]].
  destruct (List.find (λ p, String.eqb (id p) pid) (prompts s)) as [parent|] eqn:Hf;
    [|by intros [= <-]].
  destruct (readSlot (imageResults s imageId) pid) as [h|[[|n]|]|] eqn:Hslot;
    intros Heq; simplify_eq; try done.
  destruct (latestIsSuccess h) eqn:Hok; [|done].
  pose proof (find_id_spec _ _ _ Hf) as Hid. apply find_some in Hf as [Hin _].
  apply taskMap_set; [done|]. split; [by apply list_elem_of_In|]. right.
  split.
  - unfold historyOf. by rewrite Hid, (readSlot_Own _ _ _ Hslot).
  - exists child. by rewrite Hid.
Qed.

Lemma taskMap_queueParents s imageId children m m' :
  (∀ c, c ∈ children →
        c ∈ prompts s ∧ noHistory (imageResults s imageId) (id c) = true) →
  taskMap s imageId m → queueParents s imageId children m = inr m' → taskMap s imageId m'.
Proof.
  revert m. induction children as [|c l IH]; intros m Hl Hm; cbn [queueParents].
  - by intros [= <-].
  - destruct (queueParent s imageId m c) as [e|m1] eqn:Hq; [done|].
    apply IH; [intros q Hq'; apply Hl; by right|].
    destruct (Hl c ltac:(by left)) as [Hc Hh].
    by apply (taskMap_queueParent s imageId m m1 c).
Qed.

Lemma elem_of_pending s imageId (f : Prompt → bool) c :
  c ∈ List.filter f (allPendingPrompts s imageId) ↔
  c ∈ prompts s ∧ noHistory (imageResults s imageId) (id c) = true ∧ f c = true.
Proof. unfold allPendingPrompts. rewrite !elem_of_filter_iff. tauto. Qed.

Lemma tasksToRun_taskMap s imageId tasks :
  tasksToRun s imageId = inr tasks → taskMap s imageId tasks.
Proof.
  unfold tasksToRun. apply taskMap_queueParents.
  { intros c (Hc & Hh & _)%elem_of_pending. done. }
  set (independent := List.filter (λ p, negb (hasParent p)) (allPendingPrompts s imageId)).
  assert (H1 : ∀ l m, (∀ c, c ∈ l → c ∈ independent) → taskMap s imageId m →
             taskMap s imageId (foldl (λ tasks p, mapSet (id p) p tasks) m l)).
  { induction l as [|c l IH]; intros m Hl Hm; [done|]. cbn [foldl].
    apply IH; [intros q Hq; apply Hl; by right|].
    destruct (proj1 (elem_of_pending _ _ _ c) (Hl c ltac:(by left))) as (Hc & Hh & Hf).
    apply taskMap_set; [done|]. split; [done|]. left.
    by apply negb_true_iff in Hf. }
  apply H1; [done|].
  split; [apply NoDup_nil_2|]. by intros k p ?%elem_of_nil.
Qed.

Lemma taskList_taskMap s imageId :
  ∃ tasks, taskMap s imageId tasks ∧ taskList s imageId = snd <$> tasks.
Proof.
  unfold taskList. destruct (tasksToRun s imageId) as [e|tasks] eqn:E.
  - exists []. split; [|done]. split; [apply NoDup_nil_2|]. by intros k p ?%elem_of_nil.
  - exists tasks. split; [by apply tasksToRun_taskMap|done].
Qed.

Lemma mapSet_has_key key v m k : k ∈ fst <$> m ∨ k = key → k ∈ fst <$> mapSet key v m.
Proof.
  rewrite mapSet_keys. destruct (decide (key ∈ fst <$> m)) as [Hin|Hout].
  - intros [?| ->]; done.
  - rewrite elem_of_app, list_elem_of_singleton. tauto.
Qed.

Lemma queueParent_has_key s imageId m m' child k :
  queueParent s imageId m child = inr m' → k ∈ fst <$> m → k ∈ fst <$> m'.
Proof.
  unfold queueParent. intros Heq Hk.
  destruct (parentId child) as [pid|]; [|by simplify_eq].
  destruct (truthy pid); [|by simplify_eq].
  destruct (List.find _ _) as [parent|]; [|by simplify_eq].
  destruct (readSlot (imageResults s imageId) pid) as [h|[[|n]|]|]; simplify_eq; try done.
  destruct (latestIsSuccess h); [|done]. apply mapSet_has_key. by left.
Qed.

Lemma queueParents_has_key s imageId children m m' k :
  queueParents s imageId children m = inr m' → k ∈ fst <$> m → k ∈ fst <$> m'.
Proof.
  revert m. induction children as [|c l IH]; intros m; cbn [queueParents].
  - by intros [= <-].
  - destruct (queueParent s imageId m c) as [e|m1] eqn:Hq; [done|].
    intros Heq Hk. apply (IH m1 Heq). by apply (queueParent_has_key _ _ _ _ _ _ Hq).
Qed.

(** Collecting the tasks throws only over a prompt whose id is the name
    of an inherited property. *)
Lemma queueParents_ordinary s imageId children m :
  (∀ p, p ∈ prompts s → ordinary (id p) = true) →
  ∃ m', queueParents s imageId children m = inr m'.
Proof.
  intros Hord. revert m. induction children as [|c l IH]; intros m; cbn [queueParents].
  - by exists m.
  - assert (∃ m1, queueParent s imageId m c = inr m1) as [m1 ->]; [|apply IH].
    unfold queueParent.
    destruct (parentId c) as [pid|]; [|by eexists].
    destruct (truthy pid); [|by eexists].
    destruct (List.find (λ p, String.eqb (id p) pid) (prompts s)) as [parent|] eqn:Hf;
      [|by eexists].
    pose proof (find_id_spec _ _ _ Hf) as Hid. apply find_some in Hf as [Hin _].
    rewrite readSlot_ordinary; [|rewrite <- Hid; by apply Hord, list_elem_of_In].
    destruct (imageResults s imageId !! pid); by eexists.
Qed.

(** X12. The tasks of [runPendingAnalysis] have pairwise distinct ids,
    and each of them is a prompt of the store that is independent and
    passes the test of the pending prompts, or whose latest result is
    a success and that is the parent of a prompt that passes the test.
    When collecting the tasks does not throw, every independent prompt
    that passes the test is among them. When no prompt of the store
    has the name of an inherited property as its id, collecting the
    tasks does not throw, and a prompt passes the test exactly when
    its stored history is empty. *)
Theorem pending_tasks (s : AppState) (imageId : string) :
  NoDup (id <$> taskList s imageId)
  ∧ (∀ p, p ∈ taskList s imageId →
       p ∈ prompts s
       ∧ ((hasParent p = false ∧ noHistory (imageResults s imageId) (id p) = true)
          ∨ (latestIsSuccess (historyOf s imageId (id p)) = true
             ∧ ∃ child, child ∈ prompts s
                        ∧ noHistory (imageResults s imageId) (id child) = true
                        ∧ parentId child = Some (id p))))
  ∧ (∀ tasks p, tasksToRun s imageId = inr tasks →
       p ∈ prompts s → hasParent p = false →
       noHistory (imageResults s imageId) (id p) = true →
       id p ∈ id <$> taskList s imageId)
  ∧ ((∀ p, p ∈ prompts s → ordinary (id p) = true) →
     (∃ tasks, tasksToRun s imageId = inr tasks)
     ∧ ∀ p, p ∈ prompts s →
         (noHistory (imageResults s imageId) (id p) = true
          ↔ historyOf s imageId (id p) = [])).
Proof.
  destruct (taskList_taskMap s imageId) as (m & [Hnd Hall] & Hlist).
  assert (Hids : ∀ m, taskMap s imageId m → id <$> (snd <$> m) = fst <$> m).
  { intros m0 [_ H0]. rewrite <- list_fmap_compose. apply list_fmap_ext.
    intros i [k p] Hkp. apply list_elem_of_lookup_2 in Hkp.
    by destruct (H0 k p Hkp) as [-> _]. }
  split; [by rewrite Hlist, Hids|]. split; [|split].
  - rewrite Hlist. intros p ([k q] & -> & Hin)%list_elem_of_fmap.
    by destruct (Hall k q Hin) as [_ ?].
  - intros tasks p Htasks Hp Hpar Hh. unfold taskList. rewrite Htasks.
    rewrite (Hids _ (tasksToRun_taskMap _ _ _ Htasks)).
    unfold tasksToRun in Htasks. apply (queueParents_has_key _ _ _ _ _ _ Htasks).
    assert (H1 : ∀ l m, id p ∈ fst <$> m ∨ p ∈ l →
               id p ∈ fst <$> foldl (λ tasks q, mapSet (id q) q tasks) m l).
    { induction l as [|c l IH]; intros m0 Hm; cbn [foldl].
      - destruct Hm as [?|?%elem_of_nil]; done.
      - apply IH. destruct Hm as [Hm|[ ->|Hm]%elem_of_cons].
        + left. apply mapSet_has_key. by left.
        + left. apply mapSet_has_key. by right.
        + by right. }
    apply H1. right. apply elem_of_pending. by rewrite Hpar.
  - intros Hord. split; [apply queueParents_ordinary, Hord|].
    intros p Hp. by apply noHistory_ordinary, Hord.
Qed.

Lemma runSingleAnalysisFlow_requests prompt imageId s :
  selectedImage s = Some imageId →
  let s' := stateAfter (runSingleAnalysisFlow prompt) s in
  selectedImage s' = Some imageId
  ∧ ∃ rqs, requests s' = requests s ++ rqs
           ∧ ∀ rq, rq ∈ rqs →
               rq_prompt rq = prompt ∨ parentId (rq_prompt rq) = Some (id prompt).
Proof.
  intros Hsel s'. destruct (descendantsOf (prompts s) (id prompt)) as [ids|] eqn:Hd.
  2: { subst s'. unfold stateAfter.
       rewrite (runSingleAnalysisFlow_overflow prompt imageId s Hsel Hd). cbn [snd].
       split; [done|]. exists []. split; [by rewrite app_nil_r|]. by intros rq ?%elem_of_nil. }
  destruct (runSingleAnalysisFlow_children prompt imageId ids s Hsel Hd)
    as (children & rqs & Hch & Hrq & E). fold s' in E.
  destruct (clearHistories_keeps imageId ids s) as (_ & S1 & R1).
  split.
  - unfold selectedImage in *. by rewrite (eff_selected _ _ _ _ _ E), S1.
  - exists (attemptRequest prompt imageId :: rqs). split.
    + by rewrite (eff_requests _ _ _ _ _ E), R1.
    + intros rq [->|Hin]%elem_of_cons; [by left|right]. by apply Hch, Hrq.
Qed.

Lemma forEachTry_flow_children imageId tasks s :
  selectedImage s = Some imageId →
  ∃ rqs, requests (stateAfter (forEachTry tasks runSingleAnalysisFlow) s) = requests s ++ rqs
         ∧ ∀ rq, rq ∈ rqs →
             rq_prompt rq ∈ tasks
             ∨ ∃ t, t ∈ tasks ∧ parentId (rq_prompt rq) = Some (id t).
Proof.
  revert s. induction tasks as [|q l IH]; intros s Hs.
  - exists []. split; [by rewrite app_nil_r|]. by intros rq ?%elem_of_nil.
  - cbn [forEachTry]. rewrite stateAfter_bind.
    destruct (runSingleAnalysisFlow_requests q imageId s Hs) as (Hs1 & r1 & R1 & H1).
    assert (Hfirst : ∀ rq, rq ∈ r1 →
              rq_prompt rq ∈ q :: l ∨ ∃ t, t ∈ q :: l ∧ parentId (rq_prompt rq) = Some (id t)).
    { intros rq Hin. destruct (H1 rq Hin) as [->|Hp]; [left; by left|right].
      exists q. split; [by left|done]. }
    destruct (valueOf (runSingleAnalysisFlow q) s) as [e|].
    + rewrite stateAfter_ret. by exists r1.
    + destruct (IH _ Hs1) as (r2 & R2 & H2).
      exists (r1 ++ r2). split; [by rewrite R2, R1, app_assoc|].
      intros rq [Hin|Hin]%elem_of_app; [by apply Hfirst|].
      destruct (H2 rq Hin) as [?|(t & Ht & Hp)]; [left; by right|right].
      exists t. split; [by right|done].
Qed.

(** X13. [runPendingAnalysis] sends no request for an independent
    prompt whose history holds entries and does not end with a
    success. *)
Theorem prompt_without_success_is_not_rerun (s : AppState) (imageId : string)
    (p : Prompt) :
  selectedImage s = Some imageId → parentId p = None →
  historyOf s imageId (id p) ≠ [] →
  latestIsSuccess (historyOf s imageId (id p)) = false →
  p ∉ executed s (stateAfter runPendingAnalysis s).
Proof.
  intros Hsel Hpar Hne Hlast.
  rewrite (runPendingAnalysis_tasks s imageId Hsel).
  destruct (forEachTry_flow_children imageId (taskList s imageId) s Hsel) as (rqs & R & Hrq).
  unfold executed, issued. rewrite R, drop_app_length.
  intros (rq & -> & Hin)%list_elem_of_fmap.
  destruct (Hrq rq Hin) as [Htask|(t & _ & Hp)]; [|congruence].
  destruct (taskList_taskMap s imageId) as (m & [_ Hall] & Hlist).
  rewrite Hlist in Htask. apply list_elem_of_fmap in Htask as ([k q] & Hq & Hkq).
  cbn [snd] in Hq. destruct (Hall k q Hkq) as [_ [_ [[_ Hh]|[Hok _]]]];
    rewrite <- Hq in *; [|congruence].
  by apply noHistory_empty in Hh.
Qed.

End TaskFacts.

Section AnalysisFacts.

Context {platform : Platform}.

Lemma keepsHistories_refl s : keepsHistories s s.
Proof. by intros i p. Qed.

Lemma keepsHistories_trans s1 s2 s3 :
  keepsHistories s1 s2 → keepsHistories s2 s3 → keepsHistories s1 s3.
Proof. intros H1 H2 i p H. by apply H2, H1. Qed.

Lemma runSinglePrompt_keeps prompt imageId s :
  keepsHistories s (stateAfter (runSinglePrompt prompt imageId) s)
  ∧ historyOf (stateAfter (runSinglePrompt prompt imageId) s) imageId (id prompt) ≠ [].
Proof.
  destruct (runSinglePrompt_history prompt imageId s) as [r Hr].
  pose proof (runSinglePrompt_effect prompt imageId s) as E.
  assert (Hnew : historyOf (stateAfter (runSinglePrompt prompt imageId) s) imageId
                   (id prompt) ≠ []).
  { rewrite Hr. by destruct (historyOf s imageId (id prompt)). }
  split; [|done]. intros i p H.
  destruct (decide (i = imageId ∧ p = id prompt)) as [[-> ->]|Hne]; [done|].
  rewrite (eff_frame _ _ _ _ _ E); [done|].
  destruct (decide (i = imageId)) as [->|]; [right|by left].
  intros ->%list_elem_of_singleton. by apply Hne.
Qed.

Lemma fanOut_keeps child bboxes imageId s :
  keepsHistories s (stateAfter (fanOut child bboxes imageId) s).
Proof.
  pose proof (fanOut_effect child bboxes imageId s) as E.
  intros i p H.
  destruct (decide (i = imageId ∧ p = id child)) as [[-> ->]|Hne].
  - apply fanOut_entry.
  - rewrite (eff_frame _ _ _ _ _ E); [done|].
    destruct (decide (i = imageId)) as [->|]; [right|by left].
    intros ->%list_elem_of_singleton. by apply Hne.
Qed.

Lemma forEach_keeps {A} (l : list A) (body : A → M unit) s :
  (∀ x t, keepsHistories t (stateAfter (body x) t)) →
  keepsHistories s (stateAfter (forEach l body) s).
Proof.
  intros Hb. revert s. induction l as [|x l IH]; intros s; [apply keepsHistories_refl|].
  cbn [forEach]. rewrite stateAfter_bind.
  eapply keepsHistories_trans; [apply Hb|apply IH].
Qed.

Lemma forEachTry_keeps {A} (l : list A) (body : A → M (option Thrown)) s :
  (∀ x t, keepsHistories t (stateAfter (body x) t)) →
  keepsHistories s (stateAfter (forEachTry l body) s).
Proof.
  intros Hb. revert s. induction l as [|x l IH]; intros s; [apply keepsHistories_refl|].
  cbn [forEachTry]. rewrite stateAfter_bind.
  destruct (valueOf (body x) s) as [e|].
  - rewrite stateAfter_ret. apply Hb.
  - eapply keepsHistories_trans; [apply Hb|apply IH].
Qed.

Lemma handlePromptCompletion_keeps prompt result imageId s :
  keepsHistories s (stateAfter (handlePromptCompletion prompt result imageId) s).
Proof.
  assert (Hrun : ∀ (children : list Prompt) t,
             keepsHistories t
               (stateAfter (forEach children
                              (λ child, runSinglePrompt child imageId ;; mret tt)) t)).
  { intros children t. apply forEach_keeps. intros c u.
    rewrite stateAfter_bind, stateAfter_ret. apply runSinglePrompt_keeps. }
  unfold handlePromptCompletion. rewrite stateAfter_bind.
  cbn [valueOf getState fst stateAfter snd].
  destruct (type prompt), (status result), (data result) as [| | | |[|bbox rest]|];
    rewrite ?stateAfter_bind, ?stateAfter_ret;
    try apply keepsHistories_refl; try apply Hrun.
  apply forEachTry_keeps. intros c u. apply fanOut_keeps.
Qed.

Lemma runIndependent_settled ps imageId b s :
  (∀ p, p ∈ ps → historyOf s imageId (id p) ≠ []) →
  runIndependent ps imageId b s = (inr b, s).
Proof.
  induction ps as [|p ps IH]; intros H; [done|]. cbn [runIndependent].
  unfold mbind, M_bind, getState.
  rewrite settled_own; [|apply H; by left].
  apply IH. intros q Hq. apply H. by right.
Qed.

Lemma runIndependent_keeps ps imageId b s :
  keepsHistories s (stateAfter (runIndependent ps imageId b) s).
Proof.
  revert b s. induction ps as [|p ps IH]; intros b s; [apply keepsHistories_refl|].
  cbn [runIndependent]. rewrite stateAfter_bind.
  change (valueOf getState s) with s. change (stateAfter getState s) with s.
  destruct (settled s imageId (id p)); [apply IH|].
  rewrite stateAfter_bind.
  destruct (runSinglePrompt_keeps p imageId s) as [Hk _].
  set (s1 := stateAfter (runSinglePrompt p imageId) s) in *.
  destruct (valueOf (runSinglePrompt p imageId) s) as [r|].
  - rewrite stateAfter_bind.
    pose proof (handlePromptCompletion_keeps p r imageId s1) as Hk2.
    destruct (valueOf (handlePromptCompletion p r imageId) s1) as [e|].
    + rewrite stateAfter_ret. by eapply keepsHistories_trans.
    + eapply keepsHistories_trans; [|apply IH]. by eapply keepsHistories_trans.
  - eapply keepsHistories_trans; [exact Hk|apply IH].
Qed.

Lemma runAnalysis_cons ps imageId rest w :
  runAnalysis ps (imageId :: rest) w
  = match valueOf (runIndependent (List.filter (λ p, negb (hasParent p)) ps)
                     imageId false) (store w) with
    | inl _ =>
        {| store := stateAfter (runIndependent (List.filter (λ p, negb (hasParent p)) ps)
                                  imageId false) (store w);
           images := images w;
           analysisStates := <[imageId := loading]> (analysisStates w) |}
    | inr imageHadError =>
        runAnalysis ps rest
          {| store := stateAfter (runIndependent (List.filter (λ p, negb (hasParent p)) ps)
                                    imageId false) (store w);
             images := images w;
             analysisStates :=
               <[imageId := if imageHadError then error else success]>
                 (<[imageId := loading]> (analysisStates w)) |}
    end.
Proof.
  cbn [runAnalysis]. unfold stateAfter, valueOf.
  by destruct (runIndependent _ imageId false (store w)).
Qed.

Lemma elem_of_independent ps p :
  p ∈ List.filter (λ p, negb (hasParent p)) ps ↔ p ∈ ps ∧ hasParent p = false.
Proof. by rewrite list_elem_of_In, filter_In, <- list_elem_of_In, negb_true_iff. Qed.

Lemma runAnalysis_settled (ps : list Prompt) (ids : list string) (w : Workspace) :
  (∀ i p, i ∈ ids → p ∈ ps → hasParent p = false →
          historyOf (store w) i (id p) ≠ []) →
  let w' := runAnalysis ps ids w in
  store w' = store w ∧ images w' = images w
  ∧ (∀ i, i ∈ ids → analysisStates w' !! i = Some success)
  ∧ (∀ i, i ∉ ids → analysisStates w' !! i = analysisStates w !! i).
Proof.
  revert w. induction ids as [|i ids IH]; intros w Hall w'.
  { split; [done|]. split; [done|]. split; [by intros i ?%elem_of_nil|done]. }
  subst w'. rewrite runAnalysis_cons.
  assert (Hskip : runIndependent (List.filter (λ p, negb (hasParent p)) ps) i false (store w)
                  = (inr false, store w)).
  { apply runIndependent_settled. intros p [Hp Hpar]%elem_of_independent.
    apply Hall; [by left|done..]. }
  unfold stateAfter, valueOf. rewrite Hskip. cbn [fst snd].
  set (w1 := {| store := store w; images := images w;
                analysisStates := <[i:=success]> (<[i:=loading]> (analysisStates w)) |}).
  destruct (IH w1) as (S & I & A & O).
  { intros j p Hj. apply Hall. by right. }
  split; [done|]. split; [done|]. split.
  - intros j Hj. destruct (decide (j ∈ ids)) as [Hin|Hout]; [by apply A|].
    rewrite O by done. apply elem_of_cons in Hj as [->|?]; [|done].
    subst w1. cbn [analysisStates]. apply lookup_insert_eq.
  - intros j Hj. rewrite O by (intros ?; apply Hj; by right).
    subst w1. cbn [analysisStates].
    rewrite !lookup_insert_ne; [done|..]; intros ->; apply Hj; by left.
Qed.

(** X14. [runAnalysis] passes over the images for which every
    independent target prompt has a history: the store and the images
    stay as they are, each of these images is marked as a success,
    and the analysis state of the other images is kept. *)
Theorem runAnalysis_skips_settled (ps : list Prompt) (ids : list string)
    (w : Workspace) :
  (∀ i p, i ∈ ids → p ∈ ps → hasParent p = false →
          historyOf (store w) i (id p) ≠ []) →
  let w' := runAnalysis ps ids w in
  store w' = store w ∧ images w' = images w
  ∧ (∀ i, i ∈ ids → analysisStates w' !! i = Some success)
  ∧ (∀ i, i ∉ ids → analysisStates w' !! i = analysisStates w !! i).
Proof. apply runAnalysis_settled. Qed.

Lemma runAnalysis_keeps ps ids w :
  keepsHistories (store w) (store (runAnalysis ps ids w)).
Proof.
  revert w. induction ids as [|i ids IH]; intros w; [apply keepsHistories_refl|].
  rewrite runAnalysis_cons.
  pose proof (runIndependent_keeps (List.filter (λ p, negb (hasParent p)) ps) i false
                (store w)) as Hk1.
  destruct (valueOf _ (store w)) as [e|b]; [exact Hk1|].
  eapply keepsHistories_trans; [exact Hk1|]. apply (IH {| store := _ |}).
Qed.

(** The requests of the loop over the independent prompts are for the
    image, and for prompts that had no history for it. *)
Lemma runIndependent_requests ps imageId b s :
  let s' := stateAfter (runIndependent ps imageId b) s in
  prompts s' = prompts s
  ∧ ∃ rqs, requests s' = requests s ++ rqs
           ∧ ∀ rq, rq ∈ rqs →
               rq_imageId rq = imageId
               ∧ historyOf s imageId (id (rq_prompt rq)) = [].
Proof.
  revert b s. induction ps as [|p ps IH]; intros b s s'.
  { split; [done|]. exists []. split; [by rewrite app_nil_r|]. by intros rq ?%elem_of_nil. }
  subst s'. cbn [runIndependent]. rewrite stateAfter_bind.
  change (valueOf getState s) with s. change (stateAfter getState s) with s.
  assert (Hstep : ∀ b' t r1, prompts t = prompts s → keepsHistories s t →
            requests t = requests s ++ r1 →
            (∀ rq, rq ∈ r1 → rq_imageId rq = imageId
                             ∧ historyOf s imageId (id (rq_prompt rq)) = []) →
            let t' := stateAfter (runIndependent ps imageId b') t in
            prompts t' = prompts s
            ∧ ∃ rqs, requests t' = requests s ++ rqs
                     ∧ ∀ rq, rq ∈ rqs →
                         rq_imageId rq = imageId
                         ∧ historyOf s imageId (id (rq_prompt rq)) = []).
  { intros b' t r1 Hp Hk R1 H1 t'. destruct (IH b' t) as (P & r2 & R2 & H2).
    fold t' in P, R2. split; [congruence|].
    exists (r1 ++ r2). split; [by rewrite R2, R1, app_assoc|].
    intros rq [Hin|Hin]%elem_of_app; [by apply H1|].
    destruct (H2 rq Hin) as [Hi Hh]. split; [done|].
    destruct (historyOf s imageId (id (rq_prompt rq))) eqn:E; [done|].
    exfalso. apply (Hk imageId (id (rq_prompt rq))); [by rewrite E|done]. }
  destruct (settled s imageId (id p)) eqn:Hn.
  { apply (Hstep _ _ []); [done|apply keepsHistories_refl|by rewrite app_nil_r|].
    by intros rq ?%elem_of_nil. }
  apply settled_false in Hn. rewrite stateAfter_bind.
  destruct (runSinglePrompt_keeps p imageId s) as [Hk _].
  pose proof (runSinglePrompt_effect p imageId s) as E.
  set (s1 := stateAfter (runSinglePrompt p imageId) s) in *.
  assert (H1 : ∀ rq, rq ∈ [attemptRequest p imageId] →
            rq_imageId rq = imageId ∧ historyOf s imageId (id (rq_prompt rq)) = []).
  { by intros rq ->%list_elem_of_singleton. }
  destruct (valueOf (runSinglePrompt p imageId) s) as [r|].
  - rewrite stateAfter_bind.
    destruct (handlePromptCompletion_children p r imageId s1)
      as (children & rqs & Hch & Hrq & E3).
    pose proof (handlePromptCompletion_keeps p r imageId s1) as Hk2.
    assert (Hrqs : ∀ rq, rq ∈ attemptRequest p imageId :: rqs →
              rq_imageId rq = imageId ∧ historyOf s imageId (id (rq_prompt rq)) = []).
    { intros rq [->|Hin]%elem_of_cons; [by apply H1, list_elem_of_singleton|].
      destruct (Hrq rq Hin) as [Hc Hi]. split; [done|].
      destruct (Hch _ Hc) as (_ & _ & Hh).
      destruct (historyOf s imageId (id (rq_prompt rq))) eqn:E0; [done|].
      exfalso. apply (Hk imageId (id (rq_prompt rq))); [by rewrite E0|done]. }
    assert (P3 : prompts (stateAfter (handlePromptCompletion p r imageId) s1) = prompts s)
      by (by rewrite (eff_prompts _ _ _ _ _ E3), (eff_prompts _ _ _ _ _ E)).
    assert (R3 : requests (stateAfter (handlePromptCompletion p r imageId) s1)
                 = requests s ++ attemptRequest p imageId :: rqs)
      by (by rewrite (eff_requests _ _ _ _ _ E3), (eff_requests _ _ _ _ _ E), <- app_assoc).
    destruct (valueOf (handlePromptCompletion p r imageId) s1) as [e|].
    + rewrite stateAfter_ret. split; [done|]. by exists (attemptRequest p imageId :: rqs).
    + apply (Hstep _ _ (attemptRequest p imageId :: rqs)); [done| |done|done].
      by eapply keepsHistories_trans.
  - apply (Hstep _ _ [attemptRequest p imageId]);
      [apply (eff_prompts _ _ _ _ _ E)|done|apply (eff_requests _ _ _ _ _ E)|done].
Qed.

Lemma runAnalysis_requests ps ids w :
  let w' := runAnalysis ps ids w in
  prompts (store w') = prompts (store w) ∧ images w' = images w
  ∧ ∃ rqs, requests (store w') = requests (store w) ++ rqs
           ∧ ∀ rq, rq ∈ rqs →
               rq_imageId rq ∈ ids
               ∧ historyOf (store w) (rq_imageId rq) (id (rq_prompt rq)) = [].
Proof.
  revert w. induction ids as [|i ids IH]; intros w w'.
  { split; [done|]. split; [done|]. exists [].
    split; [by rewrite app_nil_r|]. by intros rq ?%elem_of_nil. }
  subst w'. rewrite runAnalysis_cons.
  destruct (runIndependent_requests (List.filter (λ p, negb (hasParent p)) ps) i false
              (store w)) as (P1 & r1 & R1 & H1).
  pose proof (runIndependent_keeps (List.filter (λ p, negb (hasParent p)) ps) i false
                (store w)) as Hk.
  destruct (valueOf _ (store w)) as [e|b].
  { cbn [store images]. split; [done|]. split; [done|]. exists r1. split; [done|].
    intros rq Hin. destruct (H1 rq Hin) as [-> Hh]. split; [by left|done]. }
  set (w1 := {| store := _; images := _; analysisStates := _ |}).
  destruct (IH w1) as (P & I & r2 & R2 & H2).
  split; [by rewrite P|]. split; [by rewrite I|].
  exists (r1 ++ r2). split.
  { rewrite R2. subst w1. cbn [store]. by rewrite R1, app_assoc. }
  intros rq [Hin|Hin]%elem_of_app.
  - destruct (H1 rq Hin) as [-> Hh]. split; [by left|done].
  - destruct (H2 rq Hin) as [Hi Hh]. split; [by right|].
    destruct (historyOf (store w) (rq_imageId rq) (id (rq_prompt rq))) eqn:E; [done|].
    exfalso. apply (Hk (rq_imageId rq) (id (rq_prompt rq))); [by rewrite E|done].
Qed.

(** X15. [runAnalysis] sends a request only for one of the given images
    and a prompt that had no history for it, and it empties no
    history. *)
Theorem runAnalysis_runs_only_pending (ps : list Prompt) (ids : list string)
    (w : Workspace) :
  let w' := runAnalysis ps ids w in
  (∀ rq, rq ∈ issued (store w) (store w') →
         rq_imageId rq ∈ ids
         ∧ historyOf (store w) (rq_imageId rq) (id (rq_prompt rq)) = [])
  ∧ (∀ i p, historyOf (store w) i p ≠ [] → historyOf (store w') i p ≠ []).
Proof.
  intros w'. destruct (runAnalysis_requests ps ids w) as (_ & _ & rqs & R & H).
  split; [|apply runAnalysis_keeps].
  intros rq. unfold issued. subst w'. rewrite R, drop_app_length. apply H.
Qed.

End AnalysisFacts.

Section EditingFacts.

Lemma NoDup_ids_inj (ps : list Prompt) p q :
  NoDup (id <$> ps) → p ∈ ps → q ∈ ps → id p = id q → p = q.
Proof.
  intros Hnd (i & Hi)%list_elem_of_lookup (j & Hj)%list_elem_of_lookup Hid.
  assert (i = j) as ->; [|congruence].
  eapply NoDup_lookup; [exact Hnd| |]; rewrite list_lookup_fmap.
  - by rewrite Hi.
  - rewrite Hj. cbn. by rewrite Hid.
Qed.

Lemma NoDup_ids_NoDup (ps : list Prompt) : NoDup (id <$> ps) → NoDup ps.
Proof. apply NoDup_fmap_1. Qed.

Lemma elem_of_filter {A} (f : A → bool) (l : list A) x :
  x ∈ List.filter f l ↔ x ∈ l ∧ f x = true.
Proof. by rewrite list_elem_of_In, filter_In, <- list_elem_of_In. Qed.

Lemma NoDup_filter_bool {A} (f : A → bool) (l : list A) : NoDup l → NoDup (List.filter f l).
Proof.
  induction 1 as [|x l Hx Hl IH]; cbn [List.filter]; [constructor|].
  destruct (f x); [|done]. constructor; [|done]. rewrite elem_of_filter. tauto.
Qed.

Lemma filter_ids_sublist (f : Prompt → bool) (ps : list Prompt) :
  NoDup (id <$> ps) → NoDup (id <$> List.filter f ps).
Proof.
  induction ps as [|p ps IH]; [done|]. rewrite fmap_cons. intros [Hp Hnd]%NoDup_cons.
  cbn [List.filter]. destruct (f p); [|by apply IH].
  rewrite fmap_cons. apply NoDup_cons. split; [|by apply IH].
  intros (q & Hid & Hq)%list_elem_of_fmap. apply elem_of_filter in Hq as [Hq _].
  apply Hp, list_elem_of_fmap. eauto.
Qed.

(** *** deletePrompt *)

(** X17. [deletePrompt] keeps the prompts well formed: the ids stay
    pairwise distinct, and every prompt that names a parent still
    names an independent prompt of the list. *)
Theorem deletePrompt_keeps_tree (s : AppState) (confirmed : bool) (pid : string) :
  wellFormed (prompts s) →
  wellFormed (prompts (stateAfter (deletePrompt confirmed pid) s)).
Proof.
  intros [Hnd Hflat]. unfold deletePrompt, stateAfter, setState. cbn [snd].
  destruct (List.filter (parentIs pid) (prompts s)) as [|c0 l] eqn:Hf;
    [|destruct confirmed; [|done]].
  all: cbn [prompts set_prompts set_results]; split; [by apply filter_ids_sublist|].
  all: intros c q [Hc Hkeep]%elem_of_filter Hp;
       destruct (Hflat c q Hc Hp) as (Hq & parent & Hin & Hid & Hpar);
       (split; [done|]); exists parent; (split; [|done]);
       apply elem_of_filter; (split; [done|]);
       apply negb_true_iff, not_true_iff_false; rewrite inIds_spec, elem_of_idsToDelete;
       apply negb_true_iff, not_true_iff_false in Hkeep;
       rewrite inIds_spec, elem_of_idsToDelete in Hkeep.
  all: intros [Hpid|(c' & Hc' & Hp' & Hid')].
  all: try (apply Hkeep; right; exists c; split; [done|]; split; [congruence|done]).
  all: assert (c' = parent) by (by apply (NoDup_ids_inj (prompts s))); congruence.
Qed.

(** *** addPrompt *)

Lemma flat_app (ps : list Prompt) (p : Prompt) :
  flat ps →
  (∀ q, parentId p = Some q →
        q ≠ "" ∧ ∃ parent, parent ∈ ps ∧ id parent = q ∧ parentId parent = None) →
  flat (ps ++ [p]).
Proof.
  intros Hflat Hp c q [Hc|Hc%list_elem_of_singleton]%elem_of_app Hpar.
  - destruct (Hflat c q Hc Hpar) as (Hq & parent & Hin & Hid & Hnone).
    split; [done|]. exists parent. split; [|done]. apply elem_of_app. by left.
  - subst c. destruct (Hp q Hpar) as (Hq & parent & Hin & Hid & Hnone).
    split; [done|]. exists parent. split; [|done]. apply elem_of_app. by left.
Qed.

(** X18. [addPrompt] keeps the results and appends one text prompt with
    an empty text and the time as its id; the new prompt is a child
    exactly when a parent id is given that is not empty and is the id
    of a prompt of the list. The list stays well formed when the id is
    new and the prompts with the parent id are independent. *)
Theorem addPrompt_appends (s : AppState) (now : N) (parent : option string)
    (parentScoreRange : option (float * float)) :
  let s' := stateAfter (addPrompt now parent parentScoreRange) s in
  results s' = results s
  ∧ (∃ p, prompts s' = prompts s ++ [p] ∧ id p = pretty now ∧ text p = ""
          ∧ type p = ResultType.Text
          ∧ parentId p = match parent with
                         | Some pid =>
                             if bool_decide (pid ≠ "" ∧ pid ∈ id <$> prompts s)
                             then Some pid else None
                         | None => None
                         end)
  ∧ (wellFormed (prompts s) → pretty now ∉ id <$> prompts s →
     (∀ pid q, parent = Some pid → q ∈ prompts s → id q = pid → parentId q = None) →
     wellFormed (prompts s')).
Proof.
  intros s'. subst s'. unfold addPrompt, stateAfter, setState. cbn [snd].
  set (found := match parent with
                | Some pid => List.find (λ p, String.eqb (id p) pid) (prompts s)
                | None => None
                end).
  set (p := match parent, found with
            | Some pid, Some parentPrompt => if truthy pid then _ else _
            | _, _ => _
            end).
  cbn [results prompts set_prompts].
  assert (Hfound : ∀ pid, parent = Some pid →
            match found with
            | Some q => q ∈ prompts s ∧ id q = pid
            | None => pid ∉ id <$> prompts s
            end).
  { intros pid ->. subst found.
    destruct (List.find _ _) as [q|] eqn:Hf.
    - apply find_some in Hf as [Hin Hid]. split; [by apply list_elem_of_In|].
      by apply String.eqb_eq.
    - intros (q & Hid & Hq)%list_elem_of_fmap.
      apply list_elem_of_In in Hq. pose proof (find_none _ _ Hf q Hq) as H.
      cbn beta in H. rewrite <- Hid, String.eqb_refl in H. discriminate. }
  assert (Hp : id p = pretty now ∧ text p = "" ∧ type p = ResultType.Text
               ∧ parentId p = match parent with
                              | Some pid =>
                                  if bool_decide (pid ≠ "" ∧ pid ∈ id <$> prompts s)
                                  then Some pid else None
                              | None => None
                              end).
  { subst p. destruct parent as [pid|]; [|done].
    specialize (Hfound pid eq_refl). destruct found as [q|].
    - destruct Hfound as [Hq Hid].
      destruct pid as [|a pid]; cbn [truthy id text type parentId].
      + do 3 (split; [done|]). rewrite bool_decide_eq_false_2; [done|]. by intros [? _].
      + do 3 (split; [done|]). rewrite bool_decide_eq_true_2; [done|].
        split; [done|]. apply list_elem_of_fmap. eauto.
    - cbn [id text type parentId]. do 3 (split; [done|]).
      rewrite bool_decide_eq_false_2; [done|]. by intros [_ ?]. }
  split; [done|]. split; [exists p; tauto|].
  intros [Hnd Hflat] Hfresh Hind. destruct Hp as (Hid & _ & _ & Hpar).
  split.
  - rewrite fmap_app. apply NoDup_app. split; [done|]. split; [|apply NoDup_singleton].
    intros k Hk ->%list_elem_of_singleton. cbn in Hfresh. congruence.
  - apply flat_app; [done|]. intros q Hq. rewrite Hq in Hpar.
    destruct parent as [pid|]; [|done].
    destruct (bool_decide _) eqn:Hb; [|done]. injection Hpar as ->.
    apply bool_decide_eq_true in Hb as [Hne (parentPrompt & Hpid & Hin)%list_elem_of_fmap].
    split; [done|]. exists parentPrompt. split; [done|]. split; [done|]. eauto.
Qed.

(** *** dropPrompt *)

Lemma findIndex_Some {A} (f : A → bool) (l : list A) k :
  findIndex f l = Some k →
  ∃ x, l !! k = Some x ∧ f x = true ∧ ∀ y, y ∈ take k l → f y = false.
Proof.
  revert k. induction l as [|a l IH]; intros k; cbn [findIndex]; [done|].
  destruct (f a) eqn:Ha.
  - intros [= <-]. exists a. split; [done|]. split; [done|]. by intros y ?%elem_of_nil.
  - destruct (findIndex f l) as [j|]; [|done]. intros [= <-].
    destruct (IH j eq_refl) as (x & Hx & Hfx & Hbefore).
    exists x. split; [done|]. split; [done|].
    intros y [->|Hy]%elem_of_cons; [done|by apply Hbefore].
Qed.

Lemma findIndex_None {A} (f : A → bool) (l : list A) :
  findIndex f l = None ↔ ∀ y, y ∈ l → f y = false.
Proof.
  induction l as [|a l IH]; cbn [findIndex]; [by split; [intros _ y ?%elem_of_nil|]|].
  destruct (f a) eqn:Ha.
  - split; [done|]. intros H. specialize (H a ltac:(by left)). congruence.
  - destruct (findIndex f l) as [j|] eqn:E.
    + split; [done|]. intros H. assert (Some j = None); [|done].
      apply IH. intros y Hy. apply H. by right.
    + split; [|done]. intros _ y [->|Hy]%elem_of_cons; [done|]. by apply IH.
Qed.

Lemma dropPrompt_unfold s draggedId targetId :
  stateAfter (dropPrompt draggedId targetId) s
  = match List.find (λ p, String.eqb (id p) draggedId) (prompts s) with
    | None => s
    | Some draggedParent =>
        if hasParent draggedParent then s
        else match findIndex (λ p, String.eqb (id p) targetId)
                     (outsideGroup (prompts s) draggedParent) with
             | None => s
             | Some k =>
                 set_prompts (λ _, take k (outsideGroup (prompts s) draggedParent)
                                     ++ draggedGroup (prompts s) draggedParent
                                     ++ drop k (outsideGroup (prompts s) draggedParent)) s
             end
    end.
Proof.
  unfold dropPrompt, stateAfter, setState. cbn [snd].
  destruct (List.find _ _) as [dp|] eqn:Hf; [|done].
  pose proof (find_id_spec _ _ _ Hf) as <-. reflexivity.
Qed.

Lemma group_split (ps : list Prompt) (dp : Prompt) :
  NoDup (id <$> ps) → dp ∈ ps → parentId dp ≠ Some (id dp) →
  draggedGroup ps dp ++ outsideGroup ps dp ≡ₚ ps.
Proof.
  intros Hnd Hdp Hself. pose proof (NoDup_ids_NoDup _ Hnd) as Hps.
  assert (Hin : ∀ x, x ∈ ps → (x ∈ draggedGroup ps dp ↔
                                 inIds (id <$> draggedGroup ps dp) (id x) = true)).
  { intros x Hx. rewrite inIds_spec. split.
    - intros H. apply list_elem_of_fmap. eauto.
    - intros (y & Hid & Hy)%list_elem_of_fmap.
      assert (y ∈ ps).
      { unfold draggedGroup in Hy. apply elem_of_cons in Hy as [->|Hy]; [done|].
        by apply elem_of_filter in Hy as [? _]. }
      by rewrite (NoDup_ids_inj ps x y). }
  apply NoDup_Permutation; [|done|].
  - apply NoDup_app. split; [|split].
    + unfold draggedGroup. apply NoDup_cons. split; [|by apply NoDup_filter_bool].
      intros [_ Hp]%elem_of_filter. by apply parentIs_spec in Hp.
    + intros x Hx [Hx' Hout]%elem_of_filter. apply negb_true_iff in Hout.
      apply (Hin x Hx') in Hx. congruence.
    + by apply NoDup_filter_bool.
  - intros x. rewrite elem_of_app. split.
    + intros [Hx|[? _]%elem_of_filter]; [|done].
      unfold draggedGroup in Hx. apply elem_of_cons in Hx as [->|Hx]; [done|].
      by apply elem_of_filter in Hx as [? _].
    + intros Hx. destruct (inIds (id <$> draggedGroup ps dp) (id x)) eqn:E.
      * left. by apply Hin.
      * right. apply elem_of_filter. by rewrite E.
Qed.

Lemma dropPrompt_Permutation s draggedId targetId :
  wellFormed (prompts s) →
  prompts (stateAfter (dropPrompt draggedId targetId) s) ≡ₚ prompts s.
Proof.
  intros [Hnd Hflat]. rewrite dropPrompt_unfold.
  destruct (List.find _ _) as [dp|] eqn:Hf; [|done].
  destruct (hasParent dp) eqn:Hpar; [done|].
  destruct (findIndex _ _) as [k|]; [|done]. cbn [prompts set_prompts].
  apply find_some in Hf as [Hdp _]. apply list_elem_of_In in Hdp.
  rewrite <- (group_split (prompts s) dp) at 4; [|done..|].
  - rewrite (Permutation_app_comm (draggedGroup _ _) (drop k _)), app_assoc.
    rewrite take_drop. apply Permutation_app_comm.
  - intros Hself. destruct (Hflat dp (id dp) Hdp Hself) as (_ & q & Hq & Hid & Hnone).
    rewrite (NoDup_ids_inj (prompts s) q dp) in Hnone by done. congruence.
Qed.

(** X19. [dropPrompt] permutes a well-formed list of prompts: no prompt
    is lost, doubled or changed, the list stays well formed, and the
    results are left alone. *)
Theorem dropPrompt_permutes (s : AppState) (draggedId targetId : string) :
  wellFormed (prompts s) →
  let s' := stateAfter (dropPrompt draggedId targetId) s in
  prompts s' ≡ₚ prompts s ∧ wellFormed (prompts s') ∧ results s' = results s.
Proof.
  intros Hwf s'. pose proof (dropPrompt_Permutation s draggedId targetId Hwf) as Hperm.
  fold s' in Hperm. split; [done|]. split.
  - destruct Hwf as [Hnd Hflat]. split; [by rewrite Hperm|].
    intros c q Hc Hp. rewrite Hperm in Hc.
    destruct (Hflat c q Hc Hp) as (Hq & parent & Hin & Hrest).
    split; [done|]. exists parent. by rewrite Hperm.
  - subst s'. rewrite dropPrompt_unfold.
    destruct (List.find _ _) as [dp|]; [|done].
    destruct (hasParent dp); [done|]. by destruct (findIndex _ _).
Qed.

Lemma findIndex_app {A} (f : A → bool) (before : list A) target after :
  (∀ q, q ∈ before → f q = false) → f target = true →
  findIndex f (before ++ target :: after) = Some (length before).
Proof.
  intros Hb Ht. induction before as [|a l IH]; cbn [app findIndex length].
  - by rewrite Ht.
  - rewrite (Hb a) by (by left). rewrite IH; [done|]. intros q Hq. apply Hb. by right.
Qed.

(** X20. An independent dragged prompt and its children land, in this
    order, right before the first prompt outside the group that has
    the target id, and the prompts outside the group keep their order;
    with no such prompt the store is unchanged. *)
Theorem dropPrompt_places_group (s : AppState) (draggedId targetId : string)
    (draggedParent : Prompt) :
  List.find (λ p, String.eqb (id p) draggedId) (prompts s) = Some draggedParent →
  hasParent draggedParent = false →
  let s' := stateAfter (dropPrompt draggedId targetId) s in
  (∀ before target after,
     outsideGroup (prompts s) draggedParent = before ++ target :: after →
     id target = targetId → (∀ q, q ∈ before → id q ≠ targetId) →
     prompts s' = before ++ draggedGroup (prompts s) draggedParent ++ target :: after)
  ∧ ((∀ q, q ∈ outsideGroup (prompts s) draggedParent → id q ≠ targetId) → s' = s).
Proof.
  intros Hf Hpar s'. subst s'. rewrite dropPrompt_unfold, Hf, Hpar. split.
  - intros before target after Hout Hid Hbefore.
    rewrite Hout, (findIndex_app _ before target after).
    + cbn [prompts set_prompts]. by rewrite take_app_length, drop_app_length.
    + intros q Hq. apply String.eqb_neq. by apply Hbefore.
    + by apply String.eqb_eq.
  - intros Hnone.
    assert (findIndex (λ p, String.eqb (id p) targetId)
              (outsideGroup (prompts s) draggedParent) = None) as ->; [|done].
    apply findIndex_None. intros q Hq. apply String.eqb_neq. by apply Hnone.
Qed.

(** *** updatePrompt *)

Lemma spread_idem p newPrompt : spread (spread p newPrompt) newPrompt = spread p newPrompt.
Proof.
  unfold spread. cbn. destruct newPrompt as [[?|] [?|] [?|] [?|] [?|] [?|] [?|]]; reflexivity.
Qed.

(** X21. [updatePrompt] with the same fields a second time changes
    nothing more; it keeps the results and the number of prompts, and
    every prompt with another id stays in its place. *)
Theorem updatePrompt_idempotent (s : AppState) (pid : string) (newPrompt : PartialPrompt) :
  let s' := stateAfter (updatePrompt pid newPrompt) s in
  stateAfter (updatePrompt pid newPrompt) s' = s'
  ∧ results s' = results s
  ∧ length (prompts s') = length (prompts s)
  ∧ (∀ k p, prompts s !! k = Some p → id p ≠ pid → prompts s' !! k = Some p).
Proof.
  intros s'. subst s'. unfold updatePrompt, stateAfter, setState. cbn [snd].
  split; [|split; [done|split]].
  - unfold set_prompts. cbn. f_equal. rewrite List.map_map. apply List.map_ext.
    intros p. destruct (String.eqb (id p) pid) eqn:E; [|by rewrite E].
    destruct (String.eqb (id (spread p newPrompt)) pid); [apply spread_idem|done].
  - cbn. apply List.length_map.
  - intros k p Hk Hne. cbn [prompts set_prompts].
    change (List.map ?f ?l) with (f <$> l). rewrite list_lookup_fmap, Hk. cbn.
    apply String.eqb_neq in Hne. by rewrite Hne.
Qed.

End EditingFacts.

Section IdFacts.

Lemma includes_dash_cons (c : ascii) (s : string) :
  includes "-" (String c s) = bool_decide (c = "-"%char) || includes "-" s.
Proof.
  rewrite includes_unfold. unfold startsWith. rewrite prefix_cons, prefix_nil.
  destruct (Ascii.ascii_dec "-" c) as [<-|Hne].
  - by rewrite bool_decide_eq_true_2.
  - by rewrite bool_decide_eq_false_2.
Qed.

Lemma includes_dash_app (a b : string) :
  includes "-" (a +:+ b) = includes "-" a || includes "-" b.
Proof.
  induction a as [|c a IH]; [done|].
  by rewrite append_cons, !includes_dash_cons, IH, orb_assoc.
Qed.

Lemma pretty_N_go_no_dash (x : N) (s : string) :
  includes "-" s = false → includes "-" (pretty_N_go x s) = false.
Proof.
  revert s. induction (N.lt_wf_0 x) as [x _ IH]; intros s Hs.
  destruct (decide (x = 0)%N) as [->|Hx]; [by rewrite pretty_N_go_0|].
  rewrite pretty_N_go_step by lia. apply IH; [apply N.div_lt; lia|].
  rewrite includes_dash_cons, Hs, orb_false_r. apply bool_decide_eq_false_2.
  unfold pretty_N_char. by repeat case_match.
Qed.

Lemma pretty_N_no_dash (x : N) : includes "-" (pretty x) = false.
Proof.
  unfold pretty, pretty_N. destruct (decide (x = 0)%N); [done|].
  by apply pretty_N_go_no_dash.
Qed.

(** A text is cut in one way only at its last dash. *)
Lemma last_dash (a b da db : string) :
  includes "-" da = false → includes "-" db = false →
  a +:+ "-" +:+ da = b +:+ "-" +:+ db → a = b ∧ da = db.
Proof.
  intros Ha Hb. revert b. induction a as [|c a IH]; intros [|c' b] H;
    change ("-" +:+ da) with (String "-" da) in H;
    change ("-" +:+ db) with (String "-" db) in H;
    rewrite ?append_nil_l, ?(append_cons c), ?(append_cons c') in H.
  - by injection H.
  - injection H as _ H. rewrite H, includes_dash_app, includes_dash_cons in Ha.
    by rewrite bool_decide_eq_true_2, orb_true_r in Ha.
  - injection H as _ H. rewrite <- H, includes_dash_app, includes_dash_cons in Hb.
    by rewrite bool_decide_eq_true_2, orb_true_r in Hb.
  - injection H as -> H. by destruct (IH b H) as [-> ->].
Qed.

End IdFacts.

Section ImageFacts.

Lemma lookup_foldl_idle (m : gmap string AnalysisStatus) (l : list Image.t) i :
  foldl (λ m img, <[Image.id img := idle]> m) m l !! i
  = if decide (i ∈ Image.id <$> l) then Some idle else m !! i.
Proof.
  revert m. induction l as [|x l IH]; intros m; cbn [foldl].
  - rewrite decide_False; [done|]. by intros ?%elem_of_nil.
  - rewrite IH, fmap_cons. destruct (decide (i ∈ Image.id <$> l)) as [Hin|Hout].
    + rewrite decide_True; [done|]. by right.
    + destruct (decide (i = Image.id x)) as [->|Hne].
      * rewrite decide_True by (by left). apply lookup_insert_eq.
      * rewrite decide_False by (intros [?|?]%elem_of_cons; done).
        by apply lookup_insert_ne.
Qed.

Lemma reset_cases silent w :
  reset silent w = w ∧ images w = [] ∧ results (store w) = ∅
  ∨ reset silent w
    = {| store := set_selectedImageId (λ _, None) (set_results (λ _, ∅) (store w));
         images := []; analysisStates := ∅ |}.
Proof.
  unfold reset. destruct (negb silent && _); [by right|].
  destruct (bool_decide (images w = [])) eqn:Hi; [|by right].
  destruct (bool_decide (results (store w) = ∅)) eqn:Hr; [|by right].
  left. apply bool_decide_eq_true in Hi, Hr. done.
Qed.

Lemma reset_result (silent : bool) (w : Workspace) :
  let w' := reset silent w in
  images w' = [] ∧ results (store w') = ∅ ∧ prompts (store w') = prompts (store w)
  ∧ reset true w = reset false w
  ∧ (consistent w → selectedImageId (store w') = None ∧ analysisStates w' = ∅).
Proof.
  intros w'. subst w'.
  assert (Hsame : reset true w = reset false w).
  { unfold reset. cbn [negb andb].
    destruct (bool_decide (results (store w) = ∅)) eqn:Hr; cbn [negb]; [done|].
    by rewrite andb_false_r. }
  destruct (reset_cases silent w) as [(-> & Hi & Hr)| ->].
  - split; [done|]. split; [done|]. split; [done|]. split; [done|].
    intros (Hsel & _ & Hst). unfold imageIds in *. rewrite Hi in *. split.
    + destruct (selectedImageId (store w)) as [i|]; [|done].
      specialize (Hsel i eq_refl). by apply elem_of_nil in Hsel.
    + apply map_empty. intros i. apply eq_None_not_Some. rewrite Hst.
      by intros ?%elem_of_nil.
  - done.
Qed.

Lemma filter_nil_iff {A} (f : A → bool) (l : list A) :
  List.filter f l = [] ↔ ∀ x, x ∈ l → f x = false.
Proof.
  induction l as [|a l IH]; cbn [List.filter]; [by split; [intros _ x ?%elem_of_nil|]|].
  destruct (f a) eqn:Ha.
  - split; [done|]. intros H. specialize (H a ltac:(by left)). congruence.
  - rewrite IH. split.
    + intros H x [->|Hx]%elem_of_cons; [done|by apply H].
    + intros H x Hx. apply H. by right.
Qed.

Lemma appendImages_unfold files w :
  appendImages files w
  = match newImages files w with
    | [] => w
    | first :: _ =>
        {| store :=
             if noSelection (store w)
             then set_selectedImageId (λ _, Some (Image.id first)) (store w)
             else store w;
           images := images w ++ newImages files w;
           analysisStates :=
             foldl (λ m img, <[Image.id img := idle]> m) (analysisStates w)
                   (newImages files w) |}
    end.
Proof. reflexivity. Qed.

(** X24. [appendImages] with the same files a second time adds nothing:
    the listed images stay in place, an image is added only for a
    given file whose id is not listed yet, and afterwards the id of
    every given file is listed. *)
Theorem appendImages_idempotent (files : list File.t) (w : Workspace) :
  let w' := appendImages files w in
  appendImages files w' = w'
  ∧ (∃ added, images w' = images w ++ added
              ∧ ∀ img, img ∈ added →
                  (Image.id img ∉ imageIds w) ∧ ∃ f, f ∈ files ∧ img = imageObject f)
  ∧ (∀ f, f ∈ files → Image.id (imageObject f) ∈ imageIds w').
Proof.
  intros w'.
  assert (Hadded : ∀ img, img ∈ newImages files w →
            (Image.id img ∉ imageIds w) ∧ ∃ f, f ∈ files ∧ img = imageObject f).
  { intros img [Himg Hout]%elem_of_filter. split.
    - apply negb_true_iff, not_true_iff_false in Hout. by rewrite inIds_spec in Hout.
    - apply list_elem_of_fmap in Himg as (f & -> & Hf). eauto. }
  assert (Himages : images w' = images w ++ newImages files w).
  { subst w'. rewrite appendImages_unfold.
    destruct (newImages files w) eqn:E; [by rewrite app_nil_r|done]. }
  assert (Hall : ∀ f, f ∈ files → Image.id (imageObject f) ∈ imageIds w').
  { intros f Hf. unfold imageIds. rewrite Himages, fmap_app, elem_of_app.
    destruct (inIds (imageIds w) (Image.id (imageObject f))) eqn:E.
    - left. by apply inIds_spec.
    - right. apply list_elem_of_fmap. exists (imageObject f). split; [done|].
      apply elem_of_filter. rewrite E. split; [|done]. apply list_elem_of_fmap. eauto. }
  split; [|split; [eauto|done]].
  rewrite (appendImages_unfold files w').
  assert (newImages files w' = []) as ->; [|done].
  apply filter_nil_iff. intros img (f & -> & Hf)%list_elem_of_fmap.
  apply negb_false_iff, inIds_spec. by apply Hall.
Qed.

Lemma removeImage_store imageIdToRemove w :
  prompts (store (removeImage imageIdToRemove w)) = prompts (store w)
  ∧ results (store (removeImage imageIdToRemove w))
    = delete imageIdToRemove (results (store w))
  ∧ requests (store (removeImage imageIdToRemove w)) = requests (store w).
Proof. done. Qed.

Lemma elem_of_remaining imageIdToRemove (l : list Image.t) i :
  i ∈ Image.id <$> List.filter (λ img, negb (String.eqb (Image.id img) imageIdToRemove)) l
  ↔ i ∈ Image.id <$> l ∧ i ≠ imageIdToRemove.
Proof.
  rewrite !list_elem_of_fmap. split.
  - intros (img & -> & [Himg Hne]%elem_of_filter). split; [eauto|].
    by apply negb_true_iff, String.eqb_neq in Hne.
  - intros [(img & -> & Himg) Hne]. exists img. split; [done|].
    apply elem_of_filter. split; [done|]. by apply negb_true_iff, String.eqb_neq.
Qed.

Lemma removeImage_result (imageIdToRemove : string) (w : Workspace) :
  let w' := removeImage imageIdToRemove w in
  (imageIdToRemove ∉ imageIds w')
  ∧ (∀ i, i ≠ imageIdToRemove → (i ∈ imageIds w' ↔ i ∈ imageIds w))
  ∧ selectedImageId (store w') ≠ Some imageIdToRemove
  ∧ (∀ p, historyOf (store w') imageIdToRemove p = [])
  ∧ (∀ i p, i ≠ imageIdToRemove → historyOf (store w') i p = historyOf (store w) i p)
  ∧ prompts (store w') = prompts (store w).
Proof.
  intros w'. subst w'. unfold imageIds, removeImage. cbn [images store].
  split; [|split; [|split; [|split; [|split]]]].
  - rewrite elem_of_remaining. tauto.
  - intros i Hi. rewrite elem_of_remaining. tauto.
  - cbn [store selectedImageId set_selectedImageId set_results].
    destruct (selectedImageId (store w)) as [i|]; cbv beta iota; [|done].
    destruct (String.eqb i imageIdToRemove) eqn:E.
    + destruct (List.filter _ (images w)) as [|first l] eqn:Hf; [done|].
      intros [= Hid].
      assert (Image.id first ∈ Image.id <$> List.filter
                (λ img, negb (String.eqb (Image.id img) imageIdToRemove)) (images w)).
      { rewrite Hf, fmap_cons. by left. }
      apply elem_of_remaining in H as [_ ?]. done.
    + apply String.eqb_neq in E. congruence.
  - intros p. unfold historyOf, imageResults. cbn. by rewrite lookup_delete_eq.
  - intros i p Hi. unfold historyOf, imageResults. cbn. by rewrite lookup_delete_ne.
  - done.
Qed.

(** X25. [removeImage] forgets the image: its id is no longer listed
    nor selected, its results are gone, and the other images, their
    results and the prompts are kept. *)
Theorem removeImage_forgets_image (imageIdToRemove : string) (w : Workspace) :
  let w' := removeImage imageIdToRemove w in
  (imageIdToRemove ∉ imageIds w')
  ∧ (∀ i, i ≠ imageIdToRemove → (i ∈ imageIds w' ↔ i ∈ imageIds w))
  ∧ selectedImageId (store w') ≠ Some imageIdToRemove
  ∧ (∀ p, historyOf (store w') imageIdToRemove p = [])
  ∧ (∀ i p, i ≠ imageIdToRemove → historyOf (store w') i p = historyOf (store w) i p)
  ∧ prompts (store w') = prompts (store w).
Proof. apply removeImage_result. Qed.

Lemma setInitialImages_unfold files w :
  setInitialImages files w
  = {| store :=
         match imageObject <$> files with
         | first :: _ =>
             set_selectedImageId (λ _, Some (Image.id first)) (store (reset true w))
         | [] => store (reset true w)
         end;
       images := imageObject <$> files;
       analysisStates := foldl (λ m img, <[Image.id img := idle]> m) ∅
                               (imageObject <$> files) |}.
Proof. reflexivity. Qed.

(** The actions on the images keep the selection, the results and the
    analysis states about the listed images. *)
Lemma image_actions_consistent (w : Workspace) (files : list File.t)
    (imageId : string) (silent : bool) :
  consistent w →
  consistent (setInitialImages files w) ∧ consistent (appendImages files w)
  ∧ consistent (removeImage imageId w) ∧ consistent (reset silent w).
Proof.
  intros (Hsel & Hres & Hst).
  assert (Hreset : ∀ b, consistent (reset b w)
                        ∧ selectedImageId (store (reset b w)) = None
                        ∧ results (store (reset b w)) = ∅).
  { intros b. destruct (reset_result b w) as (Hi & Hr & _ & _ & Hc).
    destruct (Hc ltac:(done)) as [Hs Ha].
    split; [|done]. unfold consistent, imageIds. rewrite Hi, Hr, Hs, Ha.
    split; [done|]. split; [by intros i [x ?]|].
    intros i. rewrite lookup_empty. split; [by intros [x ?]|by intros ?%elem_of_nil]. }
  split; [|split; [|split]].
  - destruct (Hreset true) as (_ & Hs & Hr). rewrite setInitialImages_unfold.
    unfold consistent, imageIds. cbn [store images analysisStates].
    split; [|split].
    + destruct (imageObject <$> files) as [|first l] eqn:E.
      * by rewrite Hs.
      * cbn. intros i [= <-]. by left.
    + assert (Hr' : results match imageObject <$> files with
                            | [] => store (reset true w)
                            | first :: _ =>
                                set_selectedImageId (λ _, Some (Image.id first))
                                  (store (reset true w))
                            end = ∅) by (by destruct (imageObject <$> files)).
      rewrite Hr'. by intros i [x ?].
    + intros i. rewrite lookup_foldl_idle, lookup_empty.
      destruct (decide (i ∈ Image.id <$> (imageObject <$> files))); [done|].
      split; [by intros [x ?]|done].
  - rewrite appendImages_unfold.
    destruct (newImages files w) as [|first l] eqn:E; [done|].
    unfold consistent, imageIds. cbn [store images analysisStates].
    rewrite fmap_app. split; [|split].
    + intros i. destruct (noSelection (store w)).
      * cbn. intros [= <-]. apply elem_of_app. right. by left.
      * intros Hi. apply elem_of_app. left. by apply Hsel.
    + intros i Hi. apply elem_of_app. left. apply Hres. by destruct (noSelection (store w)).
    + intros i. rewrite lookup_foldl_idle, elem_of_app.
      destruct (decide (i ∈ Image.id <$> first :: l)) as [Hin|Hout].
      * split; [by right|done].
      * rewrite Hst. unfold imageIds. tauto.
  - destruct (removeImage_result imageId w) as (Hgone & Hkept & Hnot & _).
    unfold consistent. split; [|split].
    + intros i Hi. assert (i ≠ imageId) by congruence. apply Hkept; [done|].
      cbn in Hi. destruct (selectedImageId (store w)) as [j|] eqn:Hj; [|done].
      destruct (String.eqb j imageId) eqn:Ej.
      * destruct (List.filter _ (images w)) as [|first l] eqn:Hf; [done|].
        injection Hi as <-. apply elem_of_remaining with (imageIdToRemove := imageId).
        rewrite Hf, fmap_cons. by left.
      * injection Hi as <-. by apply Hsel.
    + intros i. cbn. intros Hi.
      destruct (decide (i = imageId)) as [->|Hne].
      { rewrite lookup_delete_eq in Hi. by destruct Hi. }
      rewrite lookup_delete_ne in Hi by done. apply Hkept; [done|]. by apply Hres.
    + intros i. cbn [analysisStates removeImage].
      destruct (decide (i = imageId)) as [->|Hne].
      { rewrite lookup_delete_eq. split; [by intros [x ?]|done]. }
      rewrite lookup_delete_ne by done. rewrite Hst. symmetry. by apply Hkept.
  - apply Hreset.
Qed.

(** X26. [setInitialImages], [appendImages], [removeImage] and [reset]
    keep a workspace consistent: the selected image is listed, results
    are held for listed images only, and the images with an analysis
    state are the listed ones. *)
Theorem image_actions_keep_consistency (w : Workspace) (files : list File.t)
    (imageId : string) (silent : bool) :
  consistent w →
  consistent (setInitialImages files w) ∧ consistent (appendImages files w)
  ∧ consistent (removeImage imageId w) ∧ consistent (reset silent w).
Proof. apply image_actions_consistent. Qed.

Lemma filter_remaining_fresh imageIdToRemove (l : list Image.t) :
  imageIdToRemove ∉ Image.id <$> l →
  List.filter (λ img, negb (String.eqb (Image.id img) imageIdToRemove)) l = l.
Proof.
  induction l as [|x l IH]; [done|]. rewrite fmap_cons, not_elem_of_cons.
  intros [Hx Hl]. cbn [List.filter].
  assert (String.eqb (Image.id x) imageIdToRemove = false) as ->.
  { apply String.eqb_neq. congruence. }
  cbn [negb]. by rewrite IH.
Qed.

(** X27. Removing an image that was just appended to a consistent
    workspace restores the workspace, when an image was selected
    before or there was no image at all. *)
Theorem removeImage_undoes_appendImages (f : File.t) (w : Workspace) :
  consistent w → Image.id (imageObject f) ∉ imageIds w →
  noSelection (store w) = false ∨ (images w = [] ∧ selectedImageId (store w) = None) →
  removeImage (Image.id (imageObject f)) (appendImages [f] w) = w.
Proof.
  intros (Hsel & Hres & Hst) Hfresh Hcase.
  set (i := Image.id (imageObject f)) in *.
  assert (Hnew : newImages [f] w = [imageObject f]).
  { unfold newImages. cbn [fmap list_fmap List.filter]. fold i.
    assert (inIds (imageIds w) i = false) as ->; [|done].
    apply not_true_iff_false. by rewrite inIds_spec. }
  assert (Hr : results (store w) !! i = None).
  { apply eq_None_not_Some. intros H. by apply Hfresh, Hres. }
  assert (Ha : analysisStates w !! i = None).
  { apply eq_None_not_Some. intros H. by apply Hfresh, Hst. }
  rewrite appendImages_unfold, Hnew. unfold removeImage.
  cbn [store images analysisStates foldl]. fold i.
  rewrite List.filter_app. cbn [List.filter]. rewrite String.eqb_refl. cbn [negb].
  rewrite app_nil_r, filter_remaining_fresh by done.
  rewrite delete_insert_id by done.
  destruct w as [st imgs states]. cbn [store images analysisStates] in *. f_equal.
  destruct st as [ps sel res ctl ab n rqs]. unfold noSelection in Hcase.
  cbn [selectedImageId results] in *.
  unfold set_selectedImageId, set_results, noSelection.
  destruct Hcase as [Hs|[-> ->]].
  - destruct sel as [j|]; [|done].
    cbn [prompts selectedImageId results abortControllers abortedSignals
         controllersCreated requests negb truthy].
    rewrite Hs. cbn [prompts selectedImageId results abortControllers abortedSignals
                     controllersCreated requests].
    rewrite (delete_id _ _ Hr).
    assert (String.eqb j i = false) as ->; [|done].
    apply String.eqb_neq. intros ->. apply Hfresh, Hsel. done.
  - cbn [prompts selectedImageId results abortControllers abortedSignals
         controllersCreated requests].
    by rewrite String.eqb_refl, (delete_id _ _ Hr).
Qed.

(** X22. [reset] leaves no image and no result and keeps the prompts,
    silent or not; from a consistent workspace it also leaves no
    selection and no analysis state. *)
Theorem reset_clears (silent : bool) (w : Workspace) :
  let w' := reset silent w in
  images w' = [] ∧ results (store w') = ∅ ∧ prompts (store w') = prompts (store w)
  ∧ reset true w = reset false w
  ∧ (consistent w → selectedImageId (store w') = None ∧ analysisStates w' = ∅).
Proof. apply reset_result. Qed.

End ImageFacts.

Section GenerateFacts.

Context {platform : Platform}.

Lemma getField_setField key v fields k :
  getField k (setField key v fields)
  = if String.eqb key k then Some v else getField k fields.
Proof.
  induction fields as [|[k0 w0] fields IH]; cbn [setField getField].
  - done.
  - destruct (String.eqb k0 key) eqn:E0; cbn [getField].
    + apply String.eqb_eq in E0 as ->. by destruct (String.eqb key k).
    + rewrite IH. destruct (String.eqb k0 k) eqn:E1; [|done].
      apply String.eqb_eq in E1 as ->. apply String.eqb_neq in E0.
      destruct (String.eqb key k) eqn:E2; [|done]. apply String.eqb_eq in E2. congruence.
Qed.

Lemma everyShaped_true items :
  everyShaped items = inr true →
  ∀ item, item ∈ items →
    ∃ fields, item = VObject fields ∧ isString (getField "text" fields) = true
              ∧ isString (getField "type" fields) = true.
Proof.
  induction items as [|p items IH]; cbn [everyShaped]; [by intros _ item ?%elem_of_nil|].
  destruct (wellShaped p) as [[|]|] eqn:Hp; try done.
  intros H item [->|Hin]%elem_of_cons; [|by apply IH].
  destruct p as [| | | | |fields]; try done.
  injection Hp as [? ?]%andb_true_iff. eauto.
Qed.

Lemma generated_ids_distinct (now : nat → N) (j k : nat) :
  pretty (now j) +:+ "-" +:+ pretty j = pretty (now k) +:+ "-" +:+ pretty k → j = k.
Proof.
  intros H. apply last_dash in H as [_ H]; [|apply pretty_N_no_dash..].
  by apply (inj pretty) in H.
Qed.

(** X28. [generatePrompts] returns prompts only for a completion that
    was not cut short and whose cleaned content parses as an array of
    objects with a text and a type that are strings; it returns these
    objects in their order, each with the id made of the time and its
    index, and these ids are pairwise distinct. *)
Theorem generatePrompts_returns (errorBody : string) (now : nat → N) (o : FetchOutcome)
    (generated : list JsValue) :
  generatePrompts errorBody now o = inr generated →
  ∃ finish_reason responseContent items,
    o = Completion finish_reason responseContent ∧ finish_reason ≠ "length"
    ∧ JSON_parse (trim (removeFences (stripThinking responseContent)))
      = Some (VArray items)
    ∧ length generated = length items
    ∧ (∀ k item, items !! k = Some item →
         ∃ fields, item = VObject fields
           ∧ isString (getField "text" fields) = true
           ∧ isString (getField "type" fields) = true
           ∧ generated !! k
             = Some (VObject (setField "id"
                                (VString (pretty (now k) +:+ "-" +:+ pretty k)) fields)))
    ∧ (∀ k p, generated !! k = Some p →
         idOf p = Some (VString (pretty (now k) +:+ "-" +:+ pretty k)))
    ∧ NoDup (idOf <$> generated).
Proof.
  unfold generatePrompts. destruct o as [e|st|fr content|chunks]; try done.
  destruct (String.eqb fr "length") eqn:Hfr; [done|].
  destruct (JSON_parse _) as [[| | | |items|]|] eqn:Hparse; try done.
  destruct (everyShaped items) as [e|[|]] eqn:Hshape; try done.
  intros [= <-]. exists fr, content, items.
  split; [done|]. split; [by apply String.eqb_neq|]. split; [done|].
  split; [apply length_imap|].
  assert (Hitems : ∀ k item, items !! k = Some item →
            ∃ fields, item = VObject fields
              ∧ isString (getField "text" fields) = true
              ∧ isString (getField "type" fields) = true
              ∧ imap (withId now) items !! k
                = Some (VObject (setField "id"
                                   (VString (pretty (now k) +:+ "-" +:+ pretty k)) fields))).
  { intros k item Hk.
    destruct (everyShaped_true items Hshape item) as (fields & -> & Ht & Hty).
    { by eapply list_elem_of_lookup_2. }
    exists fields. do 3 (split; [done|]). by rewrite list_lookup_imap, Hk. }
  assert (Hids : ∀ k p, imap (withId now) items !! k = Some p →
            idOf p = Some (VString (pretty (now k) +:+ "-" +:+ pretty k))).
  { intros k p Hk. rewrite list_lookup_imap in Hk.
    destruct (items !! k) as [item|] eqn:Hitem; [|done].
    destruct (Hitems k item Hitem) as (fields & -> & _ & _ & _).
    injection Hk as <-. cbn [withId idOf]. by rewrite getField_setField, String.eqb_refl. }
  split; [exact Hitems|]. split; [exact Hids|].
  apply NoDup_alt. intros j k x Hj Hk.
  rewrite list_lookup_fmap in Hj, Hk.
  destruct (imap (withId now) items !! j) as [pj|] eqn:Ej; [|done].
  destruct (imap (withId now) items !! k) as [pk|] eqn:Ek; [|done].
  cbn in Hj, Hk. rewrite (Hids j pj Ej) in Hj. rewrite (Hids k pk Ek) in Hk.
  assert (Heq : pretty (now j) +:+ "-" +:+ pretty j = pretty (now k) +:+ "-" +:+ pretty k)
    by congruence.
  by apply generated_ids_distinct in Heq.
Qed.

End GenerateFacts.

Section ChatFacts.

Lemma imap_later_turns fullPromptText (k : nat) (turns : list Turn) :
  List.concat (imap (λ i, turnMessages fullPromptText (S (k + i))) turns)
  = flat_map (λ t, [{| role := user; content := Plain (question t) |};
                    {| role := assistant; content := Plain (answer t) |}]) turns.
Proof.
  revert k. induction turns as [|t turns IH]; intros k; [done|].
  cbn [imap List.concat flat_map].
  assert (turnMessages fullPromptText (S (k + 0)) t
          = [{| role := user; content := Plain (question t) |};
             {| role := assistant; content := Plain (answer t) |}]) as -> by done.
  f_equal. rewrite <- (IH (S k)). f_equal.
Qed.

Lemma roles_alternate (turns : list Turn) (q : string) :
  role <$> (flat_map (λ t, [{| role := user; content := Plain (question t) |};
                           {| role := assistant; content := Plain (answer t) |}]) turns
            ++ [{| role := user; content := Plain q |}])
  = user :: flat_map (λ _, [assistant; user]) turns.
Proof.
  induction turns as [|t turns IH]; [done|].
  cbn [flat_map app fmap list_fmap role] in *. by rewrite IH.
Qed.

(** X29. In a follow-up whose first recorded question is the prompt
    text, the messages are the prompt with the image, the first
    answer, the later turns in their order and the new question, so
    that the roles alternate from user to user. *)
Theorem followUp_messages_alternate (fullPromptText imageBase64 : string)
    (first : Turn) (rest : list Turn) (q : string) :
  question first = fullPromptText → q ≠ "" →
  let messages := chatMessages fullPromptText imageBase64 (first :: rest) (Some q) in
  messages
  = {| role := user; content := TextAndImage fullPromptText imageBase64 |}
    :: {| role := assistant; content := Plain (answer first) |}
    :: flat_map (λ t, [{| role := user; content := Plain (question t) |};
                       {| role := assistant; content := Plain (answer t) |}]) rest
    ++ [{| role := user; content := Plain q |}]
  ∧ role <$> messages = user :: flat_map (λ _, [assistant; user]) (first :: rest).
Proof.
  intros Hfirst Hq messages.
  assert (Hm : messages
    = {| role := user; content := TextAndImage fullPromptText imageBase64 |}
      :: {| role := assistant; content := Plain (answer first) |}
      :: flat_map (λ t, [{| role := user; content := Plain (question t) |};
                         {| role := assistant; content := Plain (answer t) |}]) rest
      ++ [{| role := user; content := Plain q |}]).
  { subst messages. unfold chatMessages.
    assert (truthy q = true) as -> by (by destruct q).
    cbn [imap List.concat]. unfold turnMessages at 1.
    rewrite Hfirst, String.eqb_refl. cbn [Nat.eqb andb app]. do 2 f_equal.
    f_equal. apply (imap_later_turns fullPromptText 0). }
  split; [exact Hm|]. rewrite Hm. cbn [fmap list_fmap role flat_map app].
  do 2 f_equal. apply roles_alternate.
Qed.

End ChatFacts.

(** ** The statements at concrete inputs *)

Import Scenario.

(** Membership in a concrete list. *)
Ltac in_list := apply list_elem_of_In; vm_compute; tauto.

(** Splits the membership [H] in a list that is given into its cases. *)
Ltac one_of H :=
  apply list_elem_of_In in H; cbv in H;
  repeat (destruct H as [<-|H]); [..|destruct H].

(** C2. Fed the deltas of the specification's example, in which the
    opening tag is split over the first two deltas, the decoder leaves
    [initial] on the first delta, which is not white space and does not
    start with the whole tag, and from then on yields every delta as it
    comes: the text accumulated from the yielded deltas is the whole
    stream, thinking block included, and not [Hello, world]. *)
Theorem split_opening_tag_is_streamed :
  visibleText (fetchAnalysisStream (deltaFrames splitThink))
    = "<think>hidden reasoning</think> Hello, world"
  ∧ data <$> last (historyOf
                     (stateAfter (@runSinglePrompt (platformOf (λ _ _, deltaFrames splitThink))
                                    (mkPrompt "1" ResultType.Text None) "img")
                        (freshStore [mkPrompt "1" ResultType.Text None])) "img" "1")
    = Some (VString "<think>hidden reasoning</think> Hello, world").
Proof. split; vm_compute; reflexivity. Qed.

(** With the opening tag in one delta the block is skipped, and the
    one-shot [stripThinking] removes it from the same text. *)
Example whole_opening_tag_is_skipped :
  visibleText (fetchAnalysisStream
                 (deltaFrames ["<think>"; "hidden reasoning</thi"; "nk> Hello"; ", world"]))
    = "Hello, world"
  ∧ stripThinking (JsString.concat splitThink) = "Hello, world".
Proof. split; vm_compute; reflexivity. Qed.

(** C1. A direct child whose id is [constructor], the name of a
    property that every plain object inherits, is not executed when its
    parent has answered Yes, although its condition is [yes] and it has
    no history: the test of line 689 reads the inherited function,
    which is truthy and of length 1. Its sibling with an ordinary id is
    executed. *)
Theorem inherited_name_child_is_not_run :
  let s := withHistory "yesno-1" [succeeded "yesno-1" (VString "Yes")]
             (freshStore [animals; heir; countThem]) in
  let result := succeeded "yesno-1" (VString "Yes") in
  let s' := stateAfter (@handlePromptCompletion (always "Yes") animals result "img") s in
  heir ∈ prompts s ∧ parentId heir = Some (id animals) ∧ condition heir = Some yes
  ∧ historyOf s "img" (id heir) = []
  ∧ executed s s' = [countThem]
  ∧ historyOf s' "img" (id heir) = [].
Proof.
  intros s result s'. split; [in_list|]. repeat split; vm_compute; reflexivity.
Qed.

Lemma yesNo_children_executed_witness :
  let s := freshStore [animals; countThem; whyNot] in
  let result := succeeded "yesno-1" (VString "Yes, two dogs.") in
  executed s (stateAfter (@handlePromptCompletion (always "2") animals result "img") s)
    = [countThem].
Proof.
  intros s result.
  destruct (@yesNo_children_executed (always "2") s animals result "img" "Yes, two dogs."
              eq_refl eq_refl eq_refl) as (_ & X & _).
  - intros c Hc _. one_of Hc; reflexivity.
  - rewrite X. vm_compute. reflexivity.
Defined.

(** C3. When the array of detections holds [null], the fan-out of a
    pending child throws: the call for [null] rejects with the
    [TypeError] of its own [catch], [Promise.all] rejects, and the
    child is left with its loading entry and no result, the request for
    the detection before [null] having been sent. *)
Theorem null_detection_stops_fan_out :
  let s := freshStore [detect; describe] in
  let result := succeeded "det" (VArray [cat; VNull]) in
  let run := @handlePromptCompletion (always "Yes") detect result "img" in
  describe ∈ prompts s ∧ parentId describe = Some (id detect)
  ∧ historyOf s "img" (id describe) = []
  ∧ valueOf run s = Some labelOfNull
  ∧ issued s (stateAfter run s) = [childRequest describe cat "img"]
  ∧ historyOf (stateAfter run s) "img" (id describe)
    = [{| promptId := "desc"; status := loading; data := VArray []; errorMessage := None |}].
Proof.
  intros s result run. split; [in_list|]. repeat split; vm_compute; reflexivity.
Qed.

Lemma bbox_children_fan_out_witness :
  let s := freshStore [detect; describe] in
  let result := succeeded "det" (VArray [cat; dog]) in
  ∃ rds : list JsValue,
    length rds = 2
    ∧ historyOf (stateAfter (@handlePromptCompletion dogFails detect result "img") s)
        "img" "desc"
      = [succeeded "desc" (VArray (zip_with BboxChildResult [cat; dog] rds))].
Proof.
  intros s result.
  destruct (@bbox_children_fan_out dogFails s detect result "img" [cat; dog]
              eq_refl eq_refl eq_refl) as (_ & H).
  destruct (H ltac:(discriminate) eq_refl) as (_ & _ & Hc & _).
  apply (Hc describe); [in_list|reflexivity|vm_compute; reflexivity].
Defined.

Lemma score_children_executed_witness :
  let s := freshStore [quality; praise; blame] in
  let result := succeeded "2" (VNumber 7) in
  let s' := stateAfter (@handlePromptCompletion (always "Yes") quality result "img") s in
  praise ∈ executed s s' ∧ blame ∉ executed s s'.
Proof.
  intros s result s'.
  destruct (@score_children_executed (always "Yes") s quality result "img" 7%float
              eq_refl eq_refl eq_refl) as (_ & _ & _ & H).
  destruct H as [H _]; [intros c Hc _; one_of Hc; reflexivity|].
  split.
  - destruct (H praise 5%float ltac:(in_list) eq_refl eq_refl) as (Habove & _).
    apply (Habove eq_refl). split; vm_compute; reflexivity.
  - destruct (H blame 5%float ltac:(in_list) eq_refl eq_refl) as (_ & Hbelow).
    intros Hin. apply (Hbelow eq_refl) in Hin as [_ Hlt]. vm_compute in Hlt. discriminate.
Defined.

(** A child whose operator is above and whose value is below the score
    is not executed when it already has a history. *)
Lemma score_child_with_history_is_skipped :
  let result := succeeded "2" (VNumber 7) in
  let s' := stateAfter (@handlePromptCompletion (always "Yes") quality result "img") praised in
  praise ∈ prompts praised ∧ parentId praise = Some (id quality)
  ∧ scoreConditionOperator praise = Some above ∧ scoreConditionValue praise = Some 5%float
  ∧ PrimFloat.ltb 5 7 = true
  ∧ praise ∉ executed praised s'.
Proof.
  intros result s'. repeat split; try reflexivity; try in_list.
  intros Hin. apply list_elem_of_In in Hin. vm_compute in Hin. exact Hin.
Qed.

(** C5. After a first run that left the no-child without history, a
    second run of the pending prompts takes the parent, whose latest
    result is a success, as a task and runs it again as a whole: a
    request is sent for the parent and a second entry is appended to
    its history, and the yes-child, which had a result, is run again
    too, its earlier result being deleted. *)
Theorem requeued_parent_is_run_again :
  latestIsSuccess (historyOf afterFirstRun "img" "yesno-1") = true
  ∧ historyOf afterFirstRun "img" "child-2" = []
  ∧ taskList afterFirstRun "img" = [animals]
  ∧ issued afterFirstRun afterSecondRun
    = [attemptRequest animals "img"; attemptRequest countThem "img"]
  ∧ historyOf afterFirstRun "img" "yesno-1" = [succeeded "yesno-1" (VString "Yes")]
  ∧ historyOf afterSecondRun "img" "yesno-1"
    = [succeeded "yesno-1" (VString "Yes"); succeeded "yesno-1" (VString "Yes")]
  ∧ length (historyOf afterFirstRun "img" "child-1") = 1
  ∧ historyOf (clearHistories "img" ["child-1"; "child-2"] afterFirstRun) "img" "child-1" = []
  ∧ length (historyOf afterSecondRun "img" "child-1") = 1.
Proof. repeat split; vm_compute; reflexivity. Qed.

(** C6. Of two calls made back to back for one pair, the first, whose
    [fetch] rejects with the reason of the abort, a string and not an
    [AbortError], goes through the error branch of its [catch]: it
    writes an error entry over the loading entry of the second call and
    returns an error; its own loading entry stays. The second call
    then writes its result over the error entry: the pair ends with a
    loading entry and a success. *)
Theorem superseded_attempt_records_an_error :
  let s := freshStore [animals] in
  let begun := stateAfter (beginAttempt animals "img" ;; beginAttempt animals "img") s in
  let first := @settleAttempt (always "Yes") animals "img" (Rejected newRequestInitiated) in
  isAbortError newRequestInitiated = false
  ∧ status <$> historyOf begun "img" "yesno-1" = [loading; loading]
  ∧ status <$> valueOf first begun = Some error
  ∧ status <$> historyOf (stateAfter first begun) "img" "yesno-1" = [loading; error]
  ∧ status <$> fst (valueOf (@runTwice (always "Yes") animals "img") s) = Some error
  ∧ status <$> historyOf (stateAfter (@runTwice (always "Yes") animals "img") s)
                 "img" "yesno-1"
    = [loading; success].
Proof. repeat split; vm_compute; reflexivity. Qed.

Lemma deletePrompt_cascade_witness :
  let s' := stateAfter (deletePrompt true "yesno-1") familyDone in
  (historyOf familyDone "img" "yesno-1" ≠ [] ∧ historyOf familyDone "img" "child-1" ≠ []
   ∧ historyOf familyDone "img" "child-2" ≠ [])
  ∧ historyOf s' "img" "yesno-1" = [] ∧ historyOf s' "img" "child-1" = []
  ∧ historyOf s' "img" "child-2" = [] ∧ prompts s' = [].
Proof.
  intros s'.
  destruct (deletePrompt_cascade familyDone true "yesno-1" (or_intror eq_refl))
    as (Hp & Hc & _ & _).
  split; [repeat split; vm_compute; discriminate|].
  split; [apply Hp|]. split; [apply (Hc "img" countThem); [in_list|reflexivity]|].
  split; [apply (Hc "img" whyNot); [in_list|reflexivity]|].
  vm_compute. reflexivity.
Defined.

(** Deleting the head of a chain of three leaves the history of the
    grandchild, which is among the descendants [findDescendants] finds,
    and leaves the grandchild among the prompts. *)
Lemma deletePrompt_keeps_grandchild :
  let s' := stateAfter (deletePrompt true "yesno-1") chainDone in
  descendantsOf (prompts chainDone) "yesno-1" = Some ["child-1"; "grandchild-1"]
  ∧ historyOf s' "img" "yesno-1" = [] ∧ historyOf s' "img" "child-1" = []
  ∧ historyOf s' "img" "grandchild-1" = [succeeded "grandchild-1" (VString "Yes")]
  ∧ prompts s' = [species].
Proof. intros s'. repeat split; vm_compute; reflexivity. Qed.

(** C8. A second run right after the first, with the same prompts,
    sends two requests when the first left a child without history:
    the parent is run again, and so is its child that had a result. *)
Theorem second_run_issues_requests :
  prompts afterFirstRun = prompts (freshStore [animals; countThem; whyNot])
  ∧ prompts afterSecondRun = prompts afterFirstRun
  ∧ length (requests afterFirstRun) = 2 ∧ length (requests afterSecondRun) = 4
  ∧ rq_prompt <$> issued afterFirstRun afterSecondRun = [animals; countThem].
Proof. repeat split; vm_compute; reflexivity. Qed.

(** C9. In a fan-out over three detections the call about the dog
    fails at the endpoint and the last detection is [null]: the call
    for [null] rejects, [Promise.all] rejects with it, and the child is
    left with its loading entry, the failure of the dog and the answer
    about the cat being lost. With an empty object in the place of
    [null] the three calls are captured and the child ends with a
    success. *)
Theorem null_detection_rejects_the_batch :
  let s := freshStore [detect; describe] in
  let run := @fanOut dogFails describe [dog; cat; VNull] "img" in
  @failureOf dogFails (@server dogFails 0 (childRequest describe dog "img"))
    = Some "API failed: 500"
  ∧ valueOf run s = Some labelOfNull
  ∧ issued s (stateAfter run s)
    = [childRequest describe dog "img"; childRequest describe cat "img"]
  ∧ status <$> historyOf (stateAfter run s) "img" "desc" = [loading]
  ∧ historyOf (stateAfter (@fanOut dogFails describe [dog; cat; VObject []] "img") s)
      "img" "desc"
    = [succeeded "desc"
         (VArray [BboxChildResult dog (VString "Error: API failed: 500");
                  BboxChildResult cat (VString "Yes");
                  BboxChildResult (VObject [])
                    (VString "Error: Cannot read properties of undefined (reading 'join')")])].
Proof. repeat split; vm_compute; reflexivity. Qed.

Lemma fanOut_captures_failures_witness :
  let s := freshStore [detect; describe] in
  historyOf (stateAfter (@fanOut dogFails describe [cat; dog] "img") s) "img" "desc"
    = [succeeded "desc"
         (VArray [BboxChildResult cat (VString "Yes");
                  BboxChildResult dog (VString "Error: API failed: 500")])].
Proof.
  intros s.
  destruct (@fanOut_captures_failures dogFails s describe [cat; dog] "img" 1 dog
              "API failed: 500" eq_refl eq_refl eq_refl eq_refl)
    as (_ & rds & Hlen & Hh & Hdog & Hrest).
  specialize (Hrest 0 cat "stop" "Yes" eq_refl eq_refl eq_refl).
  destruct rds as [|r0 [|r1 [|]]]; try discriminate.
  injection Hdog as ->. injection Hrest as ->. exact Hh.
Defined.


(** ** The further properties at concrete inputs *)

Import Gallery.

Lemma forest_wellFormed : wellFormed forest.
Proof.
  split.
  - apply (bool_decide_unpack _). vm_compute. exact I.
  - intros c q Hc Hp. one_of Hc; cbv in Hp;
      first [discriminate Hp | injection Hp as <-]; (split; [discriminate|]);
      first [exists animals; split; [in_list|by split]
            |exists quality; split; [in_list|by split]].
Qed.

Lemma emptyWorkspace_consistent : consistent emptyWorkspace.
Proof.
  split; [|split].
  - intros i Hi. discriminate Hi.
  - intros i [x Hx]. cbn in Hx. by rewrite lookup_empty in Hx.
  - intros i. cbn. rewrite lookup_empty. split; [by intros [x ?]|by intros ?%elem_of_nil].
Qed.

Lemma gallery_consistent : consistent gallery.
Proof.
  apply (image_actions_consistent emptyWorkspace [photo] "" true emptyWorkspace_consistent).
Qed.

Lemma stream_without_block_is_passed_witness :
  visibleText (streamYields decoderStart (ChunkDelta <$> ["Hel"; "lo"])) = "Hello".
Proof. exact (stream_without_block_is_passed ["Hel"; "lo"] eq_refl). Defined.

Lemma leading_block_is_skipped_witness :
  trim (visibleText (streamYields decoderStart
                       (ChunkDelta <$> [" "; "<think>plan"; "ning</think> Hel"; "lo"])))
  = "Hello".
Proof.
  exact (leading_block_is_skipped [" "] "<think>plan" ["ning</think> Hel"; "lo"]
           eq_refl eq_refl eq_refl).
Defined.

Lemma open_block_yields_nothing_witness :
  streamYields decoderStart (ChunkDelta <$> [" "; "<think>plan"; "ning"; " Hello"]) = [].
Proof.
  exact (open_block_yields_nothing [" "] "<think>plan" ["ning"; " Hello"]
           eq_refl eq_refl eq_refl).
Defined.

Lemma stripThinking_removes_first_block_witness :
  stripThinking "A <think>plan</think> B <think>x</think>" = "A B <think>x</think>".
Proof.
  exact (stripThinking_removes_first_block "A " "plan" " B <think>x</think>"
           eq_refl eq_refl).
Defined.

Lemma stripThinking_keeps_other_text_witness :
  stripThinking " Hello " = "Hello"
  ∧ stripThinking " Hello <think>plan" = "Hello <think>plan".
Proof.
  destruct (stripThinking_keeps_other_text " Hello " "plan" eq_refl) as [H1 H2].
  split; [exact H1|exact (H2 eq_refl)].
Defined.




Lemma flow_runs_prompt_and_children_witness :
  historyOf (stateAfter (@runSingleAnalysisFlow (always "Yes") animals) chainDone)
            "img" "grandchild-1" = []
  ∧ stateAfter (@runSingleAnalysisFlow (always "Yes") (mkPrompt "a" ResultType.YesNo (Some "b")))
      (freshStore cycle) = freshStore cycle.
Proof.
  split.
  - pose proof (@flow_runs_prompt_and_children (always "Yes") chainDone animals "img"
                  eq_refl) as H.
    cbv zeta in H.
    replace (descendantsOf (prompts chainDone) (id animals))
      with (Some ["child-1"; "grandchild-1"]) in H by (vm_compute; reflexivity).
    destruct H as [_ H]. apply H.
    + in_list.
    + discriminate.
    + intros c Hc Hp. one_of Hc; cbv in Hp |- *; first [discriminate Hp|discriminate].
  - pose proof (@flow_runs_prompt_and_children (always "Yes") (freshStore cycle)
                  (mkPrompt "a" ResultType.YesNo (Some "b")) "img" eq_refl) as H.
    cbv zeta in H.
    replace (descendantsOf (prompts (freshStore cycle))
               (id (mkPrompt "a" ResultType.YesNo (Some "b"))))
      with (@None (list string)) in H by (vm_compute; reflexivity).
    exact (proj1 H).
Defined.


Lemma prompt_without_success_is_not_rerun_witness :
  animals ∉ executed parentFailed
              (stateAfter (@runPendingAnalysis (always "Yes")) parentFailed).
Proof.
  apply (@prompt_without_success_is_not_rerun (always "Yes") parentFailed "img" animals);
    [reflexivity|reflexivity|vm_compute; discriminate|reflexivity].
Defined.

Lemma runAnalysis_skips_settled_witness :
  let w' := @runAnalysis (always "Yes") [animals] ["img"] analysed in
  store w' = store analysed ∧ analysisStates w' !! "img" = Some success.
Proof.
  intros w'.
  assert (Hsettled : ∀ i p, i ∈ ["img"] → p ∈ [animals] → hasParent p = false →
                            historyOf (store analysed) i (id p) ≠ []).
  { intros i p Hi Hp _. one_of Hi. one_of Hp. vm_compute. discriminate. }
  destruct (@runAnalysis_skips_settled (always "Yes") [animals] ["img"] analysed Hsettled)
    as (Hs & _ & Ha & _).
  split; [exact Hs|]. apply Ha. in_list.
Defined.

Lemma deletePrompt_keeps_tree_witness :
  wellFormed (prompts (stateAfter (deletePrompt true "yesno-1") (freshStore forest))).
Proof.
  exact (deletePrompt_keeps_tree (freshStore forest) true "yesno-1" forest_wellFormed).
Defined.

Lemma dropPrompt_permutes_witness :
  prompts (stateAfter (dropPrompt "2" "yesno-1") (freshStore forest)) ≡ₚ forest.
Proof.
  destruct (dropPrompt_permutes (freshStore forest) "2" "yesno-1" forest_wellFormed)
    as [H _].
  exact H.
Defined.

Lemma dropPrompt_places_group_witness :
  prompts (stateAfter (dropPrompt "2" "yesno-1") (freshStore forest))
  = [quality; praise; blame; animals; countThem; whyNot].
Proof.
  destruct (dropPrompt_places_group (freshStore forest) "2" "yesno-1" quality
              eq_refl eq_refl) as [H _].
  apply (H [] animals [countThem; whyNot] eq_refl eq_refl).
  intros q Hq. one_of Hq.
Defined.

Lemma image_actions_keep_consistency_witness :
  consistent (setInitialImages [photo; scan] emptyWorkspace)
  ∧ consistent (appendImages [photo; scan] emptyWorkspace).
Proof.
  destruct (image_actions_keep_consistency emptyWorkspace [photo; scan] "img" true
              emptyWorkspace_consistent) as (H1 & H2 & _).
  split; [exact H1|exact H2].
Defined.

Lemma removeImage_undoes_appendImages_witness :
  removeImage (Image.id (imageObject scan)) (appendImages [scan] gallery) = gallery.
Proof.
  apply (removeImage_undoes_appendImages scan gallery gallery_consistent).
  - intros H. apply list_elem_of_In in H. vm_compute in H. destruct H as [H|[]].
    discriminate H.
  - left. vm_compute. reflexivity.
Defined.

Lemma generatePrompts_returns_witness :
  let now := λ _ : nat, 1700000000000%N in
  ∃ generated,
    @generatePrompts suggester "" now (Completion "stop" suggestion) = inr generated
    ∧ idOf <$> generated = [Some (VString "1700000000000-0")]
    ∧ NoDup (idOf <$> generated).
Proof.
  intros now.
  destruct (@generatePrompts suggester "" now (Completion "stop" suggestion))
    as [e|generated] eqn:E; [vm_compute in E; discriminate E|].
  destruct (@generatePrompts_returns suggester "" now _ generated E)
    as (_ & _ & _ & _ & _ & _ & _ & _ & _ & Hnd).
  exists generated. split; [reflexivity|]. split; [|exact Hnd].
  vm_compute in E. injection E as <-. vm_compute. reflexivity.
Defined.

Lemma followUp_messages_alternate_witness :
  role <$> chatMessages "What is it?" "data" [firstTurn] (Some "Which breed?")
  = [user; assistant; user].
Proof.
  destruct (followUp_messages_alternate "What is it?" "data" firstTurn [] "Which breed?"
              eq_refl ltac:(discriminate)) as [_ H].
  exact H.
Defined.
